(** * Hall effect of a tight-binding band: the numeric pipeline of
    [nqft/hall_effect.py]

    The Python module computes, with numpy, the band energy of a
    next-nearest-neighbour square-lattice model on a momentum grid, its
    spectral weight, the conductivities, the electron density and the Hall
    number.  This development embeds those functions and proves properties
    of them.

    The embedding is written once, over a class [Scalar] of the numeric
    operations the code uses, and read at two instances:
    - the real numbers ([R_scalar]): the exact arithmetic the formulas of
      the code denote; analytic statements (derivatives, bounds,
      monotonicity) are proved here;
    - IEEE-754 binary64 ([F_scalar]): the kernel's primitive floats with
      the library functions (cos, sin, exp, round, ceil) as a parameter;
      statements on rounding and on infinities and NaN are proved here.
    The density, which the code computes at the extended precision of
    [numpy.float128], is read a third time at that precision
    ([get_density_float128]).

    numpy arrays are nested lists; the shapes an [ndarray] has by
    construction are the invariant [Model.wf].  The decorator [timeit]
    prints a duration and returns the result of the function unchanged; it
    is not modelled. *)

From Stdlib Require Import Ascii String.
From Stdlib Require Import Reals Lra Lia ZArith List Bool.
From Stdlib Require Import Floats.
Import ListNotations.

(** ** Python exceptions the modelled code can raise *)

Inductive exn : Type :=
| ZeroDivisionError
| IndexError
| ValueError
| UnboundLocalError.

Inductive result (A : Type) : Type :=
| Ok (a : A)
| Raise (e : exn).

Arguments Ok {A} a.
Arguments Raise {A} e.

Definition bind {A B : Type} (r : result A) (k : A -> result B) : result B :=
  match r with
  | Ok a => k a
  | Raise e => Raise e
  end.

Notation "x <- r ;; k" := (bind r (fun x => k))
  (at level 61, r at next level, right associativity).

(** ** The numeric operations of the code *)

Class Scalar (T : Type) : Type := {
  (** a Python [int] used where a float is expected *)
  of_Z : Z -> T;
  (** the decimal literal [m * 10^-k], e.g. [dec 3 1] for [0.3] *)
  dec : Z -> nat -> T;
  add : T -> T -> T;
  sub : T -> T -> T;
  mul : T -> T -> T;
  div : T -> T -> T;
  neg : T -> T;
  absf : T -> T;
  cosf : T -> T;
  sinf : T -> T;
  (** [exp], which the code applies at extended precision *)
  expf : T -> T;
  (** [scipy.constants.pi] and [scipy.constants.e] (elementary charge) *)
  pi : T;
  e_charge : T;
  leb : T -> T -> bool;
  eqb : T -> T -> bool;
  (** Python's [round(x, 2)] *)
  round2 : T -> T;
  (** the ceiling [numpy.arange] takes for its length *)
  ceil : T -> Z
}.

Declare Scope num_scope.
Delimit Scope num_scope with num.
Infix "+" := add : num_scope.
Infix "-" := sub : num_scope.
Infix "*" := mul : num_scope.
Infix "/" := div : num_scope.
Notation "- x" := (neg x) : num_scope.
Infix "<=?" := leb : num_scope.
Infix "=?" := eqb : num_scope.

(** ** numpy arrays and the numpy functions the code calls *)

Module Np.

(** Arrays of one, two and three dimensions. *)
Abbreviation arr1 T := (list T) (only parsing).
Abbreviation arr2 T := (list (list T)) (only parsing).
Abbreviation arr3 T := (list (list (list T))) (only parsing).

Section Arrays.
Context {T : Type} {ST : Scalar T}.
Local Open Scope num_scope.

(** Elementwise binary operation.  numpy raises on shapes that do not
    conform (or stretches an axis of length one); the statements of this
    development are on conforming shapes. *)
Fixpoint map2 {A B C : Type} (f : A -> B -> C) (xs : list A) (ys : list B)
  : list C :=
  match xs, ys with
  | x :: xs', y :: ys' => f x y :: map2 f xs' ys'
  | _, _ => []
  end.

Definition ew1 (f : T -> T) (a : arr2 T) : arr2 T := map (map f) a.
Definition ew2 (f : T -> T -> T) (a b : arr2 T) : arr2 T := map2 (map2 f) a b.

(** [x ** n] for a literal exponent [n]. *)
Fixpoint power (x : T) (n : nat) : T :=
  match n with
  | O => of_Z 1
  | S k => x * power x k
  end.

(** [a.sum()]: the sum of all entries.  numpy adds them pairwise; in
    exact arithmetic the order is immaterial. *)
Definition sum1 (a : arr1 T) : T := fold_left add a (of_Z 0).
Definition sum (a : arr2 T) : T := sum1 (concat a).

(** [a[i, j]] and [a[m, i, j]] for indices in range. *)
Definition get2 (a : arr2 T) (i j : nat) : T := nth j (nth i a []) (of_Z 0).
Definition get3 (a : arr3 T) (m i j : nat) : T := get2 (nth m a []) i j.

(** Shapes. *)
Definition has_shape2 (r c : nat) (a : arr2 T) : bool :=
  Nat.eqb (length a) r && forallb (fun row => Nat.eqb (length row) c) a.
Definition has_shape3 (m r c : nat) (a : arr3 T) : bool :=
  Nat.eqb (length a) m && forallb (has_shape2 r c) a.

(** [numpy.linspace(start, stop, num)], endpoint included: [num] samples
    [start + i * step] with [step = (stop - start) / (num - 1)], the last
    one set to [stop]; a single sample is [start]. *)
Definition linspace (start stop : T) (num : nat) : arr1 T :=
  match num with
  | O => []
  | S O => [start]
  | S n =>
      let step := (stop - start) / of_Z (Z.of_nat n) in
      map (fun i => start + of_Z (Z.of_nat i) * step) (seq 0 n) ++ [stop]
  end.

(** [numpy.meshgrid(x, y)]: [X[i][j] = x[j]] and [Y[i][j] = y[i]]. *)
Definition meshgrid (x y : arr1 T) : arr2 T * arr2 T :=
  (map (fun _ => x) y, map (fun yi => map (fun _ => yi) x) y).

(** [numpy.arange(start, stop, step)] for a non-zero step:
    [ceil((stop - start) / step)] values [start + i * step]. *)
Definition arange (start stop step : T) : arr1 T :=
  let n := Z.to_nat (ceil ((stop - start) / step)) in
  map (fun i => start + of_Z (Z.of_nat i) * step) (seq 0 n).

End Arrays.

End Np.

Import Np.

(** ** [get_energies] *)

Section Dispersion.
Context {T : Type} {ST : Scalar T}.
Local Open Scope num_scope.

(** The dictionary [dEs] has five fixed keys. *)
Record derivatives : Type := mk_dEs {
  dE_dx : arr2 T;
  ddE_dxx : arr2 T;
  dE_dy : arr2 T;
  ddE_dyy : arr2 T;
  ddE_dxdy : arr2 T
}.

Definition hops_t : Type := (T * T * T)%type.

Definition get_energies (hops : hops_t) (kx ky : arr2 T) (mus : arr1 T)
  : arr3 T * derivatives :=
  let '(t, tp, tpp) := hops in
  let a := ew2 (fun x y => of_Z (-2) * t * (cosf x + cosf y)) kx ky in
  let b := ew2 (fun x y => of_Z (-2) * tp * (cosf (x + y) + cosf (x - y))) kx ky in
  let c := ew2 (fun x y => of_Z (-2) * tpp * (cosf (of_Z 2 * x) + cosf (of_Z 2 * y))) kx ky in
  let E := map (fun i => ew1 (fun s => s - i) (ew2 add (ew2 add a b) c)) mus in
  let dEs :=
    {| dE_dx := ew2 (fun x y =>
         of_Z 2 * (t * sinf x + tp * (sinf (x - y) + sinf (x + y))
                   + of_Z 2 * tpp * sinf (of_Z 2 * x))) kx ky;
       ddE_dxx := ew2 (fun x y =>
         of_Z 2 * (t * cosf x + tp * (cosf (x - y) + cosf (x + y))
                   + of_Z 4 * tpp * cosf (of_Z 2 * x))) kx ky;
       dE_dy := ew2 (fun x y =>
         of_Z 2 * (t * sinf y + tp * (sinf (x + y) - sinf (x - y))
                   + of_Z 2 * tpp * sinf (of_Z 2 * y))) kx ky;
       ddE_dyy := ew2 (fun x y =>
         of_Z 2 * (t * cosf y + tp * (cosf (x + y) + cosf (x - y))
                   + of_Z 4 * tpp * cosf (of_Z 2 * y))) kx ky;
       ddE_dxdy := ew2 (fun x y =>
         of_Z 2 * tp * (cosf (x + y) - cosf (x - y))) kx ky |} in
  (E, dEs).

(** The entry of [a + b + c - i] at a grid point [(x, y)]. *)
Definition energy_at (hops : hops_t) (x y mu : T) : T :=
  let '(t, tp, tpp) := hops in
  of_Z (-2) * t * (cosf x + cosf y)
  + of_Z (-2) * tp * (cosf (x + y) + cosf (x - y))
  + of_Z (-2) * tpp * (cosf (of_Z 2 * x) + cosf (of_Z 2 * y))
  - mu.

(** The entry of [dEs['dE_dx']] at a grid point [(x, y)]. *)
Definition dE_dx_at (hops : hops_t) (x y : T) : T :=
  let '(t, tp, tpp) := hops in
  of_Z 2 * (t * sinf x + tp * (sinf (x - y) + sinf (x + y))
            + of_Z 2 * tpp * sinf (of_Z 2 * x)).

End Dispersion.

(** ** [get_spectral_weight] *)

Section SpectralWeight.
Context {T : Type} {ST : Scalar T}.
Local Open Scope num_scope.

(** Python complex numbers, as (real part, imaginary part).  The
    operations are the exact-arithmetic ones. *)
Definition complex : Type := (T * T)%type.
Definition c_real (x : T) : complex := (x, of_Z 0).
Definition c_j : complex := (of_Z 0, of_Z 1).
Definition c_add (z w : complex) : complex := (fst z + fst w, snd z + snd w).
Definition c_sub (z w : complex) : complex := (fst z - fst w, snd z - snd w).
Definition c_mul (z w : complex) : complex :=
  (fst z * fst w - snd z * snd w, fst z * snd w + snd z * fst w).
Definition c_div (z w : complex) : complex :=
  let d := fst w * fst w + snd w * snd w in
  ((fst z * fst w + snd z * snd w) / d, (snd z * fst w - fst z * snd w) / d).
Definition imag (z : complex) : T := snd z.

(** The loops over [range(dim)] filling a [dim] x [dim] array. *)
Definition fill (dim : nat) (f : nat -> nat -> T) : arr2 T :=
  map (fun i => map (fun j => f i j) (seq 0 dim)) (seq 0 dim).

Definition buffer (dim : nat) : arr1 T := linspace (- pi) pi dim.

Definition at1 (a : arr1 T) (i : nat) : T := nth i a (of_Z 0).

(** [diag_line]: the outline of the diamond. *)
Definition diag_line (dim : nat) : arr2 T :=
  fill dim (fun i j =>
    if round2 (absf (at1 (buffer dim) i) + absf (at1 (buffer dim) j)) =? round2 pi
    then of_Z 1 else of_Z 0).

(** [diag_filter]: ones, or the filled diamond when [filter] is set. *)
Definition diag_filter (filter : bool) (dim : nat) : arr2 T :=
  if filter then
    fill dim (fun i j =>
      if absf (at1 (buffer dim) i) + absf (at1 (buffer dim) j) <=? pi
      then of_Z 1 else of_Z 0)
  else fill dim (fun _ _ => of_Z 1).

(** One entry of [-1 / pi * (1 / (omega + eta * 1j - e))]. *)
Definition green (omega eta e : T) : complex :=
  c_mul (c_real (of_Z (-1) / pi))
        (c_div (c_real (of_Z 1))
               (c_sub (c_add (c_real omega) (c_mul (c_real eta) c_j)) (c_real e))).

(** [E.shape[1]] raises [IndexError] on the one-dimensional empty array
    that [np.array([])] is. *)
Definition get_spectral_weight (omega eta : T) (E : arr3 T) (filter : bool)
  : result (arr3 T * arr2 T) :=
  match E with
  | [] => Raise IndexError
  | E0 :: _ =>
      let dim := length E0 in
      let A := map (map (map (green omega eta))) E in
      let A_imag := map (map (map imag)) A in
      Ok (map (ew2 mul (diag_filter filter dim)) A_imag, diag_line dim)
  end.

End SpectralWeight.

(** ** The class [Model] *)

Module Model.

Section Class.
Context {T : Type} {ST : Scalar T}.
Local Open Scope num_scope.

(** The attributes [__init__] sets.  [diamond] is set in one of its two
    branches only. *)
Record t : Type := mk {
  w : T;
  use_peters : bool;
  eta : T;
  norm : T;
  hops : hops_t (T:=T);
  mus : arr1 T;
  k_x : arr2 T;
  k_y : arr2 T;
  E : arr3 T;
  dEs : derivatives (T:=T);
  A : arr3 T;
  diamond : option (arr2 T)
}.

(** What [read_fermi_arc()] returns: the dictionary from labels to the
    arrays loaded from the data directory, in insertion order. *)
Definition fermi_arcs : Type := list (string * arr2 T).

(** [linspace] raises [ValueError] on a negative number of samples. *)
Definition linspace_Z (start stop : T) (num : Z) : result (arr1 T) :=
  if (num <? 0)%Z then Raise ValueError
  else Ok (linspace start stop (Z.to_nat num)).

(** [arange] on the unpacked tuple [mus] of Python numbers: the division
    of the length by a zero step raises. *)
Definition arange_py (mus3 : T * T * T) : result (arr1 T) :=
  let '(start, stop, step) := mus3 in
  if step =? of_Z 0 then Raise ZeroDivisionError
  else Ok (arange start stop step).

(** [1 / resolution**2] on a Python [int]. *)
Definition inv_square (resolution : Z) : result T :=
  if (resolution ^ 2 =? 0)%Z then Raise ZeroDivisionError
  else Ok (of_Z 1 / of_Z (resolution ^ 2)).

Definition __init__ (arcs : fermi_arcs)
    (hoppings : hops_t (T:=T)) (broadening omega : T) (mus3 : T * T * T)
    (resolution : Z) (use_peters use_filter : bool) : result t :=
  if use_peters then
    let eta := dec 1 1 in
    let norm := of_Z 1 / of_Z (200 ^ 2) in
    let hops := (dec 10 1, dec (-3) 1, dec 2 1) in
    let mus := [dec (-13) 1; dec (-10) 1; dec (-75) 2; dec (-4) 1; dec 0 1] in
    let k_s := linspace (- pi) pi 200 in
    let '(k_x, k_y) := meshgrid k_s k_s in
    let '(E, dEs) := get_energies hoppings k_x k_y mus in
    let A := map snd arcs in
    Ok (mk omega true eta norm hops mus k_x k_y E dEs A None)
  else
    let hops := hoppings in
    let eta := broadening in
    mus <- arange_py mus3 ;;
    norm <- inv_square resolution ;;
    k_s <- linspace_Z (- pi) pi resolution ;;
    let '(k_x, k_y) := meshgrid k_s k_s in
    let '(E, dEs) := get_energies hoppings k_x k_y mus in
    AD <- get_spectral_weight omega broadening E use_filter ;;
    Ok (mk omega false eta norm hops mus k_x k_y E dEs (fst AD) (Some (snd AD))).

(** [d * a] for a two-dimensional [d] and a three-dimensional [a]:
    numpy broadcasts [d] over the slices of [a]. *)
Definition broadcast_mul (d : arr2 T) (a : arr3 T) : arr3 T :=
  map (ew2 mul d) a.

Definition ew3 (f : T -> T) (a : arr3 T) : arr3 T := map (ew1 f) a.

Definition sigma_ii (self : t) (variable : string) : result (arr1 T) :=
  let coeff := power (- e_charge) 2 * pi in
  dE <- (if String.eqb variable "x" then Ok (dE_dx (dEs self))
         else if String.eqb variable "y" then Ok (dE_dy (dEs self))
         else Raise UnboundLocalError) ;;
  let sigma := broadcast_mul (ew1 (fun x => power x 2) dE)
                             (ew3 (fun x => power x 2) (A self)) in
  Ok (map (fun sig => of_Z 2 * coeff * sum sig) sigma).

Definition sigma_ij (self : t) : arr1 T :=
  let coeff := power (- e_charge) 3 * power pi 2 / of_Z 3 in
  let d := dEs self in
  let c1 := ew2 mul (ew2 mul (ew1 (fun x => of_Z (-2) * x) (dE_dx d)) (dE_dy d))
                (ddE_dxdy d) in
  let c2 := ew2 mul (ew1 (fun x => power x 2) (dE_dx d)) (ddE_dyy d) in
  let c3 := ew2 mul (ew1 (fun x => power x 2) (dE_dy d)) (ddE_dxx d) in
  let sigma := broadcast_mul (ew2 add (ew2 add c1 c2) c3)
                             (ew3 (fun x => power x 3) (A self)) in
  map (fun sig => of_Z 2 * coeff * sum sig) sigma.

(** The occupation [2.0 / (1.0 + exp(beta * E))], [beta = 100]. *)
Definition occupation (x : T) : T :=
  of_Z 2 / (of_Z 1 + expf (of_Z 100 * x)).

(** [astype("float128")] widens the precision at which the exponential is
    taken; it changes no value in exact arithmetic.  The computation at
    that precision is [get_density_float128], below. *)
Definition get_density (self : t) : arr1 T :=
  let fermi_dirac := ew3 occupation (E self) in
  map (fun func => norm self * sum func) fermi_dirac.

Definition get_hall_nb (self : t) : result (arr1 T) :=
  let s_xy := sigma_ij self in
  s_xx <- sigma_ii self "x" ;;
  s_yy <- sigma_ii self "y" ;;
  Ok (map2 div (map2 mul (map (fun x => norm self * x) s_xx) s_yy)
           (map (fun x => e_charge * x) s_xy)).

(** The shapes of the arrays of an instance: an [R] x [R] grid with
    [R >= 1], one energy surface per chemical potential, and a non-empty
    stack of spectral weights on the grid. *)
Definition wf (self : t) : bool :=
  let R := length (k_x self) in
  (1 <=? R)%nat
  && has_shape2 R R (k_x self) && has_shape2 R R (k_y self)
  && has_shape3 (length (mus self)) R R (E self)
  && has_shape2 R R (dE_dx (dEs self)) && has_shape2 R R (ddE_dxx (dEs self))
  && has_shape2 R R (dE_dy (dEs self)) && has_shape2 R R (ddE_dyy (dEs self))
  && has_shape2 R R (ddE_dxdy (dEs self))
  && (1 <=? length (A self))%nat
  && has_shape3 (length (A self)) R R (A self).

End Class.

End Model.

(** ** The two readings of the numeric operations *)

(** *** Real numbers *)

Definition R_leb (x y : R) : bool := if Rle_dec x y then true else false.
Definition R_eqb (x y : R) : bool := if Req_dec_T x y then true else false.

(** Rounding to the nearest integer, ties to the even one, as Python's
    [round] does. *)
Definition round_half_even (y : R) : Z :=
  let f := Zfloor y in
  if Rlt_dec (y - IZR f) (1 / 2) then f
  else if Rlt_dec (1 / 2) (y - IZR f) then (f + 1)%Z
  else if Z.even f then f else (f + 1)%Z.

Definition R_round2 (x : R) : R := (IZR (round_half_even (x * 100)) / 100)%R.

#[global] Instance R_scalar : Scalar R := {|
  of_Z := IZR;
  dec := fun m k => (IZR m / 10 ^ k)%R;
  add := Rplus;
  sub := Rminus;
  mul := Rmult;
  div := Rdiv;
  neg := Ropp;
  absf := Rabs;
  cosf := cos;
  sinf := sin;
  expf := exp;
  pi := PI;
  e_charge := (1602176634 / 10 ^ 28)%R;
  leb := R_leb;
  eqb := R_eqb;
  round2 := R_round2;
  ceil := Zceil
|}.

(** *** IEEE-754 binary64 *)

(** The functions of the C library and of Python that the kernel's floats
    do not provide. *)
Record Libm : Type := {
  libm_cos : float -> float;
  libm_sin : float -> float;
  libm_exp : float -> float;
  libm_round2 : float -> float;
  libm_ceil : float -> Z
}.

(** A Python [int] as a float; exact below [2^53]. *)
Definition F_of_Z (z : Z) : float :=
  match z with
  | Z0 => 0%float
  | Zpos _ => PrimFloat.of_uint63 (Uint63.of_Z z)
  | Zneg p => PrimFloat.opp (PrimFloat.of_uint63 (Uint63.of_Z (Zpos p)))
  end.

(** A decimal literal: the quotient of two exactly represented integers
    is rounded once, to the double nearest to the decimal. *)
Definition F_dec (m : Z) (k : nat) : float :=
  PrimFloat.div (F_of_Z m) (F_of_Z (10 ^ Z.of_nat k)).

(** [scipy.constants.pi] is [math.pi]; [scipy.constants.e] is the double
    nearest to 1.602176634e-19. *)
Definition F_pi : float := 0x1.921fb54442d18p+1%float.
Definition F_e_charge : float := 0x1.7a4da290c1653p-63%float.

Definition F_scalar (libm : Libm) : Scalar float := {|
  of_Z := F_of_Z;
  dec := F_dec;
  add := PrimFloat.add;
  sub := PrimFloat.sub;
  mul := PrimFloat.mul;
  div := PrimFloat.div;
  neg := PrimFloat.opp;
  absf := PrimFloat.abs;
  cosf := libm_cos libm;
  sinf := libm_sin libm;
  expf := libm_exp libm;
  pi := F_pi;
  e_charge := F_e_charge;
  leb := PrimFloat.leb;
  eqb := PrimFloat.eqb;
  round2 := libm_round2 libm;
  ceil := libm_ceil libm
|}.

(** *** The extended precision of [get_density]

    [get_density] converts the energies to [numpy.float128], which on
    x86-64 is the 80-bit extended format: 64 bits of precision and
    exponents up to 16384.  Its values are the [spec_float] of the
    specification of the kernel's floats, and its operations those of that
    specification at this precision, rounding to nearest, ties to even. *)

Module Float128.

Definition prec : Z := 64.
Definition emax : Z := 16384.

(** [astype("float128")], and the promotion of a Python [float] that meets
    a [float128]: every binary64 value is a value of the extended format. *)
Definition of_float (x : float) : spec_float :=
  match Prim2SF x with
  | S754_finite s m e => binary_round prec emax s m e
  | y => y
  end.

(** A Python [int] or an integral literal such as [2.0]. *)
Definition of_Z (z : Z) : spec_float := binary_normalize prec emax z 0 false.

Definition add : spec_float -> spec_float -> spec_float := SFadd prec emax.
Definition mul : spec_float -> spec_float -> spec_float := SFmul prec emax.
Definition div : spec_float -> spec_float -> spec_float := SFdiv prec emax.

(** [a.sum()] on a two-dimensional array.  numpy adds the entries
    pairwise; the order is immaterial where every partial sum is exact. *)
Definition sum (a : list (list spec_float)) : spec_float :=
  fold_left add (concat a) (S754_zero false).

End Float128.

(** The occupation [2.0 / (1.0 + exp(beta * E.astype("float128")))] as the
    code computes it, [expl] being the exponential of the C library at the
    extended precision. *)
Definition occupation_float128 (expl : spec_float -> spec_float) (x : float)
  : spec_float :=
  Float128.div (Float128.of_Z 2)
    (Float128.add (Float128.of_Z 1)
       (expl (Float128.mul (Float128.of_Z 100) (Float128.of_float x)))).

(** [get_density] as the code computes it on an instance whose attributes
    are binary64: the occupations and their sum at the extended precision,
    and the product of the sum by [norm], a Python [float]. *)
Definition get_density_float128 (expl : spec_float -> spec_float)
    (self : Model.t (T:=float)) : list spec_float :=
  let fermi_dirac := map (map (map (occupation_float128 expl))) (Model.E self) in
  map (fun func =>
         Float128.mul (Float128.of_float (Model.norm self)) (Float128.sum func))
      fermi_dirac.

(** ** Formulas of the specification, over the real numbers *)

Section SpecFormulas.
Local Open Scope R_scope.

(** The band energy at zero chemical potential, as the specification
    writes it. *)
Definition E0 (t tp tpp kx ky : R) : R :=
  - 2 * t * (cos kx + cos ky)
  - 2 * tp * (cos (kx + ky) + cos (kx - ky))
  - 2 * tpp * (cos (2 * kx) + cos (2 * ky)).

(** The imaginary part of [1 / (a + i b)]. *)
Definition Im_inv (a b : R) : R := - b / (a * a + b * b).

(** [-(1/pi) * Im(1 / (omega + i eta - e))]. *)
Definition lorentzian (omega eta e : R) : R :=
  - (1 / PI) * Im_inv (omega - e) eta.

(** The momentum of index [i] on an axis of [dim] samples. *)
Definition k_axis (dim i : nat) : R := at1 (buffer dim) i.

(** The mask of the code: the points with [|kx| + |ky| <= pi]. *)
Definition arc_mask (filter : bool) (dim i j : nat) : R :=
  if filter then
    if Rle_dec (Rabs (k_axis dim i) + Rabs (k_axis dim j)) PI then 1 else 0
  else 1.

(** The mask with both sides rounded to two decimals, and the mask that
    compares with [pi] rounded to two decimals. *)
Definition arc_mask_rounded (dim i j : nat) : R :=
  if Rle_dec (R_round2 (Rabs (k_axis dim i) + Rabs (k_axis dim j))) (R_round2 PI)
  then 1 else 0.

Definition arc_mask_pi_rounded (dim i j : nat) : R :=
  if Rle_dec (Rabs (k_axis dim i) + Rabs (k_axis dim j)) (R_round2 PI)
  then 1 else 0.

(** The outline of the diamond: [round(|kx| + |ky|, 2) == round(pi, 2)]. *)
Definition outline_mask (dim i j : nat) : R :=
  if Req_dec_T (R_round2 (Rabs (k_axis dim i) + Rabs (k_axis dim j))) (R_round2 PI)
  then 1 else 0.

(** The elementary charge, in coulomb. *)
Definition elementary_charge : R := 1602176634 / 10 ^ 28.

(** Finite sums [f 0 + ... + f (n - 1)]. *)
Fixpoint Rsum (n : nat) (f : nat -> R) : R :=
  match n with
  | O => 0
  | S k => Rsum k f + f k
  end.

End SpecFormulas.

(** ** Example inputs *)

Section Examples.
Context {T : Type} {ST : Scalar T}.

(** The chemical potentials of the reference-data branch. *)
Definition peters_mus : arr1 T :=
  [dec (-13) 1; dec (-10) 1; dec (-75) 2; dec (-4) 1; dec 0 1].

(** An instance on a single grid point, with one slice of spectral
    weight [a]. *)
Definition point_model (a : T) : Model.t (T:=T) :=
  Model.mk (of_Z 0) false (of_Z 1) (of_Z 1) (of_Z 1, of_Z 0, of_Z 0)
    [of_Z 0] [[of_Z 0]] [[of_Z 0]] [[[of_Z 0]]]
    (mk_dEs [[of_Z 1]] [[of_Z 3]] [[of_Z 2]] [[of_Z 4]] [[of_Z 5]])
    [[[a]]] None.

(** The band energy [get_energies] returns at [kx = ky = 0] for the
    hoppings (1.0, -0.3, 0.2) and the chemical potential 0.0. *)
Definition origin_energy : T :=
  get3 (fst (get_energies (dec 10 1, dec (-3) 1, dec 2 1)
               [[of_Z 0]] [[of_Z 0]] [dec 0 1])) 0 0 0.

End Examples.

(** A stand-in for the library functions, exact at the arguments the
    examples use ([cos 0 = 1], [sin 0 = 0], [exp 0 = 1]). *)
Definition constant_libm : Libm := {|
  libm_cos := fun _ => 1%float;
  libm_sin := fun _ => 0%float;
  libm_exp := fun _ => 1%float;
  libm_round2 := fun x => x;
  libm_ceil := fun _ => 1%Z
|}.

(** ** The claims of the specification that the code does not meet, as
    they are stated *)

Section ClaimsAsStated.
Local Open Scope R_scope.

(** The specification's reading of [get_spectral_weight] with the filter
    set, for a given mask: on every stack of square energy surfaces, every
    entry of the result is the mask times the broadening formula. *)
Definition filtered_by (mask : nat -> nat -> nat -> R) : Prop :=
  forall (omega eta : R) (E : arr3 R) (M dim : nat),
    0 < eta -> (1 <= M)%nat -> has_shape3 M dim dim E = true ->
    exists W line,
      get_spectral_weight omega eta E true = Ok (W, line) /\
      forall m i j, (m < M)%nat -> (i < dim)%nat -> (j < dim)%nat ->
        get3 W m i j = mask dim i j * lorentzian omega eta (get3 E m i j).


(** The specification's reading of the monotonicity of the density: on
    an increasing sweep, a later chemical potential has a density that is
    not larger. *)
Definition density_non_increasing : Prop :=
  forall (arcs : Model.fermi_arcs) (hoppings : hops_t (T:=R))
         (broadening omega : R) (mus3 : R * R * R) (resolution : Z)
         (use_peters use_filter : bool) (m : Model.t),
    Model.__init__ arcs hoppings broadening omega mus3 resolution
                   use_peters use_filter = Ok m ->
    (forall i j, (i < j < length (Model.mus m))%nat ->
       at1 (Model.mus m) i < at1 (Model.mus m) j) ->
    forall i j, (i < j < length (Model.mus m))%nat ->
      at1 (Model.get_density m) j <= at1 (Model.get_density m) i.

(** The specification's reading in binary64: the energy at the origin is
    the double nearest to -3.6, whenever [cos 0.0] is [1.0]. *)
Definition origin_energy_is_minus_3_6 : Prop :=
  forall libm : Libm,
    libm_cos libm 0%float = 1%float ->
    origin_energy (ST:=F_scalar libm) = F_dec (-36) 1.

(** The specification's reading of the singular region of the Hall
    number, in binary64: on a well-formed instance, the entry of a slice
    whose sigma_xy is within [tol] of zero is an infinity or NaN. *)
Definition singular_near_zero (tol : float) : Prop :=
  forall (libm : Libm) (m : Model.t (T:=float)) (n_H : arr1 float) (k : nat),
    Model.wf m = true ->
    Model.get_hall_nb (ST:=F_scalar libm) m = Ok n_H ->
    (k < length (Model.A m))%nat ->
    PrimFloat.leb
      (PrimFloat.abs (nth k (Model.sigma_ij (ST:=F_scalar libm) m) 0%float)) tol
    = true ->
    is_nan (nth k n_H 0%float) || is_infinity (nth k n_H 0%float) = true.

(** The specification's reading of the bound on the density, in the
    arithmetic of the code: whenever the ceiling of 1.0 is 1 and the
    exponential underflows to zero at -10^8, no density of an instance that
    [__init__] returns is larger than 2. *)
Definition density_at_most_2 : Prop :=
  forall (libm : Libm) (expl : spec_float -> spec_float),
    libm_ceil libm 1%float = 1%Z ->
    expl (Float128.of_Z (-100000000)) = S754_zero false ->
    forall (arcs : Model.fermi_arcs) (hoppings : hops_t (T:=float))
           (broadening omega : float) (mus3 : float * float * float)
           (resolution : Z) (use_peters use_filter : bool) (m : Model.t (T:=float)),
      Model.__init__ (ST:=F_scalar libm) arcs hoppings broadening omega mus3
                     resolution use_peters use_filter = Ok m ->
      forall d, In d (get_density_float128 expl m) ->
        SFleb d (Float128.of_Z 2) = true.

End ClaimsAsStated.

(** ** [nqft/functions.py] and the other entries of [dEs] *)

Section Functions.
Context {T : Type} {ST : Scalar T}.
Local Open Scope num_scope.

(** The entries of [dEs['ddE_dxx']], [dEs['dE_dy']], [dEs['ddE_dyy']] and
    [dEs['ddE_dxdy']] at a grid point [(x, y)]. *)
Definition ddE_dxx_at (hops : hops_t (T:=T)) (x y : T) : T :=
  let '(t, tp, tpp) := hops in
  of_Z 2 * (t * cosf x + tp * (cosf (x - y) + cosf (x + y))
            + of_Z 4 * tpp * cosf (of_Z 2 * x)).

Definition dE_dy_at (hops : hops_t (T:=T)) (x y : T) : T :=
  let '(t, tp, tpp) := hops in
  of_Z 2 * (t * sinf y + tp * (sinf (x + y) - sinf (x - y))
            + of_Z 2 * tpp * sinf (of_Z 2 * y)).

Definition ddE_dyy_at (hops : hops_t (T:=T)) (x y : T) : T :=
  let '(t, tp, tpp) := hops in
  of_Z 2 * (t * cosf y + tp * (cosf (x + y) + cosf (x - y))
            + of_Z 4 * tpp * cosf (of_Z 2 * y)).

Definition ddE_dxdy_at (hops : hops_t (T:=T)) (x y : T) : T :=
  let '(t, tp, tpp) := hops in
  of_Z 2 * tp * (cosf (x + y) - cosf (x - y)).

(** [delta]: the Kronecker delta, as a float. *)
Definition delta (j k : Z) : T := if (j =? k)%Z then of_Z 1 else of_Z 0.

(** [a.argmin()] on a one-dimensional array: the first index of a least
    entry; [ValueError] on an empty array. *)
Fixpoint argmin_from (best_i : nat) (best : T) (i : nat) (l : list T) : nat :=
  match l with
  | [] => best_i
  | x :: l' =>
      if best <=? x then argmin_from best_i best (S i) l'
      else argmin_from i x (S i) l'
  end.

Definition argmin (a : arr1 T) : result nat :=
  match a with
  | [] => Raise ValueError
  | x :: l => Ok (argmin_from 0 x 1 l)
  end.

(** [find_nearest], on a one-dimensional array. *)
Definition find_nearest (array : arr1 T) (value : T) : result nat :=
  argmin (map (fun x => absf (x - value)) array).

(** [s.split(sep)] for a separator of one character: the pieces between
    the occurrences of [sep], at least one. *)
Fixpoint str_split (sep : Ascii.ascii) (s : string) : list string :=
  match s with
  | EmptyString => [EmptyString]
  | String c s' =>
      if Ascii.eqb c sep then EmptyString :: str_split sep s'
      else match str_split sep s' with
           | p :: ps => String c p :: ps
           | [] => [String c EmptyString]
           end
  end.

(** [c in s], for a character [c]. *)
Fixpoint has_char (c : Ascii.ascii) (s : string) : bool :=
  match s with
  | EmptyString => false
  | String a s' => Ascii.eqb a c || has_char c s'
  end.

(** [file.split("_")[-1].split(".")[0]]: the label of a data file. *)
Definition label (file : string) : string :=
  hd EmptyString (str_split "."%char (last (str_split "_"%char file) EmptyString)).

(** Assignment [d[key] = value] in a Python dictionary: the value of a
    key that is present is replaced where it stands, a new key goes last. *)
Fixpoint dict_set {V : Type} (key : string) (value : V) (d : list (string * V))
  : list (string * V) :=
  match d with
  | [] => [(key, value)]
  | (k, v) :: d' =>
      if String.eqb k key then (k, value) :: d'
      else (k, v) :: dict_set key value d'
  end.

Fixpoint dict_get {V : Type} (key : string) (d : list (string * V)) : option V :=
  match d with
  | [] => None
  | (k, v) :: d' => if String.eqb k key then Some v else dict_get key d'
  end.

(** [read_fermi_arc]: [files] is what [glob.glob] returns for the data
    directory and [load] what [np.load] reads from a file. *)
Definition read_fermi_arc (files : list string) (load : string -> arr2 T)
  : Model.fermi_arcs :=
  fold_left (fun arcs file => dict_set (label file) (load file) arcs) files [].

(** [np.ravel] of a two-dimensional array: its rows one after the other. *)
Definition ravel (a : arr2 T) : arr1 T := concat a.

(** [flatten_fermi_arc]: the files it saves, as (name, content), in the
    order of the calls to [np.save]. *)
Definition flatten_fermi_arc (files : list string) (load : string -> arr2 T)
    (save_path : string) : list (string * arr1 T) :=
  map (fun '(ext, array) =>
         ((save_path ++ "Akw_" ++ ext ++ ".npy")%string, ravel array))
      (read_fermi_arc files load).

(** [fit_lin]: a linear function, elementwise. *)
Definition fit_lin (x : arr1 T) (a b : T) : arr1 T := map (fun xi => a * xi + b) x.

End Functions.

Ltac r_unfold :=
  cbn [of_Z dec add sub mul div neg absf cosf sinf expf pi e_charge
       leb eqb round2 ceil R_scalar] in *.

(** ** Facts on results *)

Lemma Ok_inj {A : Type} (a b : A) : Ok a = Ok b -> a = b.
Proof. intros H. now injection H. Qed.

(** ** Facts on arrays, at every reading *)

Section ArrayFacts.
Context {T : Type} {ST : Scalar T}.

Lemma map2_length {A B C : Type} (f : A -> B -> C) (xs : list A) (ys : list B) :
  length (map2 f xs ys) = Nat.min (length xs) (length ys).
Proof.
  revert ys; induction xs as [|x xs IH]; intros [|y ys]; simpl; auto.
Qed.

Lemma map2_nth {A B C : Type} (f : A -> B -> C) (xs : list A) (ys : list B)
    (i : nat) (d : C) (da : A) (db : B) :
  (i < length xs)%nat -> (i < length ys)%nat ->
  nth i (map2 f xs ys) d = f (nth i xs da) (nth i ys db).
Proof.
  revert ys i; induction xs as [|x xs IH]; intros [|y ys] [|i]; simpl;
    intros Hx Hy; try lia; auto.
  apply IH; lia.
Qed.

Lemma map_nth_in {A B : Type} (f : A -> B) (xs : list A) (i : nat) (d : B) (da : A) :
  (i < length xs)%nat -> nth i (map f xs) d = f (nth i xs da).
Proof.
  intros Hi. rewrite (nth_indep _ d (f da)) by (rewrite length_map; exact Hi).
  apply map_nth.
Qed.

Lemma has_shape2_length (r c : nat) (a : arr2 T) :
  has_shape2 r c a = true -> length a = r.
Proof.
  unfold has_shape2. intros H. apply andb_prop in H. destruct H as [H _].
  now apply Nat.eqb_eq.
Qed.

Lemma has_shape2_row (r c : nat) (a : arr2 T) (i : nat) :
  has_shape2 r c a = true -> (i < r)%nat -> length (nth i a []) = c.
Proof.
  unfold has_shape2. intros H Hi. apply andb_prop in H. destruct H as [Hl Hr].
  apply Nat.eqb_eq in Hl. rewrite forallb_forall in Hr.
  apply Nat.eqb_eq. apply Hr. apply nth_In. lia.
Qed.

Lemma has_shape2_intro (r c : nat) (a : arr2 T) :
  length a = r -> (forall row, In row a -> length row = c) ->
  has_shape2 r c a = true.
Proof.
  intros Hl Hr. unfold has_shape2. apply andb_true_intro. split.
  - now apply Nat.eqb_eq.
  - apply forallb_forall. intros row Hin. apply Nat.eqb_eq. now apply Hr.
Qed.

Lemma has_shape3_length (m r c : nat) (a : arr3 T) :
  has_shape3 m r c a = true -> length a = m.
Proof.
  unfold has_shape3. intros H. apply andb_prop in H. destruct H as [H _].
  now apply Nat.eqb_eq.
Qed.

Lemma has_shape3_slice (m r c : nat) (a : arr3 T) (k : nat) :
  has_shape3 m r c a = true -> (k < m)%nat -> has_shape2 r c (nth k a []) = true.
Proof.
  unfold has_shape3. intros H Hk. apply andb_prop in H. destruct H as [Hl Hs].
  apply Nat.eqb_eq in Hl. rewrite forallb_forall in Hs.
  apply Hs. apply nth_In. lia.
Qed.

Lemma has_shape3_intro (m r c : nat) (a : arr3 T) :
  length a = m -> (forall s, In s a -> has_shape2 r c s = true) ->
  has_shape3 m r c a = true.
Proof.
  intros Hl Hs. unfold has_shape3. apply andb_true_intro. split.
  - now apply Nat.eqb_eq.
  - apply forallb_forall. exact Hs.
Qed.

Lemma In_map2 {A B C : Type} (f : A -> B -> C) (xs : list A) (ys : list B) (z : C) :
  In z (map2 f xs ys) -> exists x y, In x xs /\ In y ys /\ z = f x y.
Proof.
  revert ys; induction xs as [|x xs IH]; intros [|y ys]; simpl; try tauto.
  intros [H | H].
  - exists x, y. auto.
  - destruct (IH _ H) as (x' & y' & Hx & Hy & Hz). exists x', y'. auto.
Qed.

Lemma has_shape2_In (r c : nat) (a : arr2 T) (row : list T) :
  has_shape2 r c a = true -> In row a -> length row = c.
Proof.
  unfold has_shape2. intros H Hin. apply andb_prop in H. destruct H as [_ Hr].
  rewrite forallb_forall in Hr. apply Nat.eqb_eq. now apply Hr.
Qed.

Lemma ew2_shape (f : T -> T -> T) (r c : nat) (a b : arr2 T) :
  has_shape2 r c a = true -> has_shape2 r c b = true ->
  has_shape2 r c (ew2 f a b) = true.
Proof.
  intros Ha Hb. apply has_shape2_intro.
  - unfold ew2. rewrite map2_length.
    rewrite (has_shape2_length _ _ _ Ha), (has_shape2_length _ _ _ Hb). lia.
  - intros row Hin. unfold ew2 in Hin.
    apply In_map2 in Hin. destruct Hin as (x & y & Hx & Hy & ->).
    rewrite map2_length.
    rewrite (has_shape2_In _ _ _ _ Ha Hx), (has_shape2_In _ _ _ _ Hb Hy). lia.
Qed.

Lemma ew2_get2 (f : T -> T -> T) (r c : nat) (a b : arr2 T) (i j : nat) :
  has_shape2 r c a = true -> has_shape2 r c b = true ->
  (i < r)%nat -> (j < c)%nat ->
  get2 (ew2 f a b) i j = f (get2 a i j) (get2 b i j).
Proof.
  intros Ha Hb Hi Hj. unfold get2, ew2.
  rewrite (map2_nth _ _ _ _ [] [] []) by
    (rewrite ?(has_shape2_length _ _ _ Ha), ?(has_shape2_length _ _ _ Hb); lia).
  apply map2_nth.
  - now rewrite (has_shape2_row _ _ _ _ Ha Hi).
  - now rewrite (has_shape2_row _ _ _ _ Hb Hi).
Qed.

Lemma ew1_shape (f : T -> T) (r c : nat) (a : arr2 T) :
  has_shape2 r c a = true -> has_shape2 r c (ew1 f a) = true.
Proof.
  intros Ha. apply has_shape2_intro.
  - unfold ew1. rewrite length_map. now apply has_shape2_length in Ha.
  - intros row Hin. unfold ew1 in Hin. apply in_map_iff in Hin.
    destruct Hin as (x & <- & Hx). rewrite length_map.
    apply (has_shape2_In _ _ _ _ Ha Hx).
Qed.

Lemma ew1_get2 (f : T -> T) (r c : nat) (a : arr2 T) (i j : nat) :
  has_shape2 r c a = true -> (i < r)%nat -> (j < c)%nat ->
  get2 (ew1 f a) i j = f (get2 a i j).
Proof.
  intros Ha Hi Hj. unfold get2, ew1.
  rewrite (map_nth_in _ _ _ _ []) by (rewrite (has_shape2_length _ _ _ Ha); lia).
  apply map_nth_in. now rewrite (has_shape2_row _ _ _ _ Ha Hi).
Qed.

Lemma fill_shape (dim : nat) (f : nat -> nat -> T) :
  has_shape2 dim dim (fill dim f) = true.
Proof.
  apply has_shape2_intro.
  - unfold fill. now rewrite length_map, length_seq.
  - intros row Hin. unfold fill in Hin. apply in_map_iff in Hin.
    destruct Hin as (i & <- & _). now rewrite length_map, length_seq.
Qed.

Lemma fill_get2 (dim : nat) (f : nat -> nat -> T) (i j : nat) :
  (i < dim)%nat -> (j < dim)%nat -> get2 (fill dim f) i j = f i j.
Proof.
  intros Hi Hj. unfold get2, fill.
  rewrite (map_nth_in _ _ _ _ 0%nat) by (now rewrite length_seq).
  rewrite (map_nth_in _ _ _ _ 0%nat) by (now rewrite length_seq).
  now rewrite !seq_nth.
Qed.

Lemma linspace_length (start stop : T) (num : nat) :
  length (linspace start stop num) = num.
Proof.
  destruct num as [|[|n]]; simpl; auto.
  rewrite length_app, length_map, length_seq. simpl. lia.
Qed.

Lemma meshgrid_shape (x y : arr1 T) :
  has_shape2 (length y) (length x) (fst (meshgrid x y)) = true /\
  has_shape2 (length y) (length x) (snd (meshgrid x y)) = true.
Proof.
  split; apply has_shape2_intro; simpl.
  - now rewrite length_map.
  - intros row Hin. apply in_map_iff in Hin. now destruct Hin as (? & <- & _).
  - now rewrite length_map.
  - intros row Hin. apply in_map_iff in Hin. destruct Hin as (? & <- & _).
    now rewrite length_map.
Qed.

Lemma meshgrid_get2 (x y : arr1 T) (i j : nat) :
  (i < length y)%nat -> (j < length x)%nat ->
  get2 (fst (meshgrid x y)) i j = at1 x j /\
  get2 (snd (meshgrid x y)) i j = at1 y i.
Proof.
  intros Hi Hj. unfold get2, at1. simpl. split.
  - now rewrite (map_nth_in _ _ _ _ (of_Z 0)).
  - rewrite (map_nth_in _ _ _ _ (of_Z 0)) by exact Hi.
    now rewrite (map_nth_in _ _ _ _ (of_Z 0)).
Qed.

End ArrayFacts.

(** ** Entries and shapes of what [get_energies] returns *)

Section DispersionFacts.
Context {T : Type} {ST : Scalar T}.
Local Open Scope num_scope.

Variables (hops : hops_t (T:=T)) (kx ky : arr2 T) (mus : arr1 T).
Variables (r c : nat).
Hypothesis Hkx : has_shape2 r c kx = true.
Hypothesis Hky : has_shape2 r c ky = true.

Lemma get_energies_E_length :
  length (fst (get_energies hops kx ky mus)) = length mus.
Proof.
  destruct hops as [[t tp] tpp]. simpl. now rewrite length_map.
Qed.

Lemma get_energies_E_shape :
  has_shape3 (length mus) r c (fst (get_energies hops kx ky mus)) = true.
Proof.
  apply has_shape3_intro.
  - apply get_energies_E_length.
  - destruct hops as [[t tp] tpp]. simpl. intros s Hin.
    apply in_map_iff in Hin. destruct Hin as (mu & <- & _).
    apply ew1_shape. repeat apply ew2_shape; assumption.
Qed.

Lemma get_energies_E_get3 (m i j : nat) :
  (m < length mus)%nat -> (i < r)%nat -> (j < c)%nat ->
  get3 (fst (get_energies hops kx ky mus)) m i j
  = energy_at hops (get2 kx i j) (get2 ky i j) (at1 mus m).
Proof.
  intros Hm Hi Hj. destruct hops as [[t tp] tpp]. unfold get3, energy_at. simpl.
  rewrite (map_nth_in _ _ _ _ (of_Z 0)) by exact Hm.
  rewrite (ew1_get2 _ r c) by (repeat apply ew2_shape; assumption).
  rewrite (ew2_get2 _ r c) by (repeat apply ew2_shape; assumption).
  rewrite (ew2_get2 _ r c) by (repeat apply ew2_shape; assumption).
  now rewrite !(ew2_get2 _ r c) by assumption.
Qed.

Lemma get_energies_dE_dx_get2 (i j : nat) :
  (i < r)%nat -> (j < c)%nat ->
  get2 (dE_dx (snd (get_energies hops kx ky mus))) i j
  = dE_dx_at hops (get2 kx i j) (get2 ky i j).
Proof.
  intros Hi Hj. destruct hops as [[t tp] tpp]. unfold dE_dx_at. simpl.
  now rewrite (ew2_get2 _ r c) by assumption.
Qed.

Lemma get_energies_dEs_shape :
  let d := snd (get_energies hops kx ky mus) in
  has_shape2 r c (dE_dx d) = true /\ has_shape2 r c (ddE_dxx d) = true /\
  has_shape2 r c (dE_dy d) = true /\ has_shape2 r c (ddE_dyy d) = true /\
  has_shape2 r c (ddE_dxdy d) = true.
Proof.
  destruct hops as [[t tp] tpp]. simpl.
  repeat split; apply ew2_shape; assumption.
Qed.

End DispersionFacts.

(** ** The dispersion over the real numbers *)

Section RealDispersion.
Local Open Scope R_scope.

Lemma energy_at_E0 (t tp tpp x y mu : R) :
  energy_at (t, tp, tpp) x y mu = E0 t tp tpp x y - mu.
Proof. unfold energy_at, E0. r_unfold. lra. Qed.

Lemma derivable_pt_lim_cos_affine (a b x : R) :
  derivable_pt_lim (fun u => cos (a * u + b)) x (- a * sin (a * x + b)).
Proof.
  assert (Hin : derivable_pt_lim (fun u => a * u + b) x a).
  { apply (derivable_pt_lim_ext (plus_fct (mult_real_fct a id) (fct_cte b))).
    - intros z. reflexivity.
    - replace a with (a * 1 + 0) at 2 by ring.
      apply derivable_pt_lim_plus.
      + apply derivable_pt_lim_scal, derivable_pt_lim_id.
      + apply derivable_pt_lim_const. }
  replace (- a * sin (a * x + b)) with (- sin (a * x + b) * a) by ring.
  apply (derivable_pt_lim_comp (fun u => a * u + b) cos x a _ Hin).
  apply derivable_pt_lim_cos.
Qed.

Lemma E0_derivable_x (t tp tpp x y : R) :
  derivable_pt_lim (fun u => E0 t tp tpp u y) x (dE_dx_at (t, tp, tpp) x y).
Proof.
  unfold dE_dx_at. r_unfold.
  pose (f1 := fun u : R => cos (1 * u + 0)).
  pose (f2 := fun u : R => cos (1 * u + y)).
  pose (f3 := fun u : R => cos (1 * u + - y)).
  pose (f4 := fun u : R => cos (2 * u + 0)).
  apply (derivable_pt_lim_ext
    (fun u => (- 2 * t) * f1 u + (- 2 * tp) * f2 u + (- 2 * tp) * f3 u
              + (- 2 * tpp) * f4 u
              + (- 2 * t * cos y - 2 * tpp * cos (2 * y)))).
  - intros z. unfold E0, f1, f2, f3, f4.
    replace (1 * z + 0) with z by ring.
    replace (1 * z + y) with (z + y) by ring.
    replace (1 * z + - y) with (z - y) by ring.
    replace (2 * z + 0) with (2 * z) by ring. ring.
  - replace (2 * (t * sin x + tp * (sin (x - y) + sin (x + y)) + 2 * tpp * sin (2 * x)))
      with ((- 2 * t) * (- 1 * sin (1 * x + 0))
            + (- 2 * tp) * (- 1 * sin (1 * x + y))
            + (- 2 * tp) * (- 1 * sin (1 * x + - y))
            + (- 2 * tpp) * (- (2) * sin (2 * x + 0)) + 0).
    2:{ replace (1 * x + 0) with x by ring.
        replace (1 * x + y) with (x + y) by ring.
        replace (1 * x + - y) with (x - y) by ring.
        replace (2 * x + 0) with (2 * x) by ring. ring. }
    apply (derivable_pt_lim_plus _ (fct_cte _)); [| apply derivable_pt_lim_const].
    repeat apply derivable_pt_lim_plus;
      apply derivable_pt_lim_scal; apply derivable_pt_lim_cos_affine.
Qed.

Lemma sin_cubic_lower (u : R) : 0 <= u -> u - u ^ 3 / 6 <= sin u.
Proof.
  intros Hu. destruct (Rle_dec u 4) as [H4 | H4].
  - destruct (pre_sin_bound u 0 Hu H4) as [Hlo _].
    unfold sin_approx, sin_term in Hlo. simpl in Hlo.
    unfold Rdiv in *. simpl. lra.
  - pose proof (SIN_bound u) as [Hs _].
    assert (4 < u) by lra.
    assert (16 < u * u) by nra.
    assert (u * 16 < u * (u * u)) by (apply Rmult_lt_compat_l; lra).
    simpl. lra.
Qed.

(** [|sin u - u| <= |u|^3 / 6]. *)
Lemma sin_minus_id (u : R) : Rabs (sin u - u) <= Rabs u ^ 3 / 6.
Proof.
  destruct (Rle_dec 0 u) as [Hu | Hu].
  - rewrite (Rabs_pos_eq u) by assumption.
    pose proof (sin_cubic_lower u Hu).
    assert (sin u <= u).
    { destruct Hu as [Hu | <-]; [left; now apply sin_lt_x | rewrite sin_0; lra]. }
    rewrite Rabs_left1 by lra. lra.
  - assert (Hu' : 0 <= - u) by lra.
    rewrite (Rabs_left u) by lra.
    pose proof (sin_cubic_lower (- u) Hu') as Hl. rewrite sin_neg in Hl.
    assert (- sin u <= - u).
    { rewrite <- sin_neg. left. apply sin_lt_x. lra. }
    rewrite Rabs_pos_eq by lra. lra.
Qed.

Lemma cos_diff (a h : R) : cos (a + h) - cos (a - h) = - 2 * sin a * sin h.
Proof. rewrite cos_plus, cos_minus. ring. Qed.

Lemma centered_difference (t tp tpp x y h : R) :
  h <> 0 ->
  (E0 t tp tpp (x + h) y - E0 t tp tpp (x - h) y) / (2 * h) - dE_dx_at (t, tp, tpp) x y
  = (2 * t * sin x + 2 * tp * (sin (x - y) + sin (x + y))) * ((sin h - h) / h)
    + 4 * tpp * sin (2 * x) * ((sin (2 * h) - 2 * h) / (2 * h)).
Proof.
  intros Hh. unfold E0, dE_dx_at. r_unfold.
  replace (x + h + y) with ((x + y) + h) by ring.
  replace (x - h + y) with ((x + y) - h) by ring.
  replace (x + h - y) with ((x - y) + h) by ring.
  replace (x - h - y) with ((x - y) - h) by ring.
  replace (2 * (x + h)) with (2 * x + 2 * h) by ring.
  replace (2 * (x - h)) with (2 * x - 2 * h) by ring.
  pose proof (cos_diff x h) as H1.
  pose proof (cos_diff (x + y) h) as H2.
  pose proof (cos_diff (x - y) h) as H3.
  pose proof (cos_diff (2 * x) (2 * h)) as H4.
  set (c1 := cos (x + h)) in *. set (c1' := cos (x - h)) in *.
  set (c2 := cos (x + y + h)) in *. set (c2' := cos (x + y - h)) in *.
  set (c3 := cos (x - y + h)) in *. set (c3' := cos (x - y - h)) in *.
  set (c4 := cos (2 * x + 2 * h)) in *. set (c4' := cos (2 * x - 2 * h)) in *.
  replace c1 with (c1' + - 2 * sin x * sin h) by lra.
  replace c2 with (c2' + - 2 * sin (x + y) * sin h) by lra.
  replace c3 with (c3' + - 2 * sin (x - y) * sin h) by lra.
  replace c4 with (c4' + - 2 * sin (2 * x) * sin (2 * h)) by lra.
  field. exact Hh.
Qed.

Lemma sinc_bound (u : R) : u <> 0 -> Rabs ((sin u - u) / u) <= u ^ 2 / 6.
Proof.
  intros Hu. unfold Rdiv at 1. rewrite Rabs_mult, Rabs_inv.
  pose proof (sin_minus_id u) as H. pose proof (Rabs_pos_lt u Hu) as Hp.
  apply (Rmult_le_reg_r (Rabs u)); [exact Hp |].
  rewrite Rmult_assoc, Rinv_l by lra. rewrite Rmult_1_r.
  replace (u ^ 2 / 6 * Rabs u) with (Rabs u ^ 3 / 6); [exact H |].
  assert (Haa : Rabs u * Rabs u = u * u).
  { rewrite <- Rabs_mult. apply Rabs_pos_eq. nra. }
  simpl. rewrite !Rmult_1_r, <- Haa. unfold Rdiv. ring.
Qed.

(** The centred difference of [E0] in [kx] is within
    [(|t| + 2|t'| + 8|t''|) / 3 * h^2] of [dE_dx]. *)
Lemma centered_difference_error (t tp tpp x y h : R) :
  h <> 0 ->
  Rabs ((E0 t tp tpp (x + h) y - E0 t tp tpp (x - h) y) / (2 * h) - dE_dx_at (t, tp, tpp) x y)
  <= (Rabs t + 2 * Rabs tp + 8 * Rabs tpp) / 3 * h ^ 2.
Proof.
  intros Hh. rewrite centered_difference by assumption.
  assert (H2h : 2 * h <> 0) by lra.
  pose proof (sinc_bound h Hh) as B1. pose proof (sinc_bound (2 * h) H2h) as B2.
  pose proof (SIN_bound x) as Sx. pose proof (SIN_bound (x - y)) as Sm.
  pose proof (SIN_bound (x + y)) as Sp. pose proof (SIN_bound (2 * x)) as S2.
  set (s1 := (sin h - h) / h) in *. set (s2 := (sin (2 * h) - 2 * h) / (2 * h)) in *.
  eapply Rle_trans; [apply Rabs_triang |].
  rewrite !Rabs_mult.
  assert (Rabs (sin (2 * x)) <= 1) by (apply Rabs_le; lra).
  assert (Rabs (2 * t * sin x + 2 * tp * (sin (x - y) + sin (x + y)))
          <= 2 * Rabs t + 4 * Rabs tp).
  { eapply Rle_trans; [apply Rabs_triang |]. rewrite !Rabs_mult.
    rewrite (Rabs_pos_eq 2) by lra.
    assert (Rabs (sin x) <= 1) by (apply Rabs_le; lra).
    assert (Rabs (sin (x - y) + sin (x + y)) <= 2) by (apply Rabs_le; lra).
    pose proof (Rabs_pos t). pose proof (Rabs_pos tp). nra. }
  rewrite (Rabs_pos_eq 4) by lra.
  pose proof (Rabs_pos tpp). pose proof (Rabs_pos t). pose proof (Rabs_pos tp).
  pose proof (Rabs_pos s1). pose proof (Rabs_pos s2).
  pose proof (Rabs_pos (sin (2 * x))).
  pose proof (Rabs_pos (2 * t * sin x + 2 * tp * (sin (x - y) + sin (x + y)))).
  assert (h ^ 2 = h * h) by ring. assert ((2 * h) ^ 2 = 4 * (h * h)) by ring.
  assert (0 <= h * h) by nra.
  assert (Rabs (2 * t * sin x + 2 * tp * (sin (x - y) + sin (x + y))) * Rabs s1
          <= (2 * Rabs t + 4 * Rabs tp) * (h * h / 6)).
  { apply Rmult_le_compat; lra. }
  assert (4 * Rabs tpp * Rabs (sin (2 * x)) * Rabs s2
          <= 4 * Rabs tpp * 1 * (4 * (h * h) / 6)).
  { apply Rmult_le_compat; try lra; nra. }
  lra.
Qed.

End RealDispersion.

(** ** Entries and shapes of what [get_spectral_weight] returns *)

Section SpectralFacts.
Context {T : Type} {ST : Scalar T}.
Local Open Scope num_scope.

Lemma map3_map3 {A B C : Type} (f : B -> C) (g : A -> B) (a : list (list (list A))) :
  map (map (map f)) (map (map (map g)) a) = map (map (map (fun x => f (g x)))) a.
Proof.
  rewrite map_map. apply map_ext. intros s.
  rewrite map_map. apply map_ext. intros row. apply map_map.
Qed.

Lemma ew3_shape (f : T -> T) (m r c : nat) (a : arr3 T) :
  has_shape3 m r c a = true -> has_shape3 m r c (Model.ew3 f a) = true.
Proof.
  intros Ha. apply has_shape3_intro.
  - unfold Model.ew3. rewrite length_map. now apply has_shape3_length in Ha.
  - intros s Hin. unfold Model.ew3 in Hin. apply in_map_iff in Hin.
    destruct Hin as (s0 & <- & Hs0). apply ew1_shape.
    unfold has_shape3 in Ha. apply andb_prop in Ha. destruct Ha as [_ Ha].
    rewrite forallb_forall in Ha. now apply Ha.
Qed.

Lemma ew3_get3 (f : T -> T) (m r c : nat) (a : arr3 T) (k i j : nat) :
  has_shape3 m r c a = true -> (k < m)%nat -> (i < r)%nat -> (j < c)%nat ->
  get3 (Model.ew3 f a) k i j = f (get3 a k i j).
Proof.
  intros Ha Hk Hi Hj. unfold get3, Model.ew3.
  rewrite (map_nth_in _ _ _ _ []) by (rewrite (has_shape3_length _ _ _ _ Ha); lia).
  apply (ew1_get2 _ r c); auto. now apply (has_shape3_slice m).
Qed.

Lemma broadcast_mul_shape (m r c : nat) (d : arr2 T) (a : arr3 T) :
  has_shape2 r c d = true -> has_shape3 m r c a = true ->
  has_shape3 m r c (Model.broadcast_mul d a) = true.
Proof.
  intros Hd Ha. apply has_shape3_intro.
  - unfold Model.broadcast_mul. rewrite length_map. now apply has_shape3_length in Ha.
  - intros s Hin. unfold Model.broadcast_mul in Hin. apply in_map_iff in Hin.
    destruct Hin as (s0 & <- & Hs0). apply ew2_shape; auto.
    unfold has_shape3 in Ha. apply andb_prop in Ha. destruct Ha as [_ Ha].
    rewrite forallb_forall in Ha. now apply Ha.
Qed.

Lemma broadcast_mul_get3 (m r c : nat) (d : arr2 T) (a : arr3 T)
    (k i j : nat) :
  has_shape2 r c d = true -> has_shape3 m r c a = true ->
  (k < m)%nat -> (i < r)%nat -> (j < c)%nat ->
  get3 (Model.broadcast_mul d a) k i j = get2 d i j * get3 a k i j.
Proof.
  intros Hd Ha Hk Hi Hj. unfold get3, Model.broadcast_mul.
  rewrite (map_nth_in _ _ _ _ []) by (rewrite (has_shape3_length _ _ _ _ Ha); lia).
  apply (ew2_get2 _ r c); auto. now apply (has_shape3_slice m).
Qed.

Lemma diag_filter_shape (filter : bool) (dim : nat) :
  has_shape2 dim dim (diag_filter filter dim) = true.
Proof. destruct filter; apply fill_shape. Qed.

(** The weights [get_spectral_weight] returns on a stack of [M >= 1]
    square energy surfaces. *)
Lemma get_spectral_weight_ok (omega eta : T) (E : arr3 T) (filter : bool)
    (M dim : nat) :
  (1 <= M)%nat -> has_shape3 M dim dim E = true ->
  get_spectral_weight omega eta E filter
  = Ok (Model.broadcast_mul (diag_filter filter dim)
          (Model.ew3 (fun e => imag (green omega eta e)) E),
        diag_line dim).
Proof.
  intros HM HE. destruct E as [|E0 E'].
  - apply has_shape3_length in HE. simpl in HE. lia.
  - assert (Hdim : length E0 = dim).
    { apply (has_shape2_length dim dim).
      apply (has_shape3_slice M dim dim (E0 :: E') 0 HE). lia. }
    unfold get_spectral_weight. rewrite Hdim. rewrite map3_map3. reflexivity.
Qed.

Lemma get_spectral_weight_empty (omega eta : T) (filter : bool) :
  get_spectral_weight omega eta [] filter = Raise IndexError.
Proof. reflexivity. Qed.

End SpectralFacts.

(** ** The spectral weight over the real numbers *)

Section RealSpectral.
Local Open Scope R_scope.

Lemma PI_bounds : 3.1415 < PI < 3.1417.
Proof.
  split.
  - pose proof (PI_2_3_7_ineq 1) as [H _].
    unfold sum_f_R0, tg_alt, PI_2_3_7_tg, Ratan_seq in H.
    simpl in H. lra.
  - pose proof (PI_2_3_7_ineq 2) as [_ H].
    unfold sum_f_R0, tg_alt, PI_2_3_7_tg, Ratan_seq in H.
    simpl in H. lra.
Qed.

Lemma R_leb_true (x y : R) : R_leb x y = true <-> x <= y.
Proof. unfold R_leb. destruct (Rle_dec x y); split; auto; discriminate. Qed.

Lemma R_eqb_true (x y : R) : R_eqb x y = true <-> x = y.
Proof. unfold R_eqb. destruct (Req_dec_T x y); split; auto; discriminate. Qed.

(** [c_div] is the division of complex numbers. *)
Lemma c_div_correct (z w : complex (T:=R)) :
  fst w * fst w + snd w * snd w <> 0 -> c_mul (c_div z w) w = z.
Proof.
  destruct z as [a b], w as [c d]. unfold c_mul, c_div. r_unfold. simpl.
  intros H. f_equal; field; exact H.
Qed.

Lemma c_div_one_imag (a b : R) :
  imag (c_div (c_real 1) (a, b)) = Im_inv a b.
Proof.
  unfold imag, c_div, c_real, Im_inv. r_unfold. simpl.
  unfold Rdiv. ring.
Qed.

Lemma green_imag (omega eta e : R) :
  imag (green omega eta e) = lorentzian omega eta e.
Proof.
  unfold green, lorentzian, Im_inv, imag, c_mul, c_div, c_sub, c_add, c_real, c_j.
  r_unfold. simpl. unfold Rdiv.
  replace (omega + (eta * 0 - 0 * 1) - e) with (omega - e) by ring.
  replace (0 + (eta * 1 + 0 * 0) - 0) with eta by ring.
  ring.
Qed.

Lemma lorentzian_closed (omega eta e : R) :
  0 < eta ->
  lorentzian omega eta e = eta / (PI * ((omega - e) * (omega - e) + eta * eta)).
Proof.
  intros Heta. unfold lorentzian, Im_inv.
  assert (HPI : PI <> 0) by apply PI_neq0.
  assert (Hd : (omega - e) * (omega - e) + eta * eta <> 0).
  { pose proof (Rle_0_sqr (omega - e)) as Hs. unfold Rsqr in Hs.
    pose proof (Rmult_lt_0_compat _ _ Heta Heta). lra. }
  field. split; assumption.
Qed.

Lemma diag_filter_get2 (filter : bool) (dim i j : nat) :
  (i < dim)%nat -> (j < dim)%nat ->
  get2 (diag_filter (T:=R) filter dim) i j = arc_mask filter dim i j.
Proof.
  intros Hi Hj. unfold diag_filter, arc_mask, k_axis. destruct filter.
  - rewrite fill_get2 by assumption. r_unfold. unfold R_leb.
    destruct (Rle_dec _ _); reflexivity.
  - rewrite fill_get2 by assumption. reflexivity.
Qed.

Lemma diag_line_get2 (dim i j : nat) :
  (i < dim)%nat -> (j < dim)%nat ->
  get2 (diag_line (T:=R) dim) i j = outline_mask dim i j.
Proof.
  intros Hi Hj. unfold diag_line, outline_mask, k_axis.
  rewrite fill_get2 by assumption. r_unfold. unfold R_eqb.
  destruct (Req_dec_T _ _); reflexivity.
Qed.

Lemma round_half_even_near (z : Z) (y : R) :
  IZR z - 1 / 2 < y < IZR z + 1 / 2 -> round_half_even y = z.
Proof.
  intros [Hlo Hhi]. unfold round_half_even.
  destruct (Rle_dec (IZR z) y) as [Hge | Hlt].
  - rewrite (Zfloor_eq z y) by lra.
    destruct (Rlt_dec (y - IZR z) (1 / 2)); [reflexivity | lra].
  - assert (Hf : Zfloor y = (z - 1)%Z).
    { apply Zfloor_eq. rewrite minus_IZR. lra. }
    rewrite Hf, minus_IZR.
    destruct (Rlt_dec (y - (IZR z - 1)) (1 / 2)); [lra |].
    destruct (Rlt_dec (1 / 2) (y - (IZR z - 1))); [lia | lra].
Qed.

Lemma R_round2_near (z : Z) (x : R) :
  IZR z - 1 / 2 < x * 100 < IZR z + 1 / 2 -> R_round2 x = IZR z / 100.
Proof. intros H. unfold R_round2. now rewrite (round_half_even_near z). Qed.

Lemma R_round2_PI : R_round2 PI = 314 / 100.
Proof. apply R_round2_near. pose proof PI_bounds. lra. Qed.

Lemma linspace_at1_first (start stop : R) (num : nat) :
  (1 <= num)%nat -> at1 (linspace start stop num) 0 = start.
Proof.
  intros H. destruct num as [|[|n]]; [lia | reflexivity |].
  unfold at1. cbn [linspace]. rewrite app_nth1 by (rewrite length_map, length_seq; lia).
  rewrite (map_nth_in _ _ _ _ 0%nat) by (rewrite length_seq; lia).
  rewrite seq_nth by lia. r_unfold. simpl. lra.
Qed.

(** Over the reals the samples of [linspace] are evenly spaced, the last
    one included. *)
Lemma linspace_at1 (start stop : R) (n i : nat) :
  (i <= S n)%nat ->
  at1 (linspace start stop (S (S n))) i
  = start + INR i * ((stop - start) / INR (S n)).
Proof.
  intros Hi. unfold at1. cbn [linspace].
  destruct (Nat.eq_dec i (S n)) as [-> | Hne].
  - rewrite app_nth2 by (rewrite length_map, length_seq; lia).
    rewrite length_map, length_seq, Nat.sub_diag. cbn [nth].
    field. apply not_0_INR. lia.
  - rewrite app_nth1 by (rewrite length_map, length_seq; lia).
    rewrite (map_nth_in _ _ _ _ 0%nat) by (rewrite length_seq; lia).
    rewrite seq_nth by lia. r_unfold. rewrite <- !INR_IZR_INZ. reflexivity.
Qed.

End RealSpectral.

(** ** Statements on [get_spectral_weight] *)

Section SpectralClaims.
Local Open Scope R_scope.

Lemma spectral_weight_entries (omega eta : R) (E : arr3 R) (filter : bool)
    (M dim : nat) :
  (1 <= M)%nat -> has_shape3 M dim dim E = true ->
  exists W,
    get_spectral_weight omega eta E filter = Ok (W, diag_line dim) /\
    has_shape3 M dim dim W = true /\
    forall m i j, (m < M)%nat -> (i < dim)%nat -> (j < dim)%nat ->
      get3 W m i j = arc_mask filter dim i j * lorentzian omega eta (get3 E m i j).
Proof.
  intros HM HE. eexists. split; [apply (get_spectral_weight_ok _ _ _ _ M dim HM HE) |].
  split.
  - apply broadcast_mul_shape; [apply diag_filter_shape | now apply ew3_shape].
  - intros m i j Hm Hi Hj.
    rewrite (broadcast_mul_get3 M dim dim) by
      (auto using diag_filter_shape, ew3_shape).
    rewrite (ew3_get3 _ M dim dim) by assumption.
    rewrite diag_filter_get2 by assumption. r_unfold.
    now rewrite green_imag.
Qed.

Lemma lorentzian_pos (omega eta e : R) : 0 < eta -> 0 < lorentzian omega eta e.
Proof.
  intros Heta. rewrite lorentzian_closed by assumption.
  pose proof PI_RGT_0 as HPI.
  pose proof (Rle_0_sqr (omega - e)) as Hs. unfold Rsqr in Hs.
  pose proof (Rmult_lt_0_compat _ _ Heta Heta).
  apply Rdiv_lt_0_compat; [assumption |].
  apply Rmult_lt_0_compat; lra.
Qed.

Lemma k_axis_3_0 : k_axis 3 0 = - PI.
Proof. unfold k_axis, buffer. rewrite linspace_at1_first by lia. reflexivity. Qed.

Lemma k_axis_3_1 : k_axis 3 1 = 0.
Proof.
  unfold k_axis, buffer. rewrite linspace_at1 by lia. r_unfold. simpl. lra.
Qed.

Lemma k_axis_1000_0 : k_axis 1000 0 = - PI.
Proof. unfold k_axis, buffer. rewrite linspace_at1_first by lia. reflexivity. Qed.

Lemma k_axis_1000_500 : k_axis 1000 500 = PI / 999.
Proof.
  unfold k_axis, buffer.
  change 1000%nat with (S (S 998)). rewrite linspace_at1 by lia. r_unfold.
  rewrite !INR_IZR_INZ. change (Z.of_nat 500) with 500%Z.
  change (Z.of_nat (S 998)) with 999%Z. field.
Qed.


Lemma arc_mask_1000_0_500 : arc_mask true 1000 0 500 = 0.
Proof.
  unfold arc_mask. rewrite k_axis_1000_0, k_axis_1000_500.
  pose proof PI_bounds as HPI.
  rewrite Rabs_Ropp, !Rabs_pos_eq by lra.
  destruct (Rle_dec _ _) as [H | H]; [lra | reflexivity].
Qed.

Lemma arc_mask_rounded_1000_0_500 : arc_mask_rounded 1000 0 500 = 1.
Proof.
  unfold arc_mask_rounded. rewrite k_axis_1000_0, k_axis_1000_500.
  pose proof PI_bounds as HPI.
  rewrite Rabs_Ropp, !Rabs_pos_eq by lra.
  rewrite R_round2_PI, (R_round2_near 314) by lra.
  destruct (Rle_dec _ _) as [H | H]; [reflexivity | lra].
Qed.

Lemma arc_mask_3_0_1 : arc_mask true 3 0 1 = 1.
Proof.
  unfold arc_mask. rewrite k_axis_3_0, k_axis_3_1.
  pose proof PI_bounds as HPI.
  rewrite Rabs_Ropp, Rabs_R0, Rabs_pos_eq by lra.
  destruct (Rle_dec _ _) as [H | H]; [reflexivity | lra].
Qed.

Lemma arc_mask_pi_rounded_3_0_1 : arc_mask_pi_rounded 3 0 1 = 0.
Proof.
  unfold arc_mask_pi_rounded. rewrite k_axis_3_0, k_axis_3_1.
  pose proof PI_bounds as HPI.
  rewrite Rabs_Ropp, Rabs_R0, Rabs_pos_eq by lra.
  rewrite R_round2_PI.
  destruct (Rle_dec _ _) as [H | H]; [lra | reflexivity].
Qed.


(** C3, as stated, fails.  With a 1000 x 1000 surface of zeros, omega = 0
    and eta = 0.1, the point of indices (0, 500) has
    |kx| + |ky| = pi + pi/999 = 3.1447...: the code compares it with pi and
    masks the entry, while both sides rounded to two decimals are 3.14.
    With a 3 x 3 surface, the point of indices (0, 1) has |kx| + |ky| = pi:
    the code keeps the entry, while pi > 3.14. *)
Lemma filter_mask_is_not_rounded :
  ~ filtered_by arc_mask_rounded /\ ~ filtered_by arc_mask_pi_rounded.
Proof.
  split; intros H.
  - destruct (H 0 (1 / 10) [repeat (repeat 0 1000%nat) 1000%nat] 1%nat 1000%nat)
      as (W & line & Hgw & Hent); [lra | lia | vm_compute; reflexivity |].
    destruct (spectral_weight_entries 0 (1 / 10)
                [repeat (repeat 0 1000%nat) 1000%nat] true 1 1000)
      as (W' & Hgw' & _ & Hent'); [lia | vm_compute; reflexivity |].
    rewrite Hgw' in Hgw. injection Hgw as <- _.
    specialize (Hent 0%nat 0%nat 500%nat). specialize (Hent' 0%nat 0%nat 500%nat).
    rewrite Hent' in Hent by lia.
    rewrite arc_mask_1000_0_500, arc_mask_rounded_1000_0_500 in Hent.
    pose proof (lorentzian_pos 0 (1 / 10)
                  (get3 [repeat (repeat 0 1000%nat) 1000%nat] 0 0 500)) as Hp.
    specialize (Hent ltac:(lia) ltac:(lia) ltac:(lia)). lra.
  - destruct (H 0 (1 / 10) [repeat (repeat 0 3%nat) 3%nat] 1%nat 3%nat)
      as (W & line & Hgw & Hent); [lra | lia | reflexivity |].
    destruct (spectral_weight_entries 0 (1 / 10)
                [repeat (repeat 0 3%nat) 3%nat] true 1 3)
      as (W' & Hgw' & _ & Hent'); [lia | reflexivity |].
    rewrite Hgw' in Hgw. injection Hgw as <- _.
    specialize (Hent 0%nat 0%nat 1%nat). specialize (Hent' 0%nat 0%nat 1%nat).
    rewrite Hent' in Hent by lia.
    rewrite arc_mask_3_0_1, arc_mask_pi_rounded_3_0_1 in Hent.
    pose proof (lorentzian_pos 0 (1 / 10)
                  (get3 [repeat (repeat 0 3%nat) 3%nat] 0 0 1)) as Hp.
    specialize (Hent ltac:(lia) ltac:(lia) ltac:(lia)). lra.
Qed.

Lemma k_axis_7 (i : nat) :
  (i <= 6)%nat -> k_axis 7 i = - PI + INR i * (PI / 3).
Proof.
  intros Hi. unfold k_axis, buffer.
  change 7%nat with (S (S 5)). rewrite linspace_at1 by lia. r_unfold.
  rewrite (INR_IZR_INZ 6). change (Z.of_nat 6) with 6%Z. field.
Qed.

(** On the 7 x 7 grid the points of indices (1, 2) and (2, 1) lie on the
    edge of the diamond: |kx| + |ky| = 2 pi / 3 + pi / 3 = pi. *)
Lemma arc_mask_7_edge : arc_mask true 7 1 2 = 1 /\ arc_mask true 7 2 1 = 1.
Proof.
  unfold arc_mask. rewrite !k_axis_7 by lia.
  pose proof PI_bounds as HPI. simpl INR.
  replace (- PI + 1 * (PI / 3)) with (- (2 * PI / 3)) by field.
  replace (- PI + (1 + 1) * (PI / 3)) with (- (PI / 3)) by field.
  rewrite !Rabs_Ropp, !Rabs_pos_eq by lra.
  split; destruct (Rle_dec _ _) as [H | H]; try reflexivity; lra.
Qed.

(** In binary64 the two sums are 3.1415926535897936, the double next
    above [pi]: the comparison fails and the two points are masked. *)
Lemma diag_filter_7_edge_binary64 (libm : Libm) :
  get2 (ST:=F_scalar libm) (diag_filter (ST:=F_scalar libm) true 7) 1 2 = 0%float /\
  get2 (ST:=F_scalar libm) (diag_filter (ST:=F_scalar libm) true 7) 2 1 = 0%float.
Proof. split; vm_compute; reflexivity. Qed.

(** C3, amended: on a stack of square energy surfaces and for eta > 0,
    [get_spectral_weight] returns, entry by entry and slice by slice, in
    exact arithmetic
    -(1/pi) Im(1/(omega + i eta - E)) = eta / (pi ((omega - E)^2 + eta^2)),
    multiplied when the filter is set by the mask that is 1 where
    |kx| + |ky| <= pi and 0 elsewhere.  At every reading of the arithmetic
    the mask is decided by the comparison
    [abs(buffer[i]) + abs(buffer[j]) <= pi] on the sums as the program
    computes them, with no rounding to two decimals; in binary64 these sums
    are rounded, so that a grid point lying exactly on the edge can be
    masked: on the 7 x 7 grid the points of indices (1, 2) and (2, 1)
    are. *)
Theorem get_spectral_weight_filtered (omega eta : R) (E : arr3 R) (filter : bool)
    (M dim : nat) :
  0 < eta -> (1 <= M)%nat -> has_shape3 M dim dim E = true ->
  (exists W line,
     get_spectral_weight omega eta E filter = Ok (W, line) /\
     has_shape3 M dim dim W = true /\
     forall m i j, (m < M)%nat -> (i < dim)%nat -> (j < dim)%nat ->
       get3 W m i j
       = arc_mask filter dim i j * lorentzian omega eta (get3 E m i j) /\
       lorentzian omega eta (get3 E m i j)
       = eta / (PI * ((omega - get3 E m i j) * (omega - get3 E m i j) + eta * eta))) /\
  (forall (T : Type) (ST : Scalar T) (i j : nat),
     (i < dim)%nat -> (j < dim)%nat ->
     get2 (diag_filter (T:=T) true dim) i j
     = if (absf (at1 (buffer dim) i) + absf (at1 (buffer dim) j) <=? pi)%num
       then of_Z 1 else of_Z 0) /\
  (forall libm : Libm,
     get2 (ST:=F_scalar libm) (diag_filter (ST:=F_scalar libm) true 7) 1 2 = 0%float /\
     get2 (ST:=F_scalar libm) (diag_filter (ST:=F_scalar libm) true 7) 2 1 = 0%float) /\
  arc_mask true 7 1 2 = 1 /\ arc_mask true 7 2 1 = 1.
Proof.
  intros Heta HM HE. split; [| split; [| split]].
  - destruct (spectral_weight_entries omega eta E filter M dim HM HE)
      as (W & Hgw & Hsh & Hent).
    exists W, (diag_line dim). repeat split; auto.
    now apply lorentzian_closed.
  - intros T ST i j Hi Hj. unfold diag_filter. now rewrite fill_get2.
  - apply diag_filter_7_edge_binary64.
  - apply arc_mask_7_edge.
Qed.

Lemma get_spectral_weight_filtered_witness :
  (exists W line,
     get_spectral_weight 0 1 [[[0]]] true = Ok (W, line) /\
     has_shape3 1 1 1 W = true /\
     forall m i j, (m < 1)%nat -> (i < 1)%nat -> (j < 1)%nat ->
       get3 W m i j
       = arc_mask true 1 i j * lorentzian 0 1 (get3 [[[0]]] m i j) /\
       lorentzian 0 1 (get3 [[[0]]] m i j)
       = 1 / (PI * ((0 - get3 [[[0]]] m i j) * (0 - get3 [[[0]]] m i j) + 1 * 1))) /\
  (forall libm : Libm,
     get2 (ST:=F_scalar libm) (diag_filter (ST:=F_scalar libm) true 7) 1 2 = 0%float /\
     get2 (ST:=F_scalar libm) (diag_filter (ST:=F_scalar libm) true 7) 2 1 = 0%float) /\
  arc_mask true 7 1 2 = 1 /\ arc_mask true 7 2 1 = 1.
Proof.
  destruct (get_spectral_weight_filtered 0 1 [[[0]]] true 1 1)
    as (H1 & _ & H3 & H4); [lra | lia | reflexivity |].
  split; [exact H1 |]. split; [exact H3 | exact H4].
Defined.




End SpectralClaims.

(** ** What [__init__] establishes *)

Section ModelFacts.
Context {T : Type} {ST : Scalar T}.
Local Open Scope num_scope.

Ltac proj_simpl :=
  cbn [Model.w Model.use_peters Model.eta Model.norm Model.hops Model.mus
       Model.k_x Model.k_y Model.E Model.dEs Model.A Model.diamond fst snd] in *.

(** The reference-data branch never raises; the energies it stores are
    computed from the argument [hoppings]. *)
Lemma init_peters (arcs : Model.fermi_arcs) (hoppings : hops_t (T:=T))
    (broadening omega : T) (mus3 : T * T * T) (resolution : Z) (use_filter : bool) :
  let k_s := linspace (- pi) pi 200 in
  let k := meshgrid k_s k_s in
  let Ed := get_energies hoppings (fst k) (snd k) peters_mus in
  Model.__init__ arcs hoppings broadening omega mus3 resolution true use_filter
  = Ok (Model.mk omega true (dec 1 1) (of_Z 1 / of_Z (200 ^ 2))
          (dec 10 1, dec (-3) 1, dec 2 1) peters_mus
          (fst k) (snd k) (fst Ed) (snd Ed) (map snd arcs) None).
Proof.
  intros k_s k Ed. unfold Model.__init__.
  fold k_s. change (meshgrid k_s k_s) with k.
  destruct k as [kx ky] eqn:Hk. cbn [fst snd] in Ed.
  fold peters_mus. change (get_energies hoppings kx ky peters_mus) with Ed.
  destruct Ed as [E dEs]. reflexivity.
Qed.

(** The synthetic branch: when it returns, the step is not zero, the
    resolution is positive, the sweep is not empty, and the attributes are
    the following. *)
Lemma init_synthetic (arcs : Model.fermi_arcs) (hoppings : hops_t (T:=T))
    (broadening omega start stop step : T) (resolution : Z) (use_filter : bool)
    (m : Model.t) :
  Model.__init__ arcs hoppings broadening omega (start, stop, step) resolution
                 false use_filter = Ok m ->
  let R := Z.to_nat resolution in
  let mus := arange start stop step in
  let k_s := linspace (- pi) pi R in
  let k := meshgrid k_s k_s in
  let Ed := get_energies hoppings (fst k) (snd k) mus in
  (step =? of_Z 0) = false /\ (0 < resolution)%Z /\ (1 <= length mus)%nat /\
  m = Model.mk omega false broadening (of_Z 1 / of_Z (resolution ^ 2)) hoppings mus
        (fst k) (snd k) (fst Ed) (snd Ed)
        (Model.broadcast_mul (diag_filter use_filter R)
           (Model.ew3 (fun e => imag (green omega broadening e)) (fst Ed)))
        (Some (diag_line R)).
Proof.
  intros Hinit R mus k_s k Ed. unfold Model.__init__ in Hinit.
  unfold Model.arange_py in Hinit.
  destruct (step =? of_Z 0) eqn:Hstep; [discriminate |].
  cbn [bind] in Hinit. fold mus in Hinit.
  unfold Model.inv_square in Hinit.
  destruct (resolution ^ 2 =? 0)%Z eqn:Hres2; [discriminate |].
  cbn [bind] in Hinit. unfold Model.linspace_Z in Hinit.
  destruct (resolution <? 0)%Z eqn:Hneg; [discriminate |].
  cbn [bind] in Hinit. fold R in Hinit. fold k_s in Hinit.
  change (meshgrid k_s k_s) with k in Hinit.
  assert (Hpos : (0 < resolution)%Z).
  { apply Z.ltb_ge in Hneg. apply Z.eqb_neq in Hres2.
    destruct (Z.eq_dec resolution 0) as [-> | Hne]; [now elim Hres2 | lia]. }
  assert (HkR : length k_s = R) by apply linspace_length.
  destruct (meshgrid_shape k_s k_s) as [Hkx Hky]. fold k in Hkx, Hky.
  rewrite HkR in Hkx, Hky.
  destruct k as [kx ky] eqn:Hk. cbn [fst snd] in *.
  change (get_energies hoppings kx ky mus) with Ed in Hinit.
  pose proof (get_energies_E_shape hoppings kx ky mus R R Hkx Hky) as HE.
  fold Ed in HE.
  destruct Ed as [E dEs] eqn:HEd. cbn [fst snd] in *.
  destruct mus as [|mu0 mus'] eqn:Hmus.
  - apply has_shape3_length in HE. destruct E; [| discriminate].
    cbn in Hinit. discriminate.
  - rewrite (get_spectral_weight_ok _ _ _ _ (length (mu0 :: mus')) R) in Hinit
      by (cbn [length]; auto; lia).
    cbn [bind fst snd] in Hinit. injection Hinit as <-.
    repeat split; auto. cbn [length]. lia.
Qed.

(** Conversely, these conditions make the synthetic branch return. *)
Lemma init_synthetic_ok (arcs : Model.fermi_arcs) (hoppings : hops_t (T:=T))
    (broadening omega start stop step : T) (resolution : Z) (use_filter : bool) :
  let R := Z.to_nat resolution in
  let mus := arange start stop step in
  let k_s := linspace (- pi) pi R in
  let k := meshgrid k_s k_s in
  let Ed := get_energies hoppings (fst k) (snd k) mus in
  (step =? of_Z 0) = false -> (0 < resolution)%Z -> (1 <= length mus)%nat ->
  Model.__init__ arcs hoppings broadening omega (start, stop, step) resolution
                 false use_filter
  = Ok (Model.mk omega false broadening (of_Z 1 / of_Z (resolution ^ 2)) hoppings mus
        (fst k) (snd k) (fst Ed) (snd Ed)
        (Model.broadcast_mul (diag_filter use_filter R)
           (Model.ew3 (fun e => imag (green omega broadening e)) (fst Ed)))
        (Some (diag_line R))).
Proof.
  intros R mus k_s k Ed Hstep Hres Hmus. unfold Model.__init__, Model.arange_py.
  rewrite Hstep. cbn [bind]. fold mus. unfold Model.inv_square.
  assert (Hres2 : (resolution ^ 2 =? 0)%Z = false) by (apply Z.eqb_neq; nia).
  rewrite Hres2. cbn [bind]. unfold Model.linspace_Z.
  assert (Hneg : (resolution <? 0)%Z = false) by (apply Z.ltb_ge; lia).
  rewrite Hneg. cbn [bind]. fold R. fold k_s. change (meshgrid k_s k_s) with k.
  assert (HkR : length k_s = R) by apply linspace_length.
  destruct (meshgrid_shape k_s k_s) as [Hkx Hky]. fold k in Hkx, Hky.
  rewrite HkR in Hkx, Hky.
  destruct k as [kx ky] eqn:Hk. cbn [fst snd] in *.
  change (get_energies hoppings kx ky mus) with Ed.
  pose proof (get_energies_E_shape hoppings kx ky mus R R Hkx Hky) as HE.
  fold Ed in HE.
  destruct Ed as [E dEs] eqn:HEd. cbn [fst snd] in *.
  now rewrite (get_spectral_weight_ok _ _ _ _ (length mus) R) by auto.
Qed.

(** The instances the synthetic branch returns have conforming shapes. *)
Lemma init_synthetic_wf (arcs : Model.fermi_arcs) (hoppings : hops_t (T:=T))
    (broadening omega : T) (mus3 : T * T * T) (resolution : Z) (use_filter : bool)
    (m : Model.t) :
  Model.__init__ arcs hoppings broadening omega mus3 resolution false use_filter
  = Ok m ->
  Model.wf m = true.
Proof.
  destruct mus3 as [[start stop] step]. intros Hinit.
  apply init_synthetic in Hinit. cbv zeta in Hinit.
  destruct Hinit as (_ & Hres & Hmus & ->).
  set (R := Z.to_nat resolution) in *.
  set (k_s := linspace (- pi) pi R) in *.
  assert (HkR : length k_s = R) by apply linspace_length.
  destruct (meshgrid_shape k_s k_s) as [Hkx Hky]. rewrite HkR in Hkx, Hky.
  set (k := meshgrid k_s k_s) in *.
  set (mus := arange start stop step) in *.
  pose proof (get_energies_E_shape hoppings (fst k) (snd k) mus R R Hkx Hky) as HE.
  pose proof (get_energies_dEs_shape hoppings (fst k) (snd k) mus R R Hkx Hky) as Hd.
  cbv zeta in Hd. destruct Hd as (Hd1 & Hd2 & Hd3 & Hd4 & Hd5).
  unfold Model.wf. proj_simpl.
  rewrite (has_shape2_length _ _ _ Hkx).
  assert (HA : length (Model.broadcast_mul (diag_filter use_filter R)
                 (Model.ew3 (fun e => imag (green omega broadening e))
                    (fst (get_energies hoppings (fst k) (snd k) mus))))
               = length mus).
  { unfold Model.broadcast_mul, Model.ew3. rewrite !length_map.
    now apply has_shape3_length in HE. }
  rewrite HA, Hkx, Hky, HE, Hd1, Hd2, Hd3, Hd4, Hd5.
  rewrite (broadcast_mul_shape (length mus) R R) by
    (auto using diag_filter_shape, ew3_shape).
  assert (H1 : (1 <=? R)%nat = true) by (apply Nat.leb_le; unfold R; lia).
  assert (H2 : (1 <=? length mus)%nat = true) by (now apply Nat.leb_le).
  now rewrite H1, H2.
Qed.

(** The instances the reference-data branch returns have conforming
    shapes when the data source provides at least one array and all of
    them are 200 x 200. *)
Lemma init_peters_wf (arcs : Model.fermi_arcs) (hoppings : hops_t (T:=T))
    (broadening omega : T) (mus3 : T * T * T) (resolution : Z) (use_filter : bool)
    (m : Model.t) :
  (1 <= length arcs)%nat ->
  has_shape3 (length arcs) 200 200 (map snd arcs) = true ->
  Model.__init__ arcs hoppings broadening omega mus3 resolution true use_filter
  = Ok m ->
  Model.wf m = true.
Proof.
  intros Hne Harcs.
  pose proof (init_peters arcs hoppings broadening omega mus3 resolution use_filter)
    as Hp. cbv zeta in Hp. rewrite Hp. intros Heq. apply Ok_inj in Heq. subst m.
  set (k_s := linspace (- pi) pi 200).
  assert (HkR : length k_s = 200%nat) by apply linspace_length.
  destruct (meshgrid_shape k_s k_s) as [Hkx Hky]. rewrite HkR in Hkx, Hky.
  set (k := meshgrid k_s k_s) in *.
  pose proof (get_energies_E_shape hoppings (fst k) (snd k) peters_mus _ _ Hkx Hky)
    as HE.
  pose proof (get_energies_dEs_shape hoppings (fst k) (snd k) peters_mus _ _ Hkx Hky)
    as Hd.
  cbv zeta in Hd. destruct Hd as (Hd1 & Hd2 & Hd3 & Hd4 & Hd5).
  unfold Model.wf. proj_simpl.
  rewrite (has_shape2_length _ _ _ Hkx).
  rewrite Hkx, Hky, HE, Hd1, Hd2, Hd3, Hd4, Hd5.
  rewrite length_map, Harcs.
  assert (H2 : (1 <=? length arcs)%nat = true) by (now apply Nat.leb_le).
  rewrite H2. reflexivity.
Qed.

End ModelFacts.

(** ** The conductivities and the Hall number, at every reading *)

Section TransportFacts.
Context {T : Type} {ST : Scalar T}.
Local Open Scope num_scope.

Lemma sigma_ii_x (m : Model.t) :
  Model.sigma_ii m "x"
  = Ok (map (fun sig => of_Z 2 * (power (- e_charge) 2 * pi) * sum sig)
          (Model.broadcast_mul (ew1 (fun x => power x 2) (dE_dx (Model.dEs m)))
             (Model.ew3 (fun x => power x 2) (Model.A m)))).
Proof. reflexivity. Qed.

Lemma sigma_ii_y (m : Model.t) :
  Model.sigma_ii m "y"
  = Ok (map (fun sig => of_Z 2 * (power (- e_charge) 2 * pi) * sum sig)
          (Model.broadcast_mul (ew1 (fun x => power x 2) (dE_dy (Model.dEs m)))
             (Model.ew3 (fun x => power x 2) (Model.A m)))).
Proof. reflexivity. Qed.

Lemma sigma_ii_other (m : Model.t) (variable : string) :
  variable <> "x"%string -> variable <> "y"%string ->
  Model.sigma_ii m variable = Raise UnboundLocalError.
Proof.
  intros Hx Hy. unfold Model.sigma_ii.
  apply String.eqb_neq in Hx, Hy. now rewrite Hx, Hy.
Qed.

Lemma sigma_ii_length (m : Model.t) (variable : string) (l : arr1 T) :
  Model.sigma_ii m variable = Ok l -> length l = length (Model.A m).
Proof.
  unfold Model.sigma_ii.
  destruct (String.eqb variable "x"); [| destruct (String.eqb variable "y")];
    cbn [bind]; intros H; try discriminate; injection H as <-;
    unfold Model.broadcast_mul, Model.ew3; now rewrite !length_map.
Qed.

Lemma sigma_ij_length (m : Model.t) :
  length (Model.sigma_ij m) = length (Model.A m).
Proof.
  unfold Model.sigma_ij, Model.broadcast_mul, Model.ew3. now rewrite !length_map.
Qed.

(** [get_hall_nb] raises nothing, and its entries are the quotients
    [norm * s_xx * s_yy / (e * s_xy)]. *)
Lemma get_hall_nb_entries (m : Model.t) :
  exists s_xx s_yy n_H,
    Model.sigma_ii m "x" = Ok s_xx /\ Model.sigma_ii m "y" = Ok s_yy /\
    Model.get_hall_nb m = Ok n_H /\
    length n_H = length (Model.A m) /\
    forall k, (k < length (Model.A m))%nat ->
      at1 n_H k
      = Model.norm m * at1 s_xx k * at1 s_yy k
        / (e_charge * at1 (Model.sigma_ij m) k).
Proof.
  pose proof (sigma_ii_length m "x" _ (sigma_ii_x m)) as Lx.
  pose proof (sigma_ii_length m "y" _ (sigma_ii_y m)) as Ly.
  pose proof (sigma_ij_length m) as Lxy.
  eexists. eexists. eexists.
  split; [apply sigma_ii_x |]. split; [apply sigma_ii_y |].
  split; [reflexivity |]. split.
  - rewrite !map2_length, !length_map. rewrite length_map in Lx, Ly. lia.
  - intros k Hk. unfold at1.
    rewrite (map2_nth _ _ _ _ _ (of_Z 0) (of_Z 0))
      by (rewrite ?map2_length, ?length_map; rewrite length_map in Lx, Ly; lia).
    rewrite (map2_nth _ _ _ _ _ (of_Z 0) (of_Z 0))
      by (rewrite ?length_map; rewrite length_map in Lx, Ly; lia).
    rewrite (map_nth_in _ (map _ _) _ _ (of_Z 0))
      by (rewrite length_map in Lx; rewrite length_map; lia).
    now rewrite (map_nth_in _ (Model.sigma_ij m) _ _ (of_Z 0)) by lia.
Qed.

End TransportFacts.

(** ** Division by zero in binary64 *)

Section Binary64.
Local Open Scope float_scope.

Lemma Prim2SF_zero_of_eqb (z : float) :
  (z =? 0) = true -> exists s, Prim2SF z = S754_zero s.
Proof.
  rewrite eqb_spec. change (Prim2SF 0) with (S754_zero false).
  destruct (Prim2SF z) as [s | s | | s mz ez].
  - intros _. now exists s.
  - destruct s; cbn; discriminate.
  - cbn; discriminate.
  - destruct s; cbn; discriminate.
Qed.

Lemma is_nan_of_SF (x : float) : Prim2SF x = S754_nan -> is_nan x = true.
Proof.
  intros H. unfold is_nan. rewrite eqb_spec, H. reflexivity.
Qed.

Lemma is_infinity_of_SF (x : float) (s : bool) :
  Prim2SF x = S754_infinity s -> is_infinity x = true.
Proof.
  intros H. unfold is_infinity. rewrite eqb_spec, abs_spec, H. reflexivity.
Qed.

(** A quotient by a zero of either sign is an infinity or NaN. *)
Lemma div_by_zero_special (a z : float) :
  (z =? 0) = true -> is_nan (a / z) || is_infinity (a / z) = true.
Proof.
  intros Hz. destruct (Prim2SF_zero_of_eqb z Hz) as [s Hs].
  pose proof (div_spec a z) as Hd. rewrite Hs in Hd.
  destruct (Prim2SF a) as [sa | sa | | sa ma ea] eqn:Ha; cbn in Hd.
  - now rewrite (is_nan_of_SF _ Hd).
  - rewrite (is_infinity_of_SF _ _ Hd). apply orb_true_r.
  - now rewrite (is_nan_of_SF _ Hd).
  - rewrite (is_infinity_of_SF _ _ Hd). apply orb_true_r.
Qed.

(** The product of the elementary charge and a zero is a zero. *)
Lemma e_charge_mul_zero (z : float) :
  (z =? 0) = true -> (F_e_charge * z =? 0) = true.
Proof.
  intros Hz. destruct (Prim2SF_zero_of_eqb z Hz) as [s Hs].
  rewrite eqb_spec, mul_spec, Hs. now destruct s.
Qed.

End Binary64.

(** ** Sums over the real numbers *)

Section RealSums.
Local Open Scope R_scope.

Lemma Rsum_ext (n : nat) (f g : nat -> R) :
  (forall i, (i < n)%nat -> f i = g i) -> Rsum n f = Rsum n g.
Proof.
  induction n as [|n IH]; intros H; simpl; [reflexivity |].
  rewrite IH by (intros i Hi; apply H; lia). now rewrite H by lia.
Qed.

Lemma Rsum_le (n : nat) (f g : nat -> R) :
  (forall i, (i < n)%nat -> f i <= g i) -> Rsum n f <= Rsum n g.
Proof.
  induction n as [|n IH]; intros H; simpl; [lra |].
  assert (Rsum n f <= Rsum n g) by (apply IH; intros i Hi; apply H; lia).
  assert (f n <= g n) by (apply H; lia). lra.
Qed.

Lemma Rsum_const (n : nat) (c : R) : Rsum n (fun _ => c) = INR n * c.
Proof.
  induction n as [|n IH]; [simpl; ring |].
  cbn [Rsum]. rewrite IH, S_INR. ring.
Qed.

Lemma Rsum_scal (n : nat) (c : R) (f : nat -> R) :
  Rsum n (fun i => c * f i) = c * Rsum n f.
Proof.
  induction n as [|n IH]; simpl; [ring |]. rewrite IH. ring.
Qed.

Lemma fold_left_Rplus (l : list R) (acc : R) :
  fold_left Rplus l acc = acc + fold_left Rplus l 0.
Proof.
  revert acc; induction l as [|x l IH]; intros acc; simpl; [ring |].
  rewrite (IH (acc + x)), (IH (0 + x)). ring.
Qed.

Lemma sum1_app (l1 l2 : list R) : sum1 (l1 ++ l2) = sum1 l1 + sum1 l2.
Proof.
  unfold sum1. r_unfold. rewrite fold_left_app. apply fold_left_Rplus.
Qed.

Lemma sum1_Rsum (l : list R) : sum1 l = Rsum (length l) (fun j => nth j l 0).
Proof.
  induction l as [|x l IH] using rev_ind; [reflexivity |].
  rewrite sum1_app, length_app, Nat.add_1_r. cbn [Rsum length].
  rewrite app_nth2, Nat.sub_diag by lia. cbn [nth].
  rewrite IH. unfold sum1. r_unfold. simpl. f_equal; [| ring].
  apply Rsum_ext. intros i Hi. now rewrite app_nth1.
Qed.

Lemma sum_app (a : arr2 R) (row : list R) : sum (a ++ [row]) = sum a + sum1 row.
Proof.
  unfold sum. rewrite concat_app. cbn [concat]. rewrite app_nil_r.
  apply sum1_app.
Qed.

(** [a.sum()] is the double sum of the entries. *)
Lemma sum_Rsum (r c : nat) (a : arr2 R) :
  has_shape2 r c a = true ->
  sum a = Rsum r (fun i => Rsum c (fun j => get2 a i j)).
Proof.
  revert r. induction a as [|row a IH] using rev_ind; intros r Ha.
  - apply has_shape2_length in Ha. subst r. reflexivity.
  - pose proof (has_shape2_length _ _ _ Ha) as Hl.
    rewrite length_app, Nat.add_1_r in Hl. subst r.
    assert (Hrow : length row = c).
    { apply (has_shape2_In _ _ _ _ Ha). apply in_or_app. right. now left. }
    assert (Ha' : has_shape2 (length a) c a = true).
    { apply has_shape2_intro; [reflexivity |].
      intros x Hx. apply (has_shape2_In _ _ _ _ Ha). apply in_or_app. now left. }
    rewrite sum_app. cbn [Rsum]. rewrite (IH _ Ha'). f_equal.
    + apply Rsum_ext. intros i Hi. apply Rsum_ext. intros j Hj.
      unfold get2. now rewrite app_nth1.
    + rewrite sum1_Rsum, Hrow. apply Rsum_ext. intros j Hj.
      unfold get2. rewrite app_nth2, Nat.sub_diag by lia. reflexivity.
Qed.

Lemma power_pow (x : R) (n : nat) : power x n = x ^ n.
Proof. induction n as [|n IH]; [reflexivity |]. cbn [power pow]. now rewrite IH. Qed.

End RealSums.

(** ** What both branches of [__init__] establish *)

Section ModelCommon.
Context {T : Type} {ST : Scalar T}.
Local Open Scope num_scope.

Lemma init_common (arcs : Model.fermi_arcs) (hoppings : hops_t (T:=T))
    (broadening omega : T) (mus3 : T * T * T) (resolution : Z)
    (use_peters use_filter : bool) (m : Model.t) :
  Model.__init__ arcs hoppings broadening omega mus3 resolution use_peters use_filter
  = Ok m ->
  exists R : nat,
    (1 <= R)%nat /\
    Model.norm m = of_Z 1 / of_Z (Z.of_nat R ^ 2) /\
    has_shape2 R R (Model.k_x m) = true /\
    has_shape2 R R (Model.k_y m) = true /\
    Model.E m = fst (get_energies hoppings (Model.k_x m) (Model.k_y m) (Model.mus m)) /\
    Model.dEs m = snd (get_energies hoppings (Model.k_x m) (Model.k_y m) (Model.mus m)).
Proof.
  destruct use_peters.
  - pose proof (init_peters arcs hoppings broadening omega mus3 resolution use_filter)
      as Hp. cbv zeta in Hp. rewrite Hp. intros Heq. apply Ok_inj in Heq. subst m.
    exists 200%nat. cbn [Model.norm Model.k_x Model.k_y Model.E Model.dEs Model.mus].
    set (k_s := linspace (- pi) pi 200).
    assert (HkR : length k_s = 200%nat) by apply linspace_length.
    destruct (meshgrid_shape k_s k_s) as [Hkx Hky]. rewrite HkR in Hkx, Hky.
    split; [apply Nat.lt_0_succ |].
    split; [reflexivity |].
    split; [exact Hkx |]. split; [exact Hky |].
    split; reflexivity.
  - destruct mus3 as [[start stop] step]. intros Hinit.
    apply init_synthetic in Hinit. cbv zeta in Hinit.
    destruct Hinit as (_ & Hres & _ & ->).
    exists (Z.to_nat resolution).
    cbn [Model.norm Model.k_x Model.k_y Model.E Model.dEs Model.mus].
    set (k_s := linspace (- pi) pi (Z.to_nat resolution)).
    assert (HkR : length k_s = Z.to_nat resolution) by apply linspace_length.
    destruct (meshgrid_shape k_s k_s) as [Hkx Hky]. rewrite HkR in Hkx, Hky.
    rewrite Z2Nat.id by lia.
    split; [lia |].
    split; [reflexivity |].
    split; [exact Hkx |]. split; [exact Hky |].
    split; reflexivity.
Qed.

End ModelCommon.

(** ** The density over the real numbers *)

Section RealDensity.
Local Open Scope R_scope.

Lemma occupation_R (x : R) : Model.occupation x = 2 / (1 + exp (100 * x)).
Proof. reflexivity. Qed.

Lemma occupation_bounds (x : R) : 0 < Model.occupation x < 2.
Proof.
  rewrite occupation_R. pose proof (exp_pos (100 * x)) as He.
  split.
  - apply Rdiv_lt_0_compat; lra.
  - apply (Rmult_lt_reg_r (1 + exp (100 * x))); [lra |].
    unfold Rdiv. rewrite Rmult_assoc, Rinv_l by lra. lra.
Qed.

Lemma exp_le (x y : R) : x <= y -> exp x <= exp y.
Proof.
  intros [H | ->]; [left; now apply exp_increasing | right; reflexivity].
Qed.

(** The occupation decreases with the energy. *)
Lemma occupation_decreasing (x y : R) :
  x <= y -> Model.occupation y <= Model.occupation x.
Proof.
  intros Hxy. rewrite !occupation_R.
  pose proof (exp_pos (100 * x)) as Hx. pose proof (exp_pos (100 * y)) as Hy.
  assert (He : exp (100 * x) <= exp (100 * y)) by (apply exp_le; lra).
  unfold Rdiv. apply Rmult_le_compat_l; [lra |].
  apply Rinv_le_contravar; lra.
Qed.

Lemma get_density_length (m : Model.t (T:=R)) :
  length (Model.get_density m) = length (Model.E m).
Proof. unfold Model.get_density, Model.ew3. now rewrite !length_map. Qed.

(** An entry of [get_density]: [norm] times the double sum of the
    occupations. *)
Lemma get_density_entry (m : Model.t (T:=R)) (M n k : nat) :
  has_shape3 M n n (Model.E m) = true -> (k < M)%nat ->
  at1 (Model.get_density m) k
  = Model.norm m
    * Rsum n (fun i => Rsum n (fun j => Model.occupation (get3 (Model.E m) k i j))).
Proof.
  intros HE Hk. unfold at1, Model.get_density.
  pose proof (ew3_shape Model.occupation _ _ _ _ HE) as HF.
  rewrite (map_nth_in _ _ _ _ []) by (rewrite (has_shape3_length _ _ _ _ HF); lia).
  r_unfold. f_equal.
  rewrite (sum_Rsum n n) by (now apply (has_shape3_slice M)).
  apply Rsum_ext. intros i Hi. apply Rsum_ext. intros j Hj.
  now apply (ew3_get3 _ M n n).
Qed.

Lemma Rsum2_bounds (n : nat) (f : nat -> nat -> R) (lo hi : R) :
  (forall i j, (i < n)%nat -> (j < n)%nat -> lo <= f i j <= hi) ->
  INR n * (INR n * lo) <= Rsum n (fun i => Rsum n (fun j => f i j))
  <= INR n * (INR n * hi).
Proof.
  intros H. rewrite <- !Rsum_const. split.
  - apply Rsum_le. intros i Hi. apply Rsum_le. intros j Hj. now apply H.
  - apply Rsum_le. intros i Hi. apply Rsum_le. intros j Hj. now apply H.
Qed.

End RealDensity.

(** ** Statements on [get_density] *)

Section DensityClaims.
Local Open Scope R_scope.

Lemma norm_R (n : nat) :
  (1 <= n)%nat ->
  of_Z (T:=R) 1 / of_Z (Z.of_nat n ^ 2) = 1 / (INR n * INR n).
Proof.
  intros Hn. r_unfold. change 2%Z with (Z.of_nat 2).
  rewrite <- pow_IZR, <- INR_IZR_INZ. simpl. now rewrite Rmult_1_r.
Qed.

(** What [__init__] establishes for the density, over the reals. *)
Lemma init_density (arcs : Model.fermi_arcs) (hoppings : hops_t (T:=R))
    (broadening omega : R) (mus3 : R * R * R) (resolution : Z)
    (use_peters use_filter : bool) (m : Model.t) :
  Model.__init__ arcs hoppings broadening omega mus3 resolution
                 use_peters use_filter = Ok m ->
  exists n : nat,
    (1 <= n)%nat /\
    Model.norm m = 1 / (INR n * INR n) /\
    has_shape3 (length (Model.mus m)) n n (Model.E m) = true /\
    forall k i j, (k < length (Model.mus m))%nat -> (i < n)%nat -> (j < n)%nat ->
      get3 (Model.E m) k i j
      = energy_at hoppings (get2 (Model.k_x m) i j) (get2 (Model.k_y m) i j)
          (at1 (Model.mus m) k).
Proof.
  intros Hinit. destruct (init_common _ _ _ _ _ _ _ _ _ Hinit)
    as (n & Hn & Hnorm & Hkx & Hky & HE & _).
  exists n. split; [exact Hn |]. split; [now rewrite Hnorm, norm_R |].
  rewrite HE. split.
  - now apply get_energies_E_shape.
  - intros k i j Hk Hi Hj. now apply (get_energies_E_get3 _ _ _ _ n n).
Qed.

Lemma density_in_0_2 (m : Model.t (T:=R)) (n k : nat) :
  (1 <= n)%nat -> Model.norm m = 1 / (INR n * INR n) ->
  has_shape3 (length (Model.mus m)) n n (Model.E m) = true ->
  (k < length (Model.mus m))%nat ->
  0 <= at1 (Model.get_density m) k <= 2.
Proof.
  intros Hn Hnorm HE Hk.
  rewrite (get_density_entry m _ n k HE Hk), Hnorm.
  assert (HR : 0 < INR n) by (apply lt_0_INR; lia).
  pose proof (Rsum2_bounds n
    (fun i j => Model.occupation (get3 (Model.E m) k i j)) 0 2) as [Hlo Hhi].
  { intros i j _ _. pose proof (occupation_bounds (get3 (Model.E m) k i j)). lra. }
  set (S := Rsum n _) in *.
  assert (Hnn : 0 < INR n * INR n) by (now apply Rmult_lt_0_compat).
  split.
  - apply Rmult_le_pos; [| lra]. apply Rlt_le. apply Rdiv_lt_0_compat; lra.
  - apply (Rmult_le_reg_l (INR n * INR n)); [exact Hnn |].
    replace (INR n * INR n * (1 / (INR n * INR n) * S)) with S by (field; lra).
    lra.
Qed.

(** The synthetic branch on a grid of 5 x 5 points, with no hopping and
    the sweep [arange(1000000, 1000001, 1)]: the 25 energies are -1000000
    (with no hopping the energy is minus the chemical potential whatever
    finite values the cosine takes) and [norm] is the double nearest to
    1 / 25. *)
Lemma init_flat_band :
  exists m : Model.t (T:=float),
    Model.__init__ (ST:=F_scalar constant_libm) [] (0, 0, 0)%float (F_dec 1 1)
      0%float (1000000, 1000001, 1)%float 5 false false = Ok m /\
    Model.E m = [repeat (repeat (-1000000)%float 5) 5] /\
    Model.norm m = (1 / 25)%float.
Proof.
  eexists. split; [vm_compute; reflexivity |].
  split; vm_compute; reflexivity.
Qed.

(** Where the exponential underflows, 1.0 + 0.0 is 1.0 and the occupation
    is 2.0. *)
Lemma occupation_underflow (expl : spec_float -> spec_float) :
  expl (Float128.of_Z (-100000000)) = S754_zero false ->
  occupation_float128 expl (-1000000)%float = Float128.of_Z 2.
Proof.
  intros H. unfold occupation_float128.
  replace (Float128.mul (Float128.of_Z 100) (Float128.of_float (-1000000)%float))
    with (Float128.of_Z (-100000000)) by (vm_compute; reflexivity).
  rewrite H. vm_compute. reflexivity.
Qed.

(** The 25 occupations add up to 50.0; its product by the double nearest
    to 1 / 25, which is 5764607523034235 * 2^-57, has 59 significant bits
    and is not rounded at the extended precision: the density is
    9223372036854776000 * 2^-62 = 2 + 3 * 2^-56. *)
Lemma density_flat_band (expl : spec_float -> spec_float) (m : Model.t (T:=float)) :
  expl (Float128.of_Z (-100000000)) = S754_zero false ->
  Model.E m = [repeat (repeat (-1000000)%float 5) 5] ->
  Model.norm m = (1 / 25)%float ->
  get_density_float128 expl m = [S754_finite false 9223372036854776000 (-62)].
Proof.
  intros H HE Hn. unfold get_density_float128. rewrite HE, Hn.
  cbn [repeat map]. rewrite !(occupation_underflow expl H).
  vm_compute. reflexivity.
Qed.

(** C8, as stated, fails in the arithmetic of the code.  For
    [Model((0, 0, 0), 0.1, mus=(1000000, 1000001, 1), resolution=5)] every
    occupation is 2.0 and the density is fl(1 / 25) * 50 = 2 + 3 * 2^-56,
    larger than 2. *)
Lemma density_exceeds_2 : ~ density_at_most_2.
Proof.
  intros H. destruct init_flat_band as (m & Hinit & HE & Hn).
  specialize (H constant_libm (fun _ => S754_zero false) eq_refl eq_refl
                _ _ _ _ _ _ _ _ m Hinit).
  rewrite (density_flat_band _ m eq_refl HE Hn) in H.
  specialize (H _ (or_introl eq_refl)). vm_compute in H. discriminate H.
Qed.

(** C8, amended: in exact arithmetic, for every instance [__init__]
    returns and every chemical potential of its sweep, the density is
    [norm] times the sum over the R x R grid of f(E) = 2 / (1 + exp(100 E)),
    with norm = 1 / R^2; each occupation lies in (0, 2) and the density in
    [0, 2].  As the code computes it, with the occupations at the extended
    precision and [norm] a rounded double, an occupation can be exactly 2.0
    and the density can exceed 2: on a grid of 5 x 5 points with energies
    -1000000 it is 2 + 3 * 2^-56. *)
Theorem get_density_in_0_2 (arcs : Model.fermi_arcs) (hoppings : hops_t (T:=R))
    (broadening omega : R) (mus3 : R * R * R) (resolution : Z)
    (use_peters use_filter : bool) (m : Model.t) :
  Model.__init__ arcs hoppings broadening omega mus3 resolution
                 use_peters use_filter = Ok m ->
  (length (Model.get_density m) = length (Model.mus m) /\
   exists n : nat,
     (1 <= n)%nat /\ Model.norm m = 1 / (INR n * INR n) /\
     has_shape3 (length (Model.mus m)) n n (Model.E m) = true /\
     forall k, (k < length (Model.mus m))%nat ->
       at1 (Model.get_density m) k
       = Model.norm m
         * Rsum n (fun i => Rsum n (fun j =>
             2 / (1 + exp (100 * get3 (Model.E m) k i j)))) /\
       (forall i j, 0 < 2 / (1 + exp (100 * get3 (Model.E m) k i j)) < 2) /\
       0 <= at1 (Model.get_density m) k <= 2) /\
  (exists m' : Model.t (T:=float),
     Model.__init__ (ST:=F_scalar constant_libm) [] (0, 0, 0)%float (F_dec 1 1)
       0%float (1000000, 1000001, 1)%float 5 false false = Ok m' /\
     Model.E m' = [repeat (repeat (-1000000)%float 5) 5] /\
     forall expl : spec_float -> spec_float,
       expl (Float128.of_Z (-100000000)) = S754_zero false ->
       occupation_float128 expl (-1000000)%float = Float128.of_Z 2 /\
       get_density_float128 expl m'
       = [S754_finite false 9223372036854776000 (-62)] /\
       SFltb (Float128.of_Z 2) (S754_finite false 9223372036854776000 (-62)) = true).
Proof.
  intros Hinit. split.
  - destruct (init_density _ _ _ _ _ _ _ _ _ Hinit) as (n & Hn & Hnorm & HE & _).
    split.
    + rewrite get_density_length. now apply has_shape3_length in HE.
    + exists n. repeat (split; [assumption |]).
      intros k Hk. split; [| split].
      * apply (get_density_entry m _ n k HE Hk).
      * intros i j. apply occupation_bounds.
      * now apply (density_in_0_2 m n k).
  - destruct init_flat_band as (m' & Hinit' & HE' & Hn').
    exists m'. split; [exact Hinit' |]. split; [exact HE' |].
    intros expl Hexpl. split; [now apply occupation_underflow |].
    split; [now apply density_flat_band | vm_compute; reflexivity].
Qed.

(** C2, amended: for every instance [__init__] returns, the density does
    not decrease with the chemical potential: for indices i < j of the
    sweep with mu_i <= mu_j, density(mu_i) <= density(mu_j). *)
Theorem get_density_non_decreasing (arcs : Model.fermi_arcs)
    (hoppings : hops_t (T:=R)) (broadening omega : R) (mus3 : R * R * R)
    (resolution : Z) (use_peters use_filter : bool) (m : Model.t) (i j : nat) :
  Model.__init__ arcs hoppings broadening omega mus3 resolution
                 use_peters use_filter = Ok m ->
  (i < j < length (Model.mus m))%nat ->
  at1 (Model.mus m) i <= at1 (Model.mus m) j ->
  at1 (Model.get_density m) i <= at1 (Model.get_density m) j.
Proof.
  intros Hinit Hij Hmu. destruct (init_density _ _ _ _ _ _ _ _ _ Hinit)
    as (n & Hn & Hnorm & HE & Hent).
  rewrite !(get_density_entry m (length (Model.mus m)) n) by (auto; lia).
  apply Rmult_le_compat_l.
  - rewrite Hnorm. assert (0 < INR n) by (apply lt_0_INR; lia).
    apply Rlt_le. apply Rdiv_lt_0_compat; [lra | now apply Rmult_lt_0_compat].
  - apply Rsum_le. intros a Ha. apply Rsum_le. intros b Hb.
    apply occupation_decreasing. rewrite !Hent by lia.
    destruct hoppings as [[t tp] tpp]. rewrite !energy_at_E0. lra.
Qed.

(** A model of the synthetic branch on a single grid point: no hopping,
    the sweep [arange(0, 2, 1)]. *)
Lemma arange_0_2_1 : arange (T:=R) 0 2 1 = [0 + 0 * 1; 0 + 1 * 1].
Proof.
  unfold arange. r_unfold. rewrite (Zceil_eq 2) by lra. reflexivity.
Qed.

Lemma init_single_point :
  exists m : Model.t (T:=R),
    Model.__init__ [] (0, 0, 0) (1 / 10) 0 (0, 2, 1) 1 false false = Ok m /\
    Model.mus m = [0 + 0 * 1; 0 + 1 * 1].
Proof.
  eexists. split.
  - apply init_synthetic_ok.
    + r_unfold. unfold R_eqb. destruct (Req_dec_T 1 0); [lra | reflexivity].
    + lia.
    + rewrite arange_0_2_1. simpl. lia.
  - cbn [Model.mus]. apply arange_0_2_1.
Qed.

Lemma density_single_point (m : Model.t (T:=R)) :
  Model.__init__ [] (0, 0, 0) (1 / 10) 0 (0, 2, 1) 1 false false = Ok m ->
  Model.mus m = [0 + 0 * 1; 0 + 1 * 1] ->
  at1 (Model.get_density m) 0 = 1 /\
  at1 (Model.get_density m) 1 = 2 / (1 + exp (- 100)).
Proof.
  intros Hinit Hmus.
  destruct (init_density _ _ _ _ _ _ _ _ _ Hinit) as (n & Hn & Hnorm & HE & Hent).
  assert (Hn1 : n = 1%nat).
  { destruct (init_common _ _ _ _ _ _ _ _ _ Hinit) as (n' & _ & _ & Hkx' & _).
    apply init_synthetic in Hinit. cbv zeta in Hinit.
    destruct Hinit as (_ & _ & _ & ->). cbn [Model.k_x Model.E Model.mus] in *.
    apply has_shape3_slice with (k := 0%nat) in HE; [| rewrite Hmus; simpl; lia].
    apply has_shape2_length in HE. rewrite <- HE.
    rewrite arange_0_2_1. reflexivity. }
  subst n. rewrite Hmus in HE, Hent. cbn [length] in HE, Hent.
  rewrite !(get_density_entry m 2 1) by (auto; lia).
  cbn [Rsum]. rewrite !Hent by lia. rewrite Hnorm.
  rewrite !energy_at_E0. unfold E0, at1. cbn [nth].
  rewrite !occupation_R. split.
  - replace (100 * (- 2 * 0 * _ - _ - _ - (0 + 0 * 1))) with 0 by ring.
    rewrite exp_0. simpl. field.
  - replace (100 * (- 2 * 0 * _ - _ - _ - (0 + 1 * 1))) with (- 100) by ring.
    simpl. field. pose proof (exp_pos (- 100)). lra.
Qed.

(** C2, as stated, fails.  With no hopping, a single grid point and the
    sweep [0, 1], the densities are 1 = 2 / (1 + exp 0) and
    2 / (1 + exp(-100)) > 1: the density increases with the chemical
    potential. *)
Lemma density_increases : ~ density_non_increasing.
Proof.
  intros H. destruct init_single_point as (m & Hinit & Hmus).
  destruct (density_single_point m Hinit Hmus) as [H0 H1].
  specialize (H _ _ _ _ _ _ _ _ m Hinit).
  assert (Hsorted : forall i j, (i < j < length (Model.mus m))%nat ->
                      at1 (Model.mus m) i < at1 (Model.mus m) j).
  { rewrite Hmus. intros i j Hij. cbn [length] in Hij.
    assert (i = 0%nat /\ j = 1%nat) as [-> ->] by lia.
    unfold at1. cbn [nth]. lra. }
  specialize (H Hsorted 0%nat 1%nat). rewrite Hmus in H. cbn [length] in H.
  specialize (H ltac:(lia)). rewrite H0, H1 in H.
  assert (He : exp (- 100) < 1).
  { rewrite <- exp_0. apply exp_increasing. lra. }
  pose proof (exp_pos (- 100)) as Hp.
  apply (Rmult_le_compat_r (1 + exp (- 100))) in H; [| lra].
  unfold Rdiv in H. rewrite Rmult_assoc, Rinv_l in H by lra. lra.
Qed.

Lemma get_density_non_decreasing_witness :
  exists m : Model.t (T:=R),
    Model.__init__ [] (0, 0, 0) (1 / 10) 0 (0, 2, 1) 1 false false = Ok m /\
    at1 (Model.get_density m) 0 <= at1 (Model.get_density m) 1.
Proof.
  destruct init_single_point as (m & Hinit & Hmus).
  exists m. split; [exact Hinit |].
  apply (get_density_non_decreasing _ _ _ _ _ _ _ _ m 0 1 Hinit).
  - rewrite Hmus. simpl. lia.
  - rewrite Hmus. unfold at1. simpl. lra.
Defined.

Lemma get_density_in_0_2_witness :
  exists m : Model.t (T:=R),
    Model.__init__ [] (0, 0, 0) (1 / 10) 0 (0, 2, 1) 1 false false = Ok m /\
    (forall k, (k < length (Model.mus m))%nat ->
       0 <= at1 (Model.get_density m) k <= 2).
Proof.
  destruct init_single_point as (m & Hinit & Hmus).
  exists m. split; [exact Hinit |].
  destruct (get_density_in_0_2 _ _ _ _ _ _ _ _ m Hinit)
    as ((_ & n & _ & _ & _ & Hk) & _).
  intros k Hlt. now apply Hk.
Defined.

End DensityClaims.

(** ** The shapes of a well-formed instance *)

Section WfFacts.
Context {T : Type} {ST : Scalar T}.

Lemma wf_shapes (m : Model.t (T:=T)) :
  Model.wf m = true ->
  let n := length (Model.k_x m) in
  (1 <= n)%nat /\
  has_shape3 (length (Model.mus m)) n n (Model.E m) = true /\
  has_shape2 n n (dE_dx (Model.dEs m)) = true /\
  has_shape2 n n (ddE_dxx (Model.dEs m)) = true /\
  has_shape2 n n (dE_dy (Model.dEs m)) = true /\
  has_shape2 n n (ddE_dyy (Model.dEs m)) = true /\
  has_shape2 n n (ddE_dxdy (Model.dEs m)) = true /\
  (1 <= length (Model.A m))%nat /\
  has_shape3 (length (Model.A m)) n n (Model.A m) = true.
Proof.
  unfold Model.wf. intros H.
  repeat (apply andb_prop in H; let H' := fresh "H" in destruct H as [H H']).
  apply Nat.leb_le in H. apply Nat.leb_le in H1.
  cbv zeta. repeat split; assumption.
Qed.

End WfFacts.

(** ** Statements on the conductivities *)

Section ConductivityClaims.
Local Open Scope R_scope.

(** C7: for every well-formed instance, [sigma_ij] has one entry per
    slice of the spectral weight, equal to
    2 (-e)^3 (pi^2 / 3) sum_{kx, ky} (c1 + c2 + c3) A^3 with
    c1 = -2 dE/dx dE/dy d2E/dxdy, c2 = (dE/dx)^2 d2E/dy2 and
    c3 = (dE/dy)^2 d2E/dx2, the sum running over the whole grid without a
    normalisation. *)
Theorem sigma_ij_formula (m : Model.t (T:=R)) :
  Model.wf m = true ->
  let n := length (Model.k_x m) in
  let d := Model.dEs m in
  let c1 i j := - 2 * get2 (dE_dx d) i j * get2 (dE_dy d) i j * get2 (ddE_dxdy d) i j in
  let c2 i j := get2 (dE_dx d) i j ^ 2 * get2 (ddE_dyy d) i j in
  let c3 i j := get2 (dE_dy d) i j ^ 2 * get2 (ddE_dxx d) i j in
  length (Model.sigma_ij m) = length (Model.A m) /\
  forall k, (k < length (Model.A m))%nat ->
    at1 (Model.sigma_ij m) k
    = 2 * (- elementary_charge) ^ 3 * (PI ^ 2 / 3)
      * Rsum n (fun i => Rsum n (fun j =>
          (c1 i j + c2 i j + c3 i j) * get3 (Model.A m) k i j ^ 3)).
Proof.
  intros Hwf. pose proof (wf_shapes m Hwf) as Hs. cbv zeta in Hs.
  destruct Hs as (Hn & _ & Hdx & Hdxx & Hdy & Hdyy & Hdxdy & HM & HA).
  intros n d c1 c2 c3. split; [apply sigma_ij_length |].
  intros k Hk. unfold at1, Model.sigma_ij. fold d. fold n in Hdx, Hdxx, Hdy, Hdyy, Hdxdy, HA.
  set (C1 := ew2 mul (ew2 mul (ew1 _ (dE_dx d)) (dE_dy d)) (ddE_dxdy d)).
  set (C2 := ew2 mul (ew1 _ (dE_dx d)) (ddE_dyy d)).
  set (C3 := ew2 mul (ew1 _ (dE_dy d)) (ddE_dxx d)).
  assert (HC1 : has_shape2 n n C1 = true)
    by (unfold C1; auto using ew2_shape, ew1_shape).
  assert (HC2 : has_shape2 n n C2 = true)
    by (unfold C2; auto using ew2_shape, ew1_shape).
  assert (HC3 : has_shape2 n n C3 = true)
    by (unfold C3; auto using ew2_shape, ew1_shape).
  set (C := ew2 add (ew2 add C1 C2) C3).
  assert (HC : has_shape2 n n C = true)
    by (unfold C; auto using ew2_shape).
  set (A3 := Model.ew3 _ (Model.A m)).
  assert (HA3 : has_shape3 (length (Model.A m)) n n A3 = true)
    by (unfold A3; now apply ew3_shape).
  pose proof (broadcast_mul_shape _ _ _ C A3 HC HA3) as Hsig.
  rewrite (map_nth_in _ _ _ _ [])
    by (rewrite (has_shape3_length _ _ _ _ Hsig); exact Hk).
  rewrite (sum_Rsum n n) by (now apply (has_shape3_slice (length (Model.A m)))).
  r_unfold. rewrite (power_pow (- _) 3), (power_pow PI 2).
  unfold elementary_charge.
  replace (2 * ((- (1602176634 / 10 ^ 28)) ^ 3 * PI ^ 2 / 3))
    with (2 * (- (1602176634 / 10 ^ 28)) ^ 3 * (PI ^ 2 / 3)) by (unfold Rdiv; ring).
  f_equal. apply Rsum_ext. intros i Hi. apply Rsum_ext. intros j Hj.
  change (get2 (nth k (Model.broadcast_mul C A3) []) i j)
    with (get3 (Model.broadcast_mul C A3) k i j).
  rewrite (broadcast_mul_get3 (length (Model.A m)) n n) by assumption.
  unfold A3. rewrite (ew3_get3 _ (length (Model.A m)) n n) by assumption.
  unfold C. rewrite !(ew2_get2 _ n n) by (auto using ew2_shape).
  unfold C1, C2, C3.
  rewrite !(ew2_get2 _ n n) by (auto using ew2_shape, ew1_shape).
  rewrite !(ew1_get2 _ n n) by assumption.
  r_unfold. rewrite !power_pow. unfold c1, c2, c3. reflexivity.
Qed.

End ConductivityClaims.

(** ** Statements on [sigma_ii] and [get_hall_nb] *)

Section TransportClaims.

(** C10: on a well-formed instance, [sigma_ii] called with a string other
    than "x" and "y" raises [UnboundLocalError] (the local [dE] is read
    before any assignment); called with "x" or "y" it returns one
    conductivity per slice of the spectral weight. *)
Theorem sigma_ii_unbound_local {T : Type} {ST : Scalar T}
    (m : Model.t (T:=T)) (variable : string) :
  Model.wf m = true ->
  variable <> "x"%string -> variable <> "y"%string ->
  Model.sigma_ii m variable = Raise UnboundLocalError /\
  (exists s_xx, Model.sigma_ii m "x" = Ok s_xx /\ length s_xx = length (Model.A m)) /\
  (exists s_yy, Model.sigma_ii m "y" = Ok s_yy /\ length s_yy = length (Model.A m)).
Proof.
  intros _ Hx Hy. split; [now apply sigma_ii_other |]. split.
  - eexists. split; [apply sigma_ii_x |].
    apply (sigma_ii_length m "x"). apply sigma_ii_x.
  - eexists. split; [apply sigma_ii_y |].
    apply (sigma_ii_length m "y"). apply sigma_ii_y.
Qed.

Lemma sigma_ii_unbound_local_witness :
  Model.sigma_ii (point_model (T:=R) 1%R) "z" = Raise UnboundLocalError /\
  (exists s_xx, Model.sigma_ii (point_model (T:=R) 1%R) "x" = Ok s_xx /\
                length s_xx = 1%nat) /\
  (exists s_yy, Model.sigma_ii (point_model (T:=R) 1%R) "y" = Ok s_yy /\
                length s_yy = 1%nat).
Proof.
  apply (sigma_ii_unbound_local (point_model (T:=R) 1%R) "z");
    [reflexivity | discriminate | discriminate].
Defined.

(** C5, amended: in binary64, on a well-formed instance, [get_hall_nb]
    raises nothing and returns, per slice, the quotient
    norm * sigma_xx * sigma_yy / (e * sigma_xy) with e the elementary
    charge; where sigma_xy is a zero, or so small that e * sigma_xy
    underflows to a zero, the entry is an infinity or NaN. *)
Theorem get_hall_nb_singular (libm : Libm) (m : Model.t (T:=float)) :
  Model.wf m = true ->
  exists s_xx s_yy n_H,
    Model.sigma_ii (ST:=F_scalar libm) m "x" = Ok s_xx /\
    Model.sigma_ii (ST:=F_scalar libm) m "y" = Ok s_yy /\
    Model.get_hall_nb (ST:=F_scalar libm) m = Ok n_H /\
    length n_H = length (Model.A m) /\
    forall k, (k < length (Model.A m))%nat ->
      let s_xy := nth k (Model.sigma_ij (ST:=F_scalar libm) m) 0%float in
      let n := nth k n_H 0%float in
      n = (Model.norm m * nth k s_xx 0 * nth k s_yy 0 / (F_e_charge * s_xy))%float /\
      ((F_e_charge * s_xy =? 0)%float = true ->
       is_nan n || is_infinity n = true) /\
      ((s_xy =? 0)%float = true -> is_nan n || is_infinity n = true).
Proof.
  intros _.
  destruct (get_hall_nb_entries (ST:=F_scalar libm) m)
    as (s_xx & s_yy & n_H & Hx & Hy & Hn & Hlen & Hent).
  exists s_xx, s_yy, n_H. repeat (split; [assumption |]).
  intros k Hk s_xy n. specialize (Hent k Hk). unfold at1 in Hent.
  cbn [of_Z mul div e_charge F_scalar F_of_Z] in Hent. fold s_xy n in Hent.
  split; [exact Hent |]. split.
  - intros Hz. rewrite Hent. now apply div_by_zero_special.
  - intros Hz. rewrite Hent. apply div_by_zero_special.
    now apply e_charge_mul_zero.
Qed.

Lemma get_hall_nb_singular_witness :
  exists n_H,
    Model.get_hall_nb (ST:=F_scalar constant_libm)
      (point_model (ST:=F_scalar constant_libm) 0%float) = Ok n_H /\
    length n_H = 1%nat /\
    is_nan (nth 0 n_H 0%float) || is_infinity (nth 0 n_H 0%float) = true.
Proof.
  destruct (get_hall_nb_singular constant_libm
              (point_model (ST:=F_scalar constant_libm) 0%float) eq_refl)
    as (s_xx & s_yy & n_H & _ & _ & Hn & Hlen & Hent).
  exists n_H. split; [exact Hn |]. split; [exact Hlen |].
  destruct (Hent 0%nat (Nat.lt_0_succ 0)) as (_ & _ & Hz).
  apply Hz. vm_compute. reflexivity.
Defined.

(** C5, as stated, fails for a sigma_xy that is near zero without being
    zero.  On the single-point instance with the spectral weight 2^-100,
    sigma_xy is 5.3e-146 and e * sigma_xy is 8.5e-165, not a zero: the
    entry of the Hall number is the finite quotient 4.7e-30. *)
Lemma hall_number_finite_near_zero : ~ singular_near_zero 0x1p-400%float.
Proof.
  intros H.
  pose (m := point_model (ST:=F_scalar constant_libm) 0x1p-100%float).
  destruct (Model.get_hall_nb (ST:=F_scalar constant_libm) m) as [n_H | e] eqn:Hn;
    [| vm_compute in Hn; discriminate Hn].
  specialize (H constant_libm m n_H 0%nat eq_refl Hn (Nat.lt_0_succ 0)).
  assert (Hs : PrimFloat.leb
                 (PrimFloat.abs
                    (nth 0 (Model.sigma_ij (ST:=F_scalar constant_libm) m) 0%float))
                 0x1p-400%float = true) by (vm_compute; reflexivity).
  specialize (H Hs).
  vm_compute in Hn. apply Ok_inj in Hn. subst n_H.
  vm_compute in H. discriminate H.
Qed.

End TransportClaims.

(** ** Statements on [get_energies] and on the reference-data branch *)

Section DispersionClaims.
Local Open Scope R_scope.

(** C6: at every grid point, the entry of [dE_dx] is the derivative of
    E0 with respect to kx, for every hopping triple; the centred difference
    of E0 differs from it by at most (|t| + 2|t'| + 8|t''|) / 3 * h^2; the
    energies are E0 - mu and the derivatives do not depend on the sweep. *)
Theorem dE_dx_is_derivative (t tp tpp : R) (kx ky : arr2 R) (mus : arr1 R)
    (r c i j : nat) :
  has_shape2 r c kx = true -> has_shape2 r c ky = true ->
  (i < r)%nat -> (j < c)%nat ->
  let x := get2 kx i j in
  let y := get2 ky i j in
  let Ed := get_energies (t, tp, tpp) kx ky mus in
  let d := get2 (dE_dx (snd Ed)) i j in
  (forall m, (m < length mus)%nat ->
     get3 (fst Ed) m i j = E0 t tp tpp x y - at1 mus m) /\
  derivable_pt_lim (fun u => E0 t tp tpp u y) x d /\
  (forall h, h <> 0 ->
     Rabs ((E0 t tp tpp (x + h) y - E0 t tp tpp (x - h) y) / (2 * h) - d)
     <= (Rabs t + 2 * Rabs tp + 8 * Rabs tpp) / 3 * h ^ 2) /\
  (forall mus', snd (get_energies (t, tp, tpp) kx ky mus') = snd Ed).
Proof.
  intros Hkx Hky Hi Hj x y Ed d.
  assert (Hd : d = dE_dx_at (t, tp, tpp) x y).
  { unfold d, Ed. now apply (get_energies_dE_dx_get2 _ _ _ _ r c). }
  split; [| split; [| split]].
  - intros m Hm. unfold Ed.
    rewrite (get_energies_E_get3 _ _ _ _ r c) by assumption.
    apply energy_at_E0.
  - rewrite Hd. apply E0_derivable_x.
  - intros h Hh. rewrite Hd. now apply centered_difference_error.
  - intros mus'. reflexivity.
Qed.

Lemma dE_dx_is_derivative_witness :
  derivable_pt_lim (fun u => E0 1 (-3 / 10) (2 / 10) u 0) 0
    (get2 (dE_dx (snd (get_energies (1, -3 / 10, 2 / 10) [[0]] [[0]] [0]))) 0 0).
Proof.
  apply (dE_dx_is_derivative 1 (-3 / 10) (2 / 10) [[0]] [[0]] [0] 1 1 0 0);
    [reflexivity | reflexivity | lia | lia].
Defined.

Lemma sigma_ij_formula_witness :
  length (Model.sigma_ij (point_model 1)) = 1%nat /\
  at1 (Model.sigma_ij (point_model 1)) 0
  = 2 * (- elementary_charge) ^ 3 * (PI ^ 2 / 3) * (- 4).
Proof.
  destruct (sigma_ij_formula (point_model 1) eq_refl) as [Hl Hk].
  split; [exact Hl |].
  rewrite (Hk 0%nat) by (simpl; lia). f_equal.
  unfold get3, get2. simpl. ring.
Defined.

Lemma cos_neg_PI : cos (- PI) = -1.
Proof. now rewrite cos_neg, cos_PI. Qed.

Lemma cos_neg_2PI : cos (2 * - PI) = 1.
Proof.
  replace (2 * - PI) with (- (2 * PI)) by ring. now rewrite cos_neg, cos_2PI.
Qed.

(** C1 fails on the code: in the reference-data branch the attribute
    [hops] is (1.0, -0.3, 0.2), but the energies are computed from the
    argument.  With the argument (0, 0, 0) the stored energy at the first
    grid point (kx = ky = -pi) and the last chemical potential (0.0) is 0,
    while the fixed hoppings give 4.4 there. *)
Theorem init_peters_energies_from_argument (arcs : Model.fermi_arcs)
    (broadening omega : R) (mus3 : R * R * R) (resolution : Z) (use_filter : bool) :
  exists m : Model.t (T:=R),
    Model.__init__ arcs (0, 0, 0) broadening omega mus3 resolution true use_filter
    = Ok m /\
    Model.hops m = (10 / 10 ^ 1, -3 / 10 ^ 1, 2 / 10 ^ 1) /\
    Model.E m = fst (get_energies (0, 0, 0) (Model.k_x m) (Model.k_y m) (Model.mus m)) /\
    get3 (Model.E m) 4 0 0 = 0 /\
    get3 (fst (get_energies (Model.hops m) (Model.k_x m) (Model.k_y m) (Model.mus m)))
         4 0 0 = 44 / 10.
Proof.
  eexists. split; [apply init_peters |].
  cbn [Model.hops Model.E Model.k_x Model.k_y Model.mus].
  set (k_s := linspace (T:=R) (neg pi) pi 200).
  assert (HkR : length k_s = 200%nat) by apply linspace_length.
  destruct (meshgrid_shape k_s k_s) as [Hkx Hky]. rewrite HkR in Hkx, Hky.
  assert (Hk0 : at1 k_s 0 = - PI).
  { unfold k_s. rewrite linspace_at1_first by lia. reflexivity. }
  destruct (meshgrid_get2 k_s k_s 0 0) as [Hx Hy]; [lia | lia |].
  rewrite Hk0 in Hx, Hy.
  split; [reflexivity |]. split; [reflexivity |]. split.
  - rewrite (get_energies_E_get3 _ _ _ _ 200 200) by (auto; simpl; lia).
    rewrite energy_at_E0, Hx, Hy. unfold E0, at1. cbn [nth peters_mus].
    r_unfold. simpl. lra.
  - rewrite (get_energies_E_get3 _ _ _ _ 200 200) by (auto; simpl; lia).
    rewrite Hx, Hy. r_unfold. rewrite energy_at_E0. unfold E0, at1.
    cbn [nth peters_mus]. r_unfold.
    replace (- PI + - PI) with (2 * - PI) by ring.
    replace (- PI - - PI) with 0 by ring.
    rewrite cos_neg_PI, cos_neg_2PI, cos_0. simpl. lra.
Qed.

End DispersionClaims.

(** ** The band energy at the origin *)

Section OriginEnergy.

Lemma origin_energy_R : origin_energy (T:=R) = (-36 / 10)%R.
Proof.
  unfold origin_energy.
  rewrite (get_energies_E_get3 _ _ _ _ 1 1) by (auto; simpl; lia).
  rewrite energy_at_E0. unfold E0, get2, at1. cbn [nth]. r_unfold.
  replace (0 + 0)%R with 0%R by ring. replace (0 - 0)%R with 0%R by ring.
  rewrite Rmult_0_r, cos_0. simpl. lra.
Qed.

Lemma origin_energy_binary64 (libm : Libm) :
  libm_cos libm 0%float = 1%float ->
  origin_energy (ST:=F_scalar libm) = (-0x1.cccccccccccccp+1)%float.
Proof.
  intros Hcos. unfold origin_energy.
  cbv - [libm_cos]. rewrite !Hcos. reflexivity.
Qed.

(** C9, as stated, fails in binary64.  -2 * 1.0 * 2 = -4.0,
    -2 * -0.3 * 2 = 1.2 and -2 * 0.2 * 2 = -0.8 (each the double nearest to
    the decimal); -4.0 + 1.2 rounds to -2.8 and -2.8 + -0.8 rounds to
    -3.5999999999999996, which differs from the double nearest to -3.6. *)
Lemma origin_energy_not_exact : ~ origin_energy_is_minus_3_6.
Proof.
  intros H. specialize (H constant_libm eq_refl).
  apply (f_equal Prim2SF) in H. vm_compute in H. discriminate H.
Qed.

(** C9, amended: with hoppings (1.0, -0.3, 0.2) and mu = 0.0, the band
    energy at kx = ky = 0 is -3.6 in exact arithmetic; computed in binary64
    it is -3.5999999999999996, the double next above the one nearest to
    -3.6, so that comparing it with the literal -3.6 gives false. *)
Theorem origin_energy_value (libm : Libm) :
  libm_cos libm 0%float = 1%float ->
  origin_energy (T:=R) = (-36 / 10)%R /\
  origin_energy (ST:=F_scalar libm) = (-0x1.cccccccccccccp+1)%float /\
  PrimFloat.eqb (origin_energy (ST:=F_scalar libm)) (F_dec (-36) 1) = false /\
  next_down (origin_energy (ST:=F_scalar libm)) = F_dec (-36) 1.
Proof.
  intros Hcos. split; [apply origin_energy_R |].
  rewrite (origin_energy_binary64 libm Hcos).
  repeat split; vm_compute; reflexivity.
Qed.

Lemma origin_energy_value_witness :
  origin_energy (T:=R) = (-36 / 10)%R /\
  origin_energy (ST:=F_scalar constant_libm) = (-0x1.cccccccccccccp+1)%float /\
  PrimFloat.eqb (origin_energy (ST:=F_scalar constant_libm)) (F_dec (-36) 1) = false /\
  next_down (origin_energy (ST:=F_scalar constant_libm)) = F_dec (-36) 1.
Proof.
  apply (origin_energy_value constant_libm). reflexivity.
Defined.

End OriginEnergy.

(** ** Further facts on [get_energies] *)

Section DerivativeEntries.
Context {T : Type} {ST : Scalar T}.
Variables (hops : hops_t (T:=T)) (kx ky : arr2 T) (mus : arr1 T).
Variables (r c : nat).
Hypothesis Hkx : has_shape2 r c kx = true.
Hypothesis Hky : has_shape2 r c ky = true.

Lemma get_energies_ddE_dxx_get2 (i j : nat) :
  (i < r)%nat -> (j < c)%nat ->
  get2 (ddE_dxx (snd (get_energies hops kx ky mus))) i j
  = ddE_dxx_at hops (get2 kx i j) (get2 ky i j).
Proof.
  intros Hi Hj. destruct hops as [[t tp] tpp]. unfold ddE_dxx_at. simpl.
  now rewrite (ew2_get2 _ r c) by assumption.
Qed.

Lemma get_energies_dE_dy_get2 (i j : nat) :
  (i < r)%nat -> (j < c)%nat ->
  get2 (dE_dy (snd (get_energies hops kx ky mus))) i j
  = dE_dy_at hops (get2 kx i j) (get2 ky i j).
Proof.
  intros Hi Hj. destruct hops as [[t tp] tpp]. unfold dE_dy_at. simpl.
  now rewrite (ew2_get2 _ r c) by assumption.
Qed.

Lemma get_energies_ddE_dyy_get2 (i j : nat) :
  (i < r)%nat -> (j < c)%nat ->
  get2 (ddE_dyy (snd (get_energies hops kx ky mus))) i j
  = ddE_dyy_at hops (get2 kx i j) (get2 ky i j).
Proof.
  intros Hi Hj. destruct hops as [[t tp] tpp]. unfold ddE_dyy_at. simpl.
  now rewrite (ew2_get2 _ r c) by assumption.
Qed.

Lemma get_energies_ddE_dxdy_get2 (i j : nat) :
  (i < r)%nat -> (j < c)%nat ->
  get2 (ddE_dxdy (snd (get_energies hops kx ky mus))) i j
  = ddE_dxdy_at hops (get2 kx i j) (get2 ky i j).
Proof.
  intros Hi Hj. destruct hops as [[t tp] tpp]. unfold ddE_dxdy_at. simpl.
  now rewrite (ew2_get2 _ r c) by assumption.
Qed.

End DerivativeEntries.

Section RealDerivatives.
Local Open Scope R_scope.

Lemma derivable_pt_lim_affine (a b x : R) :
  derivable_pt_lim (fun u => a * u + b) x a.
Proof.
  apply (derivable_pt_lim_ext (plus_fct (mult_real_fct a id) (fct_cte b))).
  - intros z. reflexivity.
  - replace a with (a * 1 + 0) at 2 by ring.
    apply derivable_pt_lim_plus.
    + apply derivable_pt_lim_scal, derivable_pt_lim_id.
    + apply derivable_pt_lim_const.
Qed.

Lemma derivable_pt_lim_sin_affine (a b x : R) :
  derivable_pt_lim (fun u => sin (a * u + b)) x (a * cos (a * x + b)).
Proof.
  replace (a * cos (a * x + b)) with (cos (a * x + b) * a) by ring.
  apply (derivable_pt_lim_comp (fun u => a * u + b) sin x a _
           (derivable_pt_lim_affine a b x)).
  apply derivable_pt_lim_sin.
Qed.

(** A linear combination of four functions and a constant. *)
Lemma derivable_pt_lim_comb4 (f1 f2 f3 f4 : R -> R) (a1 a2 a3 a4 k x l1 l2 l3 l4 : R) :
  derivable_pt_lim f1 x l1 -> derivable_pt_lim f2 x l2 ->
  derivable_pt_lim f3 x l3 -> derivable_pt_lim f4 x l4 ->
  derivable_pt_lim (fun u => a1 * f1 u + a2 * f2 u + a3 * f3 u + a4 * f4 u + k) x
    (a1 * l1 + a2 * l2 + a3 * l3 + a4 * l4).
Proof.
  intros H1 H2 H3 H4.
  replace (a1 * l1 + a2 * l2 + a3 * l3 + a4 * l4)
    with (a1 * l1 + a2 * l2 + a3 * l3 + a4 * l4 + 0) by ring.
  apply (derivable_pt_lim_plus _ (fct_cte k)); [| apply derivable_pt_lim_const].
  repeat apply derivable_pt_lim_plus; now apply derivable_pt_lim_scal.
Qed.

Lemma E0_derivable_y (t tp tpp x y : R) :
  derivable_pt_lim (fun v => E0 t tp tpp x v) y (dE_dy_at (t, tp, tpp) x y).
Proof.
  unfold dE_dy_at. r_unfold.
  apply (derivable_pt_lim_ext
    (fun v => (- 2 * t) * cos (1 * v + 0) + (- 2 * tp) * cos (1 * v + x)
              + (- 2 * tp) * cos (- 1 * v + x) + (- 2 * tpp) * cos (2 * v + 0)
              + (- 2 * t * cos x - 2 * tpp * cos (2 * x)))).
  - intros z. unfold E0.
    replace (1 * z + 0) with z by ring. replace (1 * z + x) with (x + z) by ring.
    replace (- 1 * z + x) with (x - z) by ring.
    replace (2 * z + 0) with (2 * z) by ring. ring.
  - replace (2 * (t * sin y + tp * (sin (x + y) - sin (x - y)) + 2 * tpp * sin (2 * y)))
      with ((- 2 * t) * (- 1 * sin (1 * y + 0)) + (- 2 * tp) * (- 1 * sin (1 * y + x))
            + (- 2 * tp) * (- (- 1) * sin (- 1 * y + x))
            + (- 2 * tpp) * (- 2 * sin (2 * y + 0))).
    2:{ replace (1 * y + 0) with y by ring. replace (1 * y + x) with (x + y) by ring.
        replace (- 1 * y + x) with (x - y) by ring.
        replace (2 * y + 0) with (2 * y) by ring. ring. }
    apply derivable_pt_lim_comb4; apply derivable_pt_lim_cos_affine.
Qed.

Lemma dE_dx_derivable_x (t tp tpp x y : R) :
  derivable_pt_lim (fun u => dE_dx_at (t, tp, tpp) u y) x (ddE_dxx_at (t, tp, tpp) x y).
Proof.
  unfold dE_dx_at, ddE_dxx_at. r_unfold.
  apply (derivable_pt_lim_ext
    (fun u => (2 * t) * sin (1 * u + 0) + (2 * tp) * sin (1 * u + - y)
              + (2 * tp) * sin (1 * u + y) + (4 * tpp) * sin (2 * u + 0) + 0)).
  - intros z.
    replace (1 * z + 0) with z by ring. replace (1 * z + - y) with (z - y) by ring.
    replace (1 * z + y) with (z + y) by ring.
    replace (2 * z + 0) with (2 * z) by ring. ring.
  - replace (2 * (t * cos x + tp * (cos (x - y) + cos (x + y)) + 4 * tpp * cos (2 * x)))
      with ((2 * t) * (1 * cos (1 * x + 0)) + (2 * tp) * (1 * cos (1 * x + - y))
            + (2 * tp) * (1 * cos (1 * x + y)) + (4 * tpp) * (2 * cos (2 * x + 0))).
    2:{ replace (1 * x + 0) with x by ring. replace (1 * x + - y) with (x - y) by ring.
        replace (1 * x + y) with (x + y) by ring.
        replace (2 * x + 0) with (2 * x) by ring. ring. }
    apply derivable_pt_lim_comb4; apply derivable_pt_lim_sin_affine.
Qed.

Lemma dE_dy_derivable_y (t tp tpp x y : R) :
  derivable_pt_lim (fun v => dE_dy_at (t, tp, tpp) x v) y (ddE_dyy_at (t, tp, tpp) x y).
Proof.
  unfold dE_dy_at, ddE_dyy_at. r_unfold.
  apply (derivable_pt_lim_ext
    (fun v => (2 * t) * sin (1 * v + 0) + (2 * tp) * sin (1 * v + x)
              + (- 2 * tp) * sin (- 1 * v + x) + (4 * tpp) * sin (2 * v + 0) + 0)).
  - intros z.
    replace (1 * z + 0) with z by ring. replace (1 * z + x) with (x + z) by ring.
    replace (- 1 * z + x) with (x - z) by ring.
    replace (2 * z + 0) with (2 * z) by ring. ring.
  - replace (2 * (t * cos y + tp * (cos (x + y) + cos (x - y)) + 4 * tpp * cos (2 * y)))
      with ((2 * t) * (1 * cos (1 * y + 0)) + (2 * tp) * (1 * cos (1 * y + x))
            + (- 2 * tp) * (- 1 * cos (- 1 * y + x)) + (4 * tpp) * (2 * cos (2 * y + 0))).
    2:{ replace (1 * y + 0) with y by ring. replace (1 * y + x) with (x + y) by ring.
        replace (- 1 * y + x) with (x - y) by ring.
        replace (2 * y + 0) with (2 * y) by ring. ring. }
    apply derivable_pt_lim_comb4; apply derivable_pt_lim_sin_affine.
Qed.

Lemma dE_dx_derivable_y (t tp tpp x y : R) :
  derivable_pt_lim (fun v => dE_dx_at (t, tp, tpp) x v) y (ddE_dxdy_at (t, tp, tpp) x y).
Proof.
  unfold dE_dx_at, ddE_dxdy_at. r_unfold.
  apply (derivable_pt_lim_ext
    (fun v => (2 * tp) * sin (- 1 * v + x) + (2 * tp) * sin (1 * v + x)
              + 0 * sin (1 * v + 0) + 0 * sin (1 * v + 0)
              + (2 * t * sin x + 4 * tpp * sin (2 * x)))).
  - intros z.
    replace (- 1 * z + x) with (x - z) by ring.
    replace (1 * z + x) with (x + z) by ring. ring.
  - replace (2 * tp * (cos (x + y) - cos (x - y)))
      with ((2 * tp) * (- 1 * cos (- 1 * y + x)) + (2 * tp) * (1 * cos (1 * y + x))
            + 0 * (1 * cos (1 * y + 0)) + 0 * (1 * cos (1 * y + 0))).
    2:{ replace (- 1 * y + x) with (x - y) by ring.
        replace (1 * y + x) with (x + y) by ring. ring. }
    apply derivable_pt_lim_comb4; apply derivable_pt_lim_sin_affine.
Qed.

Lemma dE_dy_derivable_x (t tp tpp x y : R) :
  derivable_pt_lim (fun u => dE_dy_at (t, tp, tpp) u y) x (ddE_dxdy_at (t, tp, tpp) x y).
Proof.
  unfold dE_dy_at, ddE_dxdy_at. r_unfold.
  apply (derivable_pt_lim_ext
    (fun u => (2 * tp) * sin (1 * u + y) + (- 2 * tp) * sin (1 * u + - y)
              + 0 * sin (1 * u + 0) + 0 * sin (1 * u + 0)
              + (2 * t * sin y + 4 * tpp * sin (2 * y)))).
  - intros z.
    replace (1 * z + y) with (z + y) by ring.
    replace (1 * z + - y) with (z - y) by ring. ring.
  - replace (2 * tp * (cos (x + y) - cos (x - y)))
      with ((2 * tp) * (1 * cos (1 * x + y)) + (- 2 * tp) * (1 * cos (1 * x + - y))
            + 0 * (1 * cos (1 * x + 0)) + 0 * (1 * cos (1 * x + 0))).
    2:{ replace (1 * x + y) with (x + y) by ring.
        replace (1 * x + - y) with (x - y) by ring. ring. }
    apply derivable_pt_lim_comb4; apply derivable_pt_lim_sin_affine.
Qed.

End RealDerivatives.

Section DispersionExtras.
Local Open Scope R_scope.

(** X1: at every grid point, the entry of [dE_dy] is the derivative of E0
    with respect to ky. *)
Theorem dE_dy_is_derivative (t tp tpp : R) (kx ky : arr2 R) (mus : arr1 R)
    (r c i j : nat) :
  has_shape2 r c kx = true -> has_shape2 r c ky = true ->
  (i < r)%nat -> (j < c)%nat ->
  derivable_pt_lim (fun v => E0 t tp tpp (get2 kx i j) v) (get2 ky i j)
    (get2 (dE_dy (snd (get_energies (t, tp, tpp) kx ky mus))) i j).
Proof.
  intros Hkx Hky Hi Hj.
  rewrite (get_energies_dE_dy_get2 _ _ _ _ r c) by assumption.
  apply E0_derivable_y.
Qed.

Lemma dE_dy_is_derivative_witness :
  derivable_pt_lim (fun v => E0 1 (-3 / 10) (2 / 10) (get2 [[0]] 0 0) v) (get2 [[1]] 0 0)
    (get2 (dE_dy (snd (get_energies (1, -3 / 10, 2 / 10) [[0]] [[1]] [0]))) 0 0).
Proof.
  apply (dE_dy_is_derivative 1 (-3 / 10) (2 / 10) [[0]] [[1]] [0] 1 1 0 0);
    [reflexivity | reflexivity | lia | lia].
Defined.

(** X2: at every grid point, the entry of [ddE_dxx] is the derivative in
    kx of the formula of [dE_dx], and the entry of [ddE_dyy] the derivative
    in ky of the formula of [dE_dy]. *)
Theorem second_derivatives_are_derivatives (t tp tpp : R) (kx ky : arr2 R)
    (mus : arr1 R) (r c i j : nat) :
  has_shape2 r c kx = true -> has_shape2 r c ky = true ->
  (i < r)%nat -> (j < c)%nat ->
  let x := get2 kx i j in
  let y := get2 ky i j in
  let d := snd (get_energies (t, tp, tpp) kx ky mus) in
  get2 (dE_dx d) i j = dE_dx_at (t, tp, tpp) x y /\
  get2 (dE_dy d) i j = dE_dy_at (t, tp, tpp) x y /\
  derivable_pt_lim (fun u => dE_dx_at (t, tp, tpp) u y) x (get2 (ddE_dxx d) i j) /\
  derivable_pt_lim (fun v => dE_dy_at (t, tp, tpp) x v) y (get2 (ddE_dyy d) i j).
Proof.
  intros Hkx Hky Hi Hj x y d. unfold d.
  rewrite (get_energies_dE_dx_get2 _ _ _ _ r c) by assumption.
  rewrite (get_energies_dE_dy_get2 _ _ _ _ r c) by assumption.
  rewrite (get_energies_ddE_dxx_get2 _ _ _ _ r c) by assumption.
  rewrite (get_energies_ddE_dyy_get2 _ _ _ _ r c) by assumption.
  repeat split; [apply dE_dx_derivable_x | apply dE_dy_derivable_y].
Qed.

Lemma second_derivatives_are_derivatives_witness :
  derivable_pt_lim (fun u => dE_dx_at (1, -3 / 10, 2 / 10) u (get2 [[1]] 0 0))
    (get2 [[0]] 0 0)
    (get2 (ddE_dxx (snd (get_energies (1, -3 / 10, 2 / 10) [[0]] [[1]] [0]))) 0 0).
Proof.
  apply (second_derivatives_are_derivatives 1 (-3 / 10) (2 / 10) [[0]] [[1]] [0] 1 1 0 0);
    [reflexivity | reflexivity | lia | lia].
Defined.

(** X3: at every grid point, the entry of [ddE_dxdy] is the mixed second
    derivative: the derivative in ky of the formula of [dE_dx] and the
    derivative in kx of the formula of [dE_dy]; it is zero when t' = 0. *)
Theorem mixed_derivative_is_derivative (t tp tpp : R) (kx ky : arr2 R)
    (mus : arr1 R) (r c i j : nat) :
  has_shape2 r c kx = true -> has_shape2 r c ky = true ->
  (i < r)%nat -> (j < c)%nat ->
  let x := get2 kx i j in
  let y := get2 ky i j in
  let d := snd (get_energies (t, tp, tpp) kx ky mus) in
  derivable_pt_lim (fun v => dE_dx_at (t, tp, tpp) x v) y (get2 (ddE_dxdy d) i j) /\
  derivable_pt_lim (fun u => dE_dy_at (t, tp, tpp) u y) x (get2 (ddE_dxdy d) i j) /\
  (tp = 0 -> get2 (ddE_dxdy d) i j = 0).
Proof.
  intros Hkx Hky Hi Hj x y d. unfold d.
  rewrite (get_energies_ddE_dxdy_get2 _ _ _ _ r c) by assumption.
  repeat split; [apply dE_dx_derivable_y | apply dE_dy_derivable_x |].
  intros ->. unfold ddE_dxdy_at. r_unfold. ring.
Qed.

Lemma mixed_derivative_is_derivative_witness :
  derivable_pt_lim (fun v => dE_dx_at (1, -3 / 10, 2 / 10) (get2 [[0]] 0 0) v)
    (get2 [[1]] 0 0)
    (get2 (ddE_dxdy (snd (get_energies (1, -3 / 10, 2 / 10) [[0]] [[1]] [0]))) 0 0).
Proof.
  apply (mixed_derivative_is_derivative 1 (-3 / 10) (2 / 10) [[0]] [[1]] [0] 1 1 0 0);
    [reflexivity | reflexivity | lia | lia].
Defined.

(** X4: exchanging the two momentum arrays leaves the energies and the
    mixed derivative unchanged and exchanges [dE_dx] with [dE_dy] and
    [ddE_dxx] with [ddE_dyy], entry by entry. *)
Theorem get_energies_swap (hops : hops_t (T:=R)) (kx ky : arr2 R) (mus : arr1 R)
    (r c m i j : nat) :
  has_shape2 r c kx = true -> has_shape2 r c ky = true ->
  (m < length mus)%nat -> (i < r)%nat -> (j < c)%nat ->
  let Ed := get_energies hops kx ky mus in
  let Ed' := get_energies hops ky kx mus in
  get3 (fst Ed') m i j = get3 (fst Ed) m i j /\
  get2 (dE_dx (snd Ed')) i j = get2 (dE_dy (snd Ed)) i j /\
  get2 (dE_dy (snd Ed')) i j = get2 (dE_dx (snd Ed)) i j /\
  get2 (ddE_dxx (snd Ed')) i j = get2 (ddE_dyy (snd Ed)) i j /\
  get2 (ddE_dyy (snd Ed')) i j = get2 (ddE_dxx (snd Ed)) i j /\
  get2 (ddE_dxdy (snd Ed')) i j = get2 (ddE_dxdy (snd Ed)) i j.
Proof.
  intros Hkx Hky Hm Hi Hj Ed Ed'. unfold Ed, Ed'.
  rewrite !(get_energies_E_get3 _ _ _ _ r c) by assumption.
  rewrite !(get_energies_dE_dx_get2 _ _ _ _ r c) by assumption.
  rewrite !(get_energies_dE_dy_get2 _ _ _ _ r c) by assumption.
  rewrite !(get_energies_ddE_dxx_get2 _ _ _ _ r c) by assumption.
  rewrite !(get_energies_ddE_dyy_get2 _ _ _ _ r c) by assumption.
  rewrite !(get_energies_ddE_dxdy_get2 _ _ _ _ r c) by assumption.
  destruct hops as [[t tp] tpp].
  set (x := get2 kx i j). set (y := get2 ky i j).
  unfold energy_at, dE_dx_at, dE_dy_at, ddE_dxx_at, ddE_dyy_at, ddE_dxdy_at.
  r_unfold.
  replace (y - x) with (- (x - y)) by ring.
  rewrite cos_neg, sin_neg, (Rplus_comm y x).
  repeat split; ring.
Qed.

Lemma get_energies_swap_witness :
  get3 (fst (get_energies (1, -3 / 10, 2 / 10) [[1]] [[0]] [0])) 0 0 0
  = get3 (fst (get_energies (1, -3 / 10, 2 / 10) [[0]] [[1]] [0])) 0 0 0.
Proof.
  apply (get_energies_swap (1, -3 / 10, 2 / 10) [[0]] [[1]] [0] 1 1 0 0 0);
    [reflexivity | reflexivity | simpl; lia | lia | lia].
Defined.

Lemma cos_abs_le_1 (x : R) : Rabs (cos x) <= 1.
Proof. apply Rabs_le. pose proof (COS_bound x). lra. Qed.

Lemma E0_bounded (t tp tpp x y : R) :
  Rabs (E0 t tp tpp x y) <= 4 * (Rabs t + Rabs tp + Rabs tpp).
Proof.
  unfold E0.
  assert (H2 : forall a b, Rabs (cos a + cos b) <= 2).
  { intros a b. eapply Rle_trans; [apply Rabs_triang |].
    pose proof (cos_abs_le_1 a). pose proof (cos_abs_le_1 b). lra. }
  assert (Hm : forall k a b, Rabs (- 2 * k * (cos a + cos b)) <= 4 * Rabs k).
  { intros k a b. rewrite !Rabs_mult.
    replace (Rabs (-2)) with 2 by (rewrite Rabs_left; lra).
    pose proof (H2 a b). pose proof (Rabs_pos k).
    pose proof (Rabs_pos (cos a + cos b)). nra. }
  unfold Rminus. eapply Rle_trans; [apply Rabs_triang |].
  eapply Rle_trans; [apply Rplus_le_compat_r, Rabs_triang |].
  rewrite !Rabs_Ropp.
  pose proof (Hm t x y). pose proof (Hm tp (x + y) (x + - y)).
  pose proof (Hm tpp (2 * x) (2 * y)).
  replace (2 * t * (cos x + cos y)) with (- (- 2 * t * (cos x + cos y))) by ring.
  replace (2 * tp * (cos (x + y) + cos (x + - y)))
    with (- (- 2 * tp * (cos (x + y) + cos (x + - y)))) by ring.
  replace (2 * tpp * (cos (2 * x) + cos (2 * y)))
    with (- (- 2 * tpp * (cos (2 * x) + cos (2 * y)))) by ring.
  rewrite !Rabs_Ropp. lra.
Qed.

(** X5: every energy [get_energies] returns lies within
    4 (|t| + |t'| + |t''|) of minus the chemical potential of its slice. *)
Theorem get_energies_bounded (t tp tpp : R) (kx ky : arr2 R) (mus : arr1 R)
    (r c m i j : nat) :
  has_shape2 r c kx = true -> has_shape2 r c ky = true ->
  (m < length mus)%nat -> (i < r)%nat -> (j < c)%nat ->
  Rabs (get3 (fst (get_energies (t, tp, tpp) kx ky mus)) m i j + at1 mus m)
  <= 4 * (Rabs t + Rabs tp + Rabs tpp).
Proof.
  intros Hkx Hky Hm Hi Hj.
  rewrite (get_energies_E_get3 _ _ _ _ r c) by assumption.
  rewrite energy_at_E0.
  replace (E0 t tp tpp (get2 kx i j) (get2 ky i j) - at1 mus m + at1 mus m)
    with (E0 t tp tpp (get2 kx i j) (get2 ky i j)) by ring.
  apply E0_bounded.
Qed.

Lemma get_energies_bounded_witness :
  Rabs (get3 (fst (get_energies (1, -3 / 10, 2 / 10) [[0]] [[1]] [5])) 0 0 0
        + at1 [5] 0)
  <= 4 * (Rabs 1 + Rabs (-3 / 10) + Rabs (2 / 10)).
Proof.
  apply (get_energies_bounded 1 (-3 / 10) (2 / 10) [[0]] [[1]] [5] 1 1 0 0 0);
    [reflexivity | reflexivity | simpl; lia | lia | lia].
Defined.

End DispersionExtras.

(** ** Further facts on [get_spectral_weight] *)

Section SpectralExtras.
Local Open Scope R_scope.

Lemma arc_mask_01 (filter : bool) (dim i j : nat) :
  arc_mask filter dim i j = 0 \/ arc_mask filter dim i j = 1.
Proof.
  unfold arc_mask. destruct filter; [| now right].
  destruct (Rle_dec _ _); [now right | now left].
Qed.

Lemma outline_mask_01 (dim i j : nat) :
  outline_mask dim i j = 0 \/ outline_mask dim i j = 1.
Proof.
  unfold outline_mask. destruct (Req_dec_T _ _); [now right | now left].
Qed.

Lemma lorentzian_le (omega eta e : R) :
  0 < eta -> lorentzian omega eta e <= 1 / (PI * eta).
Proof.
  intros Heta. rewrite lorentzian_closed by assumption.
  pose proof PI_RGT_0 as HPI.
  pose proof (Rle_0_sqr (omega - e)) as Hs. unfold Rsqr in Hs.
  pose proof (Rmult_lt_0_compat _ _ Heta Heta) as He2.
  set (d := (omega - e) * (omega - e)) in *.
  assert (Hd : 0 < PI * (d + eta * eta)) by (apply Rmult_lt_0_compat; lra).
  assert (Hpe : 0 < PI * eta) by (apply Rmult_lt_0_compat; lra).
  apply (Rmult_le_reg_r (PI * (d + eta * eta))); [exact Hd |].
  unfold Rdiv at 1. rewrite Rmult_assoc, Rinv_l, Rmult_1_r by lra.
  apply (Rmult_le_reg_r (PI * eta)); [exact Hpe |].
  replace (1 / (PI * eta) * (PI * (d + eta * eta)) * (PI * eta))
    with (PI * (d + eta * eta)) by (field; lra).
  assert (0 <= PI * d) by (apply Rmult_le_pos; lra).
  nra.
Qed.

(** X6: for eta > 0 every entry of the spectral weight lies between 0 and
    1 / (pi eta), with or without the filter. *)
Theorem spectral_weight_bounded (omega eta : R) (E : arr3 R) (filter : bool)
    (M dim : nat) :
  0 < eta -> (1 <= M)%nat -> has_shape3 M dim dim E = true ->
  exists W line,
    get_spectral_weight omega eta E filter = Ok (W, line) /\
    forall m i j, (m < M)%nat -> (i < dim)%nat -> (j < dim)%nat ->
      0 <= get3 W m i j <= 1 / (PI * eta).
Proof.
  intros Heta HM HE.
  destruct (spectral_weight_entries omega eta E filter M dim HM HE)
    as (W & Hgw & _ & Hent).
  exists W, (diag_line dim). split; [exact Hgw |].
  intros m i j Hm Hi Hj. rewrite Hent by assumption.
  pose proof (lorentzian_pos omega eta (get3 E m i j) Heta) as Hp.
  pose proof (lorentzian_le omega eta (get3 E m i j) Heta) as Hl.
  destruct (arc_mask_01 filter dim i j) as [-> | ->]; [| lra].
  rewrite Rmult_0_l. split; [lra |].
  apply Rlt_le. apply Rdiv_lt_0_compat; [lra |].
  apply Rmult_lt_0_compat; [apply PI_RGT_0 | exact Heta].
Qed.

Lemma spectral_weight_bounded_witness :
  exists W line,
    get_spectral_weight 0 1 [[[0]]] true = Ok (W, line) /\
    forall m i j, (m < 1)%nat -> (i < 1)%nat -> (j < 1)%nat ->
      0 <= get3 W m i j <= 1 / (PI * 1).
Proof.
  apply (spectral_weight_bounded 0 1 [[[0]]] true 1 1); [lra | lia | reflexivity].
Defined.

(** X7: the two masks take the values 0 and 1 only and are unchanged by
    the exchange of the two indices. *)
Theorem masks_symmetric (filter : bool) (dim i j : nat) :
  (i < dim)%nat -> (j < dim)%nat ->
  (get2 (diag_filter (T:=R) filter dim) i j = 0
   \/ get2 (diag_filter (T:=R) filter dim) i j = 1) /\
  (get2 (diag_line (T:=R) dim) i j = 0 \/ get2 (diag_line (T:=R) dim) i j = 1) /\
  get2 (diag_filter (T:=R) filter dim) i j = get2 (diag_filter (T:=R) filter dim) j i /\
  get2 (diag_line (T:=R) dim) i j = get2 (diag_line (T:=R) dim) j i.
Proof.
  intros Hi Hj. rewrite !diag_filter_get2, !diag_line_get2 by assumption.
  split; [apply arc_mask_01 |]. split; [apply outline_mask_01 |].
  unfold arc_mask, outline_mask.
  now rewrite (Rplus_comm (Rabs (k_axis dim i))).
Qed.

Lemma masks_symmetric_witness :
  get2 (diag_filter (T:=R) true 3) 0 1 = get2 (diag_filter (T:=R) true 3) 1 0.
Proof.
  apply (masks_symmetric true 3 0 1); lia.
Defined.

(** X8: for eta > 0 filtering is idempotent: multiplying the weight that
    [get_spectral_weight] returns by the filter array once more changes no
    entry. *)
Theorem filter_idempotent (omega eta : R) (E : arr3 R) (filter : bool)
    (M dim : nat) :
  0 < eta -> (1 <= M)%nat -> has_shape3 M dim dim E = true ->
  exists W line,
    get_spectral_weight omega eta E filter = Ok (W, line) /\
    forall m i j, (m < M)%nat -> (i < dim)%nat -> (j < dim)%nat ->
      get3 (Model.broadcast_mul (diag_filter filter dim) W) m i j = get3 W m i j.
Proof.
  intros _ HM HE.
  destruct (spectral_weight_entries omega eta E filter M dim HM HE)
    as (W & Hgw & HW & Hent).
  exists W, (diag_line dim). split; [exact Hgw |].
  intros m i j Hm Hi Hj.
  rewrite (broadcast_mul_get3 M dim dim) by (auto using diag_filter_shape).
  rewrite diag_filter_get2, Hent by assumption. r_unfold.
  destruct (arc_mask_01 filter dim i j) as [-> | ->]; ring.
Qed.

Lemma filter_idempotent_witness :
  exists W line,
    get_spectral_weight 0 1 [[[0]]] true = Ok (W, line) /\
    forall m i j, (m < 1)%nat -> (i < 1)%nat -> (j < 1)%nat ->
      get3 (Model.broadcast_mul (diag_filter true 1) W) m i j = get3 W m i j.
Proof.
  apply (filter_idempotent 0 1 [[[0]]] true 1 1); [lra | lia | reflexivity].
Defined.

Lemma k_axis_first (dim : nat) : (1 <= dim)%nat -> k_axis dim 0 = - PI.
Proof.
  intros H. unfold k_axis, buffer. rewrite linspace_at1_first by assumption.
  reflexivity.
Qed.

Lemma k_axis_last (dim : nat) : (2 <= dim)%nat -> k_axis dim (dim - 1) = PI.
Proof.
  intros H. destruct dim as [|[|n]]; try lia.
  unfold k_axis, buffer. rewrite linspace_at1 by lia. r_unfold.
  replace (S (S n) - 1)%nat with (S n) by lia. field.
  apply not_0_INR. lia.
Qed.

Lemma k_axis_abs_end (dim i : nat) :
  (1 <= dim)%nat -> i = 0%nat \/ i = (dim - 1)%nat -> Rabs (k_axis dim i) = PI.
Proof.
  intros Hd Hi. pose proof PI_RGT_0 as HPI.
  assert (Hcase : k_axis dim i = - PI \/ k_axis dim i = PI).
  { destruct Hi as [-> | ->]; [left; now apply k_axis_first |].
    destruct (Nat.eq_dec dim 1) as [-> | Hne].
    - left. now apply k_axis_first.
    - right. apply k_axis_last. lia. }
  destruct Hcase as [-> | ->]; [rewrite Rabs_Ropp |]; apply Rabs_pos_eq; lra.
Qed.

(** X9: for eta > 0 and with the filter set, the four corners of every
    slice of the spectral weight are zero (there |kx| + |ky| = 2 pi > pi);
    on a grid of a single point the whole weight is zero. *)
Theorem filter_masks_corners (omega eta : R) (E : arr3 R) (M dim : nat) :
  0 < eta -> (1 <= M)%nat -> (1 <= dim)%nat -> has_shape3 M dim dim E = true ->
  exists W line,
    get_spectral_weight omega eta E true = Ok (W, line) /\
    forall m i j, (m < M)%nat ->
      i = 0%nat \/ i = (dim - 1)%nat -> j = 0%nat \/ j = (dim - 1)%nat ->
      get3 W m i j = 0.
Proof.
  intros _ HM Hd HE.
  destruct (spectral_weight_entries omega eta E true M dim HM HE)
    as (W & Hgw & _ & Hent).
  exists W, (diag_line dim). split; [exact Hgw |].
  intros m i j Hm Hi Hj.
  rewrite Hent by (try assumption; destruct Hi as [-> | ->], Hj as [-> | ->]; lia).
  unfold arc_mask. rewrite !k_axis_abs_end by assumption.
  pose proof PI_RGT_0 as HPI.
  destruct (Rle_dec _ _) as [H | H]; [lra | ring].
Qed.

Lemma filter_masks_corners_witness :
  exists W line,
    get_spectral_weight 0 1 [[[0]]] true = Ok (W, line) /\
    forall m i j, (m < 1)%nat ->
      i = 0%nat \/ i = (1 - 1)%nat -> j = 0%nat \/ j = (1 - 1)%nat ->
      get3 W m i j = 0.
Proof.
  apply (filter_masks_corners 0 1 [[[0]]] 1 1); [lra | lia | lia | reflexivity].
Defined.

End SpectralExtras.

(** ** Further facts on [__init__] *)

Section InitReal.
Local Open Scope R_scope.






End InitReal.

Section InitShapes.
Context {T : Type} {ST : Scalar T}.
Local Open Scope num_scope.

(** X12: on a data source whose arrays have one shape, the
    reference-data branch raises nothing and ignores the arguments
    [broadening], [mus], [resolution] and [use_filter]: it stores the
    broadening 0.1, the five fixed chemical potentials, the arrays of the
    data source as spectral weight, and no [diamond]. *)
Theorem init_peters_ignores (arcs : Model.fermi_arcs) (hoppings : hops_t (T:=T))
    (omega broadening broadening' : T) (mus3 mus3' : T * T * T)
    (resolution resolution' : Z) (use_filter use_filter' : bool) (r c : nat) :
  forallb (fun arc => has_shape2 r c (snd arc)) arcs = true ->
  exists m,
    Model.__init__ arcs hoppings broadening omega mus3 resolution true use_filter
    = Ok m /\
    Model.__init__ arcs hoppings broadening' omega mus3' resolution' true use_filter'
    = Ok m /\
    Model.eta m = dec 1 1 /\
    Model.mus m = peters_mus /\
    Model.A m = map snd arcs /\
    Model.diamond m = None /\
    Model.w m = omega.
Proof.
  intros _. eexists. split; [apply init_peters |]. split; [apply init_peters |].
  cbn [Model.eta Model.mus Model.A Model.diamond Model.w]. repeat split.
Qed.

(** X13: an instance the synthetic branch returns keeps its arguments and
    has conforming shapes: one energy surface and one slice of spectral
    weight per chemical potential, on a grid of [resolution] x
    [resolution] points, and a [diamond] of that shape. *)
Theorem init_synthetic_shapes (arcs : Model.fermi_arcs) (hoppings : hops_t (T:=T))
    (broadening omega : T) (mus3 : T * T * T) (resolution : Z) (use_filter : bool)
    (m : Model.t) :
  Model.__init__ arcs hoppings broadening omega mus3 resolution false use_filter
  = Ok m ->
  let n := Z.to_nat resolution in
  let M := length (Model.mus m) in
  Model.wf m = true /\
  Model.hops m = hoppings /\ Model.eta m = broadening /\ Model.w m = omega /\
  (1 <= M)%nat /\ (1 <= n)%nat /\
  has_shape2 n n (Model.k_x m) = true /\
  has_shape3 M n n (Model.E m) = true /\
  has_shape3 M n n (Model.A m) = true /\
  exists d, Model.diamond m = Some d /\ has_shape2 n n d = true.
Proof.
  intros Hinit n M.
  pose proof (init_synthetic_wf _ _ _ _ _ _ _ _ Hinit) as Hwf.
  split; [exact Hwf |].
  apply wf_shapes in Hwf. cbv zeta in Hwf.
  destruct Hwf as (Hn & HE & _ & _ & _ & _ & _ & HM & HA).
  destruct mus3 as [[start stop] step].
  apply init_synthetic in Hinit. cbv zeta in Hinit.
  destruct Hinit as (_ & Hres & Hmus & Hm).
  assert (Hlen : length (Model.k_x m) = n).
  { rewrite Hm. cbn [Model.k_x fst meshgrid]. rewrite length_map.
    apply linspace_length. }
  assert (HlenA : length (Model.A m) = M).
  { unfold M. rewrite Hm. cbn [Model.A Model.mus].
    unfold Model.broadcast_mul, Model.ew3. rewrite !length_map.
    apply get_energies_E_length. }
  rewrite Hlen in Hn, HE, HA. rewrite HlenA in HM, HA.
  assert (Hkx : has_shape2 n n (Model.k_x m) = true).
  { rewrite Hm. cbn [Model.k_x].
    pose proof (meshgrid_shape (linspace (- pi) pi n) (linspace (- pi) pi n)) as [H _].
    now rewrite linspace_length in H. }
  split; [rewrite Hm; reflexivity |].
  split; [rewrite Hm; reflexivity |].
  split; [rewrite Hm; reflexivity |].
  split; [exact HM |]. split; [exact Hn |]. split; [exact Hkx |].
  split; [exact HE |]. split; [exact HA |].
  exists (diag_line n). split; [rewrite Hm; reflexivity | apply fill_shape].
Qed.

End InitShapes.

Section InitWitnesses.

Lemma init_peters_ignores_witness :
  exists m : Model.t (T:=R),
    Model.__init__ [("a"%string, [[1%R]])] (0, 0, 0)%R (1 / 2)%R 0%R (0, 1, 1)%R 3
      true false = Ok m /\
    Model.__init__ [("a"%string, [[1%R]])] (0, 0, 0)%R 2%R 0%R (0, 2, 1)%R 0
      true true = Ok m /\
    Model.eta m = dec 1 1 /\
    Model.mus m = peters_mus /\
    Model.A m = [[[1%R]]] /\
    Model.diamond m = None /\
    Model.w m = 0%R.
Proof.
  apply (init_peters_ignores (T:=R) [("a"%string, [[1%R]])] (0, 0, 0)%R 0%R
           (1 / 2)%R 2%R (0, 1, 1)%R (0, 2, 1)%R 3 0 false true 1 1).
  reflexivity.
Defined.

Lemma init_synthetic_shapes_witness :
  exists m : Model.t (T:=R),
    Model.__init__ [] (0, 0, 0)%R (1 / 10)%R 0%R (0, 2, 1)%R 1 false false = Ok m /\
    Model.wf m = true.
Proof.
  destruct init_single_point as (m & Hinit & _).
  exists m. split; [exact Hinit |].
  apply (init_synthetic_shapes _ _ _ _ _ _ _ m Hinit).
Defined.

End InitWitnesses.

(** ** Further facts on the grid, the density and the conductivities *)

Section TransportExtras.
Local Open Scope R_scope.

(** X14: the momentum grid of an instance: [k_x[i][j]] is the momentum of
    index j and [k_y[i][j]] the momentum of index i on an axis of n
    evenly spaced samples from -pi to pi, -pi + i * 2 pi / (n - 1), where
    n is 200 in the reference-data branch and [resolution] otherwise. *)
Theorem grid_uniform (arcs : Model.fermi_arcs) (hoppings : hops_t (T:=R))
    (broadening omega : R) (mus3 : R * R * R) (resolution : Z)
    (use_peters use_filter : bool) (m : Model.t) :
  Model.__init__ arcs hoppings broadening omega mus3 resolution
                 use_peters use_filter = Ok m ->
  let n := if use_peters then 200%nat else Z.to_nat resolution in
  has_shape2 n n (Model.k_x m) = true /\ has_shape2 n n (Model.k_y m) = true /\
  forall i j, (i < n)%nat -> (j < n)%nat ->
    get2 (Model.k_x m) i j = k_axis n j /\
    get2 (Model.k_y m) i j = k_axis n i /\
    k_axis n 0 = - PI /\
    ((2 <= n)%nat ->
     k_axis n (n - 1) = PI /\
     k_axis n i = - PI + INR i * (2 * PI / INR (n - 1))).
Proof.
  intros Hinit n.
  assert (Hk : Model.k_x m = fst (meshgrid (linspace (T:=R) (neg pi) pi n)
                                           (linspace (T:=R) (neg pi) pi n))
               /\ Model.k_y m = snd (meshgrid (linspace (T:=R) (neg pi) pi n)
                                              (linspace (T:=R) (neg pi) pi n))).
  { destruct use_peters.
    - pose proof (init_peters arcs hoppings broadening omega mus3 resolution use_filter)
        as Hp. cbv zeta in Hp. rewrite Hp in Hinit. apply Ok_inj in Hinit.
      subst m. split; reflexivity.
    - destruct mus3 as [[start stop] step].
      apply init_synthetic in Hinit. cbv zeta in Hinit.
      destruct Hinit as (_ & _ & _ & ->). split; reflexivity. }
  destruct Hk as [Hx Hy]. rewrite Hx, Hy.
  set (k_s := linspace (T:=R) (neg pi) pi n).
  assert (HkR : length k_s = n) by apply linspace_length.
  destruct (meshgrid_shape k_s k_s) as [Hkx Hky]. rewrite HkR in Hkx, Hky.
  split; [exact Hkx |]. split; [exact Hky |].
  intros i j Hi Hj.
  destruct (meshgrid_get2 k_s k_s i j) as [Hgx Hgy]; [lia | lia |].
  split; [exact Hgx |]. split; [exact Hgy |].
  split; [apply k_axis_first; lia |].
  intros Hn. split; [now apply k_axis_last |].
  unfold k_axis, buffer.
  destruct n as [|[|n']]; try lia.
  rewrite linspace_at1 by lia. r_unfold.
  replace (S (S n') - 1)%nat with (S n') by lia.
  unfold Rdiv. ring.
Qed.

Lemma grid_uniform_witness :
  exists m : Model.t (T:=R),
    Model.__init__ [] (0, 0, 0) (1 / 10) 0 (0, 2, 1) 1 false false = Ok m /\
    has_shape2 1 1 (Model.k_x m) = true.
Proof.
  destruct init_single_point as (m & Hinit & _).
  exists m. split; [exact Hinit |].
  apply (grid_uniform _ _ _ _ _ _ _ _ m Hinit).
Defined.

(** X15: the density depends on the hoppings, the sweep and the
    resolution only: two instances of the synthetic branch that differ in
    the broadening, the frequency or the filter have the same density. *)
Theorem get_density_ignores_broadening (arcs arcs' : Model.fermi_arcs)
    (hoppings : hops_t (T:=R)) (mus3 : R * R * R) (resolution : Z)
    (broadening broadening' omega omega' : R) (use_filter use_filter' : bool)
    (m m' : Model.t) :
  Model.__init__ arcs hoppings broadening omega mus3 resolution false use_filter
  = Ok m ->
  Model.__init__ arcs' hoppings broadening' omega' mus3 resolution false use_filter'
  = Ok m' ->
  Model.get_density m = Model.get_density m'.
Proof.
  destruct mus3 as [[start stop] step]. intros Hm Hm'.
  apply init_synthetic in Hm. apply init_synthetic in Hm'. cbv zeta in Hm, Hm'.
  destruct Hm as (_ & _ & _ & ->). destruct Hm' as (_ & _ & _ & ->).
  reflexivity.
Qed.

Lemma init_point (broadening omega : R) (use_filter : bool) :
  exists m : Model.t (T:=R),
    Model.__init__ [] (0, 0, 0) broadening omega (0, 2, 1) 1 false use_filter = Ok m.
Proof.
  eexists. apply init_synthetic_ok.
  - r_unfold. unfold R_eqb. destruct (Req_dec_T 1 0); [lra | reflexivity].
  - lia.
  - rewrite arange_0_2_1. simpl. lia.
Qed.

Lemma get_density_ignores_broadening_witness :
  exists m m' : Model.t (T:=R),
    Model.__init__ [] (0, 0, 0) (1 / 10) 0 (0, 2, 1) 1 false false = Ok m /\
    Model.__init__ [] (0, 0, 0) (1 / 2) 1 (0, 2, 1) 1 false true = Ok m' /\
    Model.get_density m = Model.get_density m'.
Proof.
  destruct (init_point (1 / 10) 0 false) as (m & Hm).
  destruct (init_point (1 / 2) 1 true) as (m' & Hm').
  exists m, m'. split; [exact Hm |]. split; [exact Hm' |].
  apply (get_density_ignores_broadening _ _ _ _ _ _ _ _ _ _ _ m m' Hm Hm').
Defined.

Lemma Rsum_nonneg (n : nat) (f : nat -> R) :
  (forall i, (i < n)%nat -> 0 <= f i) -> 0 <= Rsum n f.
Proof.
  intros H. rewrite <- (Rmult_0_r (INR n)), <- Rsum_const.
  now apply Rsum_le.
Qed.

Lemma sigma_ii_entry (m : Model.t (T:=R)) (dE : arr2 R) (k : nat) :
  let n := length (Model.k_x m) in
  has_shape2 n n dE = true ->
  has_shape3 (length (Model.A m)) n n (Model.A m) = true ->
  (k < length (Model.A m))%nat ->
  at1 (map (fun sig => (of_Z 2 * (power (- e_charge) 2 * pi) * sum sig)%num)
         (Model.broadcast_mul (ew1 (fun x => power x 2) dE)
            (Model.ew3 (fun x => power x 2) (Model.A m)))) k
  = 2 * (- elementary_charge) ^ 2 * PI
    * Rsum n (fun i => Rsum n (fun j =>
        get2 dE i j ^ 2 * get3 (Model.A m) k i j ^ 2)).
Proof.
  intros n HdE HA Hk. unfold at1.
  set (D2 := ew1 _ dE). set (A2 := Model.ew3 _ (Model.A m)).
  assert (HD2 : has_shape2 n n D2 = true) by (unfold D2; now apply ew1_shape).
  assert (HA2 : has_shape3 (length (Model.A m)) n n A2 = true)
    by (unfold A2; now apply ew3_shape).
  pose proof (broadcast_mul_shape _ _ _ D2 A2 HD2 HA2) as Hsig.
  rewrite (map_nth_in _ _ _ _ [])
    by (rewrite (has_shape3_length _ _ _ _ Hsig); exact Hk).
  rewrite (sum_Rsum n n) by (now apply (has_shape3_slice (length (Model.A m)))).
  r_unfold. rewrite (power_pow (- _) 2). unfold elementary_charge.
  replace (2 * ((- (1602176634 / 10 ^ 28)) ^ 2 * PI))
    with (2 * (- (1602176634 / 10 ^ 28)) ^ 2 * PI) by ring.
  f_equal. apply Rsum_ext. intros i Hi. apply Rsum_ext. intros j Hj.
  change (get2 (nth k (Model.broadcast_mul D2 A2) []) i j)
    with (get3 (Model.broadcast_mul D2 A2) k i j).
  rewrite (broadcast_mul_get3 (length (Model.A m)) n n) by assumption.
  unfold A2, D2. rewrite (ew3_get3 _ (length (Model.A m)) n n) by assumption.
  rewrite (ew1_get2 _ n n) by assumption.
  r_unfold. now rewrite !power_pow.
Qed.

(** X16: for every well-formed instance, [sigma_ii] along x (along y)
    has one entry per slice of the spectral weight, equal to
    2 (-e)^2 pi sum_{kx, ky} (dE/dx)^2 A^2 (with dE/dy along y), and no
    entry is negative. *)
Theorem sigma_ii_formula (m : Model.t (T:=R)) :
  Model.wf m = true ->
  let n := length (Model.k_x m) in
  let d := Model.dEs m in
  exists s_xx s_yy,
    Model.sigma_ii m "x" = Ok s_xx /\ Model.sigma_ii m "y" = Ok s_yy /\
    length s_xx = length (Model.A m) /\ length s_yy = length (Model.A m) /\
    forall k, (k < length (Model.A m))%nat ->
      at1 s_xx k
      = 2 * (- elementary_charge) ^ 2 * PI
        * Rsum n (fun i => Rsum n (fun j =>
            get2 (dE_dx d) i j ^ 2 * get3 (Model.A m) k i j ^ 2)) /\
      at1 s_yy k
      = 2 * (- elementary_charge) ^ 2 * PI
        * Rsum n (fun i => Rsum n (fun j =>
            get2 (dE_dy d) i j ^ 2 * get3 (Model.A m) k i j ^ 2)) /\
      0 <= at1 s_xx k /\ 0 <= at1 s_yy k.
Proof.
  intros Hwf n d. pose proof (wf_shapes m Hwf) as Hs. cbv zeta in Hs.
  destruct Hs as (Hn & _ & Hdx & _ & Hdy & _ & _ & HM & HA).
  eexists. eexists.
  split; [apply sigma_ii_x |]. split; [apply sigma_ii_y |].
  split; [apply (sigma_ii_length m "x"), sigma_ii_x |].
  split; [apply (sigma_ii_length m "y"), sigma_ii_y |].
  intros k Hk. subst d.
  rewrite (sigma_ii_entry m (dE_dx (Model.dEs m)) k Hdx HA Hk).
  rewrite (sigma_ii_entry m (dE_dy (Model.dEs m)) k Hdy HA Hk).
  split; [reflexivity |]. split; [reflexivity |].
  assert (Hc : 0 <= 2 * (- elementary_charge) ^ 2 * PI).
  { pose proof PI_RGT_0. pose proof (pow2_ge_0 (- elementary_charge)). nra. }
  split; (apply Rmult_le_pos; [exact Hc |]);
    apply Rsum_nonneg; intros i Hi; apply Rsum_nonneg; intros j Hj;
    apply Rmult_le_pos; apply pow2_ge_0.
Qed.

Lemma sigma_ii_formula_witness :
  exists s_xx, Model.sigma_ii (point_model 1) "x" = Ok s_xx /\ 0 <= at1 s_xx 0.
Proof.
  destruct (sigma_ii_formula (point_model 1) eq_refl)
    as (s_xx & s_yy & Hx & _ & _ & _ & Hk).
  exists s_xx. split; [exact Hx |].
  destruct (Hk 0%nat) as (_ & _ & H0 & _); [simpl; lia | exact H0].
Defined.

End TransportExtras.

(** ** [find_nearest] and [delta] *)

Section NearestExtras.
Local Open Scope R_scope.

Lemma argmin_from_correct (a : list R) :
  forall (l pre : list R) (best_i : nat),
    a = pre ++ l -> (best_i < length pre)%nat ->
    (forall k, (k < length pre)%nat -> nth best_i a 0 <= nth k a 0) ->
    (forall k, (k < best_i)%nat -> nth best_i a 0 < nth k a 0) ->
    let r := argmin_from best_i (nth best_i a 0) (length pre) l in
    (r < length a)%nat /\
    (forall k, (k < length a)%nat -> nth r a 0 <= nth k a 0) /\
    (forall k, (k < r)%nat -> nth r a 0 < nth k a 0).
Proof.
  induction l as [|x l IH]; intros pre best_i Ha Hb Hle Hlt.
  - cbn [argmin_from]. rewrite app_nil_r in Ha. subst a. auto.
  - cbn [argmin_from]. r_unfold.
    assert (Ha' : a = (pre ++ [x]) ++ l) by (now rewrite <- app_assoc).
    assert (Hx : nth (length pre) a 0 = x).
    { rewrite Ha. rewrite app_nth2, Nat.sub_diag by lia. reflexivity. }
    assert (Hlen : length (pre ++ [x]) = S (length pre))
      by (rewrite length_app; simpl; lia).
    unfold R_leb. destruct (Rle_dec (nth best_i a 0) x) as [Hbx | Hbx].
    + specialize (IH (pre ++ [x]) best_i Ha'). rewrite Hlen in IH.
      apply IH; [lia | | exact Hlt].
      intros k Hk. destruct (Nat.eq_dec k (length pre)) as [-> | Hne].
      * now rewrite Hx.
      * apply Hle. lia.
    + specialize (IH (pre ++ [x]) (length pre) Ha'). rewrite Hlen, Hx in IH.
      apply IH; [lia | |].
      * intros k Hk. destruct (Nat.eq_dec k (length pre)) as [-> | Hne].
        -- rewrite Hx. lra.
        -- assert (nth best_i a 0 <= nth k a 0) by (apply Hle; lia). lra.
      * intros k Hk. assert (nth best_i a 0 <= nth k a 0) by (apply Hle; lia). lra.
Qed.

Lemma argmin_correct (a : list R) :
  a <> [] ->
  exists r, argmin a = Ok r /\ (r < length a)%nat /\
    (forall k, (k < length a)%nat -> nth r a 0 <= nth k a 0) /\
    (forall k, (k < r)%nat -> nth r a 0 < nth k a 0).
Proof.
  destruct a as [|x l]; [congruence |]. intros _.
  eexists. split; [reflexivity |].
  apply (argmin_from_correct (x :: l) l [x] 0); try reflexivity; simpl; try lia.
  - intros k Hk. assert (k = 0%nat) as -> by lia. lra.
Qed.

Lemma find_nearest_spec (array : arr1 R) (value : R) :
  array <> [] ->
  exists idx, find_nearest array value = Ok idx /\
    (idx < length array)%nat /\
    (forall k, (k < length array)%nat ->
       Rabs (at1 array idx - value) <= Rabs (at1 array k - value)) /\
    (forall k, (k < idx)%nat ->
       Rabs (at1 array idx - value) < Rabs (at1 array k - value)).
Proof.
  intros Hne. unfold find_nearest.
  set (d := map (fun x => absf (sub x value)) array).
  assert (Hd : d <> []) by (unfold d; destruct array; [congruence | discriminate]).
  destruct (argmin_correct d Hd) as (r & Hr & Hlt & Hmin & Hfirst).
  assert (Hlen : length d = length array) by (unfold d; apply length_map).
  assert (Hnth : forall k, (k < length array)%nat ->
                   nth k d 0 = Rabs (at1 array k - value)).
  { intros k Hk. unfold d, at1. now rewrite (map_nth_in _ _ _ _ (of_Z 0)). }
  exists r. split; [exact Hr |]. rewrite Hlen in Hlt, Hmin.
  split; [exact Hlt |]. split.
  - intros k Hk. rewrite <- !Hnth by assumption. now apply Hmin.
  - intros k Hk. rewrite <- !Hnth by lia. now apply Hfirst.
Qed.

Lemma init_synthetic_lengths (arcs : Model.fermi_arcs) (hoppings : hops_t (T:=R))
    (broadening omega : R) (mus3 : R * R * R) (resolution : Z) (use_filter : bool)
    (m : Model.t) :
  Model.__init__ arcs hoppings broadening omega mus3 resolution false use_filter
  = Ok m ->
  (1 <= length (Model.mus m))%nat /\
  length (Model.E m) = length (Model.mus m) /\
  length (Model.A m) = length (Model.mus m).
Proof.
  intros Hinit. destruct mus3 as [[start stop] step].
  apply init_synthetic in Hinit. cbv zeta in Hinit.
  destruct Hinit as (_ & _ & Hmus & Hm).
  rewrite Hm. cbn [Model.A Model.mus Model.E].
  split; [exact Hmus |]. split; [apply get_energies_E_length |].
  unfold Model.broadcast_mul, Model.ew3. rewrite !length_map.
  apply get_energies_E_length.
Qed.

(** X17: [find_nearest] raises [ValueError] on an empty array; on any
    other it returns an index of the array whose entry is at least as
    close to [value] as every entry, and closer than every earlier entry
    (the first index among the closest). *)
Theorem find_nearest_closest (array : arr1 R) (value : R) :
  (array = [] -> find_nearest array value = Raise ValueError) /\
  (array <> [] ->
   exists idx, find_nearest array value = Ok idx /\
     (idx < length array)%nat /\
     (forall k, (k < length array)%nat ->
        Rabs (at1 array idx - value) <= Rabs (at1 array k - value)) /\
     (forall k, (k < idx)%nat ->
        Rabs (at1 array idx - value) < Rabs (at1 array k - value))).
Proof.
  split; [intros ->; reflexivity | apply find_nearest_spec].
Qed.

(** X18: when [value] occurs in the array, the entry at the index
    [find_nearest] returns is [value]. *)
Theorem find_nearest_exact (array : arr1 R) (value : R) :
  In value array ->
  exists idx, find_nearest array value = Ok idx /\
    (idx < length array)%nat /\ at1 array idx = value.
Proof.
  intros Hin.
  assert (Hne : array <> []) by (destruct array; [contradiction | discriminate]).
  destruct (find_nearest_spec array value Hne) as (idx & Hidx & Hlt & Hmin & _).
  exists idx. split; [exact Hidx |]. split; [exact Hlt |].
  destruct (In_nth _ _ 0 Hin) as (k & Hk & Hv).
  specialize (Hmin k Hk). unfold at1 in Hmin at 2. r_unfold. rewrite Hv in Hmin.
  replace (value - value) with 0 in Hmin by ring. rewrite Rabs_R0 in Hmin.
  pose proof (Rabs_pos (at1 array idx - value)) as Hp.
  assert (Hz : Rabs (at1 array idx - value) = 0) by lra.
  destruct (Req_dec (at1 array idx - value) 0) as [He | He]; [lra |].
  apply Rabs_no_R0 in He. contradiction.
Qed.

Lemma find_nearest_exact_witness :
  exists idx, find_nearest [1; 5; 3; 5] 5 = Ok idx /\
    (idx < length [1; 5; 3; 5])%nat /\ at1 [1; 5; 3; 5] idx = 5.
Proof.
  apply (find_nearest_exact [1; 5; 3; 5] 5). simpl. auto.
Defined.

(** X19: on an instance the synthetic branch returns, [find_nearest] on
    the sweep raises nothing, and the index it returns is an index of the
    spectral weight and of the energies. *)
Theorem find_nearest_indexes_weight (arcs : Model.fermi_arcs)
    (hoppings : hops_t (T:=R)) (broadening omega : R) (mus3 : R * R * R)
    (resolution : Z) (use_filter : bool) (m : Model.t) (mu : R) :
  Model.__init__ arcs hoppings broadening omega mus3 resolution false use_filter
  = Ok m ->
  exists idx, find_nearest (Model.mus m) mu = Ok idx /\
    (idx < length (Model.A m))%nat /\ (idx < length (Model.E m))%nat.
Proof.
  intros Hinit.
  destruct (init_synthetic_lengths _ _ _ _ _ _ _ m Hinit) as (HM & HE & HA).
  assert (Hne : Model.mus m <> []).
  { intros H. rewrite H in HM. simpl in HM. lia. }
  destruct (find_nearest_spec (Model.mus m) mu Hne) as (idx & Hidx & Hlt & _).
  exists idx. split; [exact Hidx |]. rewrite HE, HA. auto.
Qed.

Lemma find_nearest_indexes_weight_witness :
  exists (m : Model.t (T:=R)) idx,
    Model.__init__ [] (0, 0, 0) (1 / 10) 0 (0, 2, 1) 1 false false = Ok m /\
    find_nearest (Model.mus m) (3 / 10) = Ok idx /\
    (idx < length (Model.A m))%nat.
Proof.
  destruct init_single_point as (m & Hinit & _).
  destruct (find_nearest_indexes_weight _ _ _ _ _ _ _ m (3 / 10) Hinit)
    as (idx & Hidx & HA & _).
  exists m, idx. auto.
Defined.

Lemma delta_R (j k : Z) : delta (T:=R) j k = if (j =? k)%Z then 1 else 0.
Proof. reflexivity. Qed.

Lemma Rsum_delta_out (n : nat) (j : Z) (f : nat -> R) :
  (j < 0 \/ Z.of_nat n <= j)%Z ->
  Rsum n (fun k => delta j (Z.of_nat k) * f k) = 0.
Proof.
  intros Hj. rewrite <- (Rmult_0_r (INR n)), <- Rsum_const.
  apply Rsum_ext. intros k Hk. rewrite delta_R.
  destruct (Z.eqb_spec j (Z.of_nat k)); [lia | ring].
Qed.

(** X20: [delta] is symmetric, and it sifts a sum: the sum over k < n of
    delta(j, k) f(k) is f(j) for 0 <= j < n and 0 for any other j. *)
Theorem delta_sifts (n : nat) (j : Z) (f : nat -> R) :
  (forall k, delta (T:=R) j k = delta k j) /\
  Rsum n (fun k => delta j (Z.of_nat k) * f k)
  = if ((0 <=? j) && (j <? Z.of_nat n))%Z then f (Z.to_nat j) else 0.
Proof.
  split.
  - intros k. rewrite !delta_R, (Z.eqb_sym j k). reflexivity.
  - induction n as [|n IH].
    + cbn [Rsum]. destruct (0 <=? j)%Z eqn:H0; cbn [andb]; [| reflexivity].
      destruct (j <? Z.of_nat 0)%Z eqn:H1; [| reflexivity].
      apply Z.leb_le in H0. apply Z.ltb_lt in H1. lia.
    + cbn [Rsum]. rewrite IH, delta_R.
      destruct (Z.eqb_spec j (Z.of_nat n)) as [-> | Hne].
      * rewrite Nat2Z.id.
        assert (H0 : (0 <=? Z.of_nat n)%Z = true) by (apply Z.leb_le; lia).
        assert (H1 : (Z.of_nat n <? Z.of_nat n)%Z = false) by (apply Z.ltb_ge; lia).
        assert (H2 : (Z.of_nat n <? Z.of_nat (S n))%Z = true) by (apply Z.ltb_lt; lia).
        rewrite H0, H1, H2. cbn [andb]. ring.
      * destruct (0 <=? j)%Z eqn:H0; cbn [andb]; [| ring].
        destruct (j <? Z.of_nat n)%Z eqn:H1.
        -- assert (H2 : (j <? Z.of_nat (S n))%Z = true).
           { apply Z.ltb_lt. apply Z.ltb_lt in H1. lia. }
           rewrite H2. ring.
        -- assert (H2 : (j <? Z.of_nat (S n))%Z = false).
           { apply Z.ltb_ge. apply Z.ltb_ge in H1. lia. }
           rewrite H2. ring.
Qed.

End NearestExtras.

(** ** The data files: [read_fermi_arc] and [flatten_fermi_arc] *)

Section FileNames.
Local Open Scope string_scope.

Lemma str_app_assoc (a b c : string) : (a ++ b) ++ c = a ++ (b ++ c).
Proof. induction a as [|x a IH]; simpl; [reflexivity | now rewrite IH]. Qed.

Lemma has_char_app (c : Ascii.ascii) (a b : string) :
  has_char c (a ++ b) = has_char c a || has_char c b.
Proof.
  induction a as [|x a IH]; simpl; [reflexivity |].
  now rewrite IH, orb_assoc.
Qed.

Lemma str_split_nonempty (sep : Ascii.ascii) (s : string) : str_split sep s <> [].
Proof.
  destruct s as [|c s]; simpl; [discriminate |].
  destruct (Ascii.eqb c sep); [discriminate |].
  destruct (str_split sep s); discriminate.
Qed.

Lemma str_split_pieces (sep : Ascii.ascii) (s p : string) :
  In p (str_split sep s) ->
  has_char sep p = false /\
  forall c, has_char c p = true -> has_char c s = true.
Proof.
  revert p. induction s as [|x s IH]; intros p Hin.
  - simpl in Hin. destruct Hin as [<- | []]. auto.
  - simpl in Hin. destruct (Ascii.eqb x sep) eqn:Hx.
    + destruct Hin as [<- | Hin]; [split; [reflexivity | discriminate] |].
      destruct (IH p Hin) as [H1 H2]. split; [exact H1 |].
      intros c Hc. simpl. rewrite (H2 c Hc). apply orb_true_r.
    + destruct (str_split sep s) as [|q qs] eqn:Hs.
      * exfalso. exact (str_split_nonempty sep s Hs).
      * destruct Hin as [<- | Hin].
        -- destruct (IH q (or_introl eq_refl)) as [H1 H2]. simpl. rewrite Hx, H1.
           split; [reflexivity |]. intros c Hc.
           apply orb_prop in Hc. destruct Hc as [Hc | Hc].
           ++ now rewrite Hc.
           ++ rewrite (H2 c Hc). apply orb_true_r.
        -- destruct (IH p (or_intror Hin)) as [H1 H2]. split; [exact H1 |].
           intros c Hc. simpl. rewrite (H2 c Hc). apply orb_true_r.
Qed.

Lemma str_split_none (sep : Ascii.ascii) (s : string) :
  has_char sep s = false -> str_split sep s = [s].
Proof.
  induction s as [|x s IH]; simpl; [reflexivity |]. intros H.
  apply orb_false_elim in H. destruct H as [Hx Hs].
  now rewrite Hx, (IH Hs).
Qed.

Lemma str_split_app (sep : Ascii.ascii) (a b : string) :
  str_split sep (a ++ String sep b) = (str_split sep a ++ str_split sep b)%list.
Proof.
  induction a as [|x a IH]; simpl.
  - now rewrite Ascii.eqb_refl.
  - destruct (Ascii.eqb x sep); rewrite IH; [reflexivity |].
    pose proof (str_split_nonempty sep a) as Hne.
    destruct (str_split sep a) as [|p ps]; [congruence | reflexivity].
Qed.

Lemma last_In {A : Type} (l : list A) (d : A) : l <> [] -> In (last l d) l.
Proof.
  induction l as [|x l IH]; [congruence |]. intros _.
  destruct l as [|y l]; [now left |].
  right. apply IH. discriminate.
Qed.

Lemma last_app_nonempty {A : Type} (l l' : list A) (d : A) :
  l' <> [] -> last (l ++ l') d = last l' d.
Proof.
  intros Hne. induction l as [|x l IH]; [reflexivity |].
  simpl app. destruct (l ++ l')%list as [|y r] eqn:E.
  - apply app_eq_nil in E. destruct E. congruence.
  - simpl. simpl in IH. exact IH.
Qed.

Lemma hd_In {A : Type} (l : list A) (d : A) : l <> [] -> In (hd d l) l.
Proof. destruct l; [congruence | now left]. Qed.

Lemma label_pieces (file : string) :
  has_char "_" (label file) = false /\ has_char "." (label file) = false /\
  forall c, has_char c (label file) = true -> has_char c file = true.
Proof.
  unfold label.
  set (L := last (str_split "_" file) "").
  assert (HL : In L (str_split "_" file)) by (apply last_In, str_split_nonempty).
  apply str_split_pieces in HL. destruct HL as [HL1 HL2].
  set (h := hd "" (str_split "." L)).
  assert (Hh : In h (str_split "." L)) by (apply hd_In, str_split_nonempty).
  apply str_split_pieces in Hh. destruct Hh as [Hh1 Hh2].
  split; [| split; [exact Hh1 |]].
  - destruct (has_char "_" h) eqn:E; [| reflexivity].
    apply Hh2 in E. congruence.
  - intros c Hc. auto.
Qed.

Lemma label_saved (save_path ext : string) :
  has_char "_" ext = false -> has_char "." ext = false ->
  label (save_path ++ "Akw_" ++ ext ++ ".npy") = ext.
Proof.
  intros H1 H2. unfold label.
  change (save_path ++ "Akw_" ++ ext ++ ".npy")
    with (save_path ++ "Akw" ++ String "_" (ext ++ ".npy")).
  rewrite <- str_app_assoc, str_split_app.
  rewrite (str_split_none "_" (ext ++ ".npy"))
    by (rewrite has_char_app, H1; reflexivity).
  rewrite last_app_nonempty by discriminate. cbn [last].
  change (ext ++ ".npy") with (ext ++ String "." "npy").
  rewrite str_split_app, (str_split_none "." ext H2). reflexivity.
Qed.

(** X21: the label [file.split("_")[-1].split(".")[0]] of a file name
    contains neither an underscore nor a dot, its characters are characters
    of the name, and a name with neither character is its own label. *)
Theorem label_clean (file : string) :
  has_char "_" (label file) = false /\ has_char "." (label file) = false /\
  (forall c, has_char c (label file) = true -> has_char c file = true) /\
  (has_char "_" file = false -> has_char "." file = false -> label file = file).
Proof.
  destruct (label_pieces file) as (H1 & H2 & H3).
  split; [exact H1 |]. split; [exact H2 |]. split; [exact H3 |].
  intros Hu Hd. unfold label.
  rewrite (str_split_none "_" file Hu). cbn [last].
  now rewrite (str_split_none "." file Hd).
Qed.

End FileNames.

Section DictFacts.
Context {V : Type}.
Local Open Scope string_scope.

Lemma dict_get_set_same (k : string) (v : V) (d : list (string * V)) :
  dict_get k (dict_set k v d) = Some v.
Proof.
  induction d as [|[k' v'] d IH]; simpl.
  - now rewrite String.eqb_refl.
  - destruct (String.eqb k' k) eqn:E; simpl; rewrite E; [reflexivity | exact IH].
Qed.

Lemma dict_get_set_other (k k' : string) (v : V) (d : list (string * V)) :
  k <> k' -> dict_get k' (dict_set k v d) = dict_get k' d.
Proof.
  intros Hne. induction d as [|[k0 v0] d IH]; simpl.
  - destruct (String.eqb_spec k k'); [congruence | reflexivity].
  - destruct (String.eqb_spec k0 k) as [-> | H0]; simpl.
    + destruct (String.eqb_spec k k'); [congruence | reflexivity].
    + now rewrite IH.
Qed.

Lemma dict_set_keys_present (k : string) (v : V) (d : list (string * V)) :
  In k (map fst d) -> map fst (dict_set k v d) = map fst d.
Proof.
  induction d as [|[k0 v0] d IH]; simpl; [intros [] |].
  intros Hin. destruct (String.eqb_spec k0 k) as [-> | H0]; [reflexivity |].
  simpl. rewrite IH; [reflexivity |]. destruct Hin; [congruence | assumption].
Qed.

Lemma dict_set_keys_absent (k : string) (v : V) (d : list (string * V)) :
  ~ In k (map fst d) -> map fst (dict_set k v d) = (map fst d ++ [k])%list.
Proof.
  induction d as [|[k0 v0] d IH]; simpl; [reflexivity |].
  intros Hin. destruct (String.eqb_spec k0 k) as [-> | H0]; [tauto |].
  simpl. rewrite IH; [reflexivity | tauto].
Qed.

Lemma dict_set_keys_In (k k' : string) (v : V) (d : list (string * V)) :
  In k' (map fst (dict_set k v d)) <-> k' = k \/ In k' (map fst d).
Proof.
  destruct (in_dec string_dec k (map fst d)) as [Hin | Hin].
  - rewrite dict_set_keys_present by assumption.
    split; [auto | intros [-> | H]; assumption].
  - rewrite dict_set_keys_absent, in_app_iff by assumption. simpl.
    split; [intros [H | [H | []]]; auto | intros [H | H]; auto].
Qed.

Lemma dict_set_keys_NoDup (k : string) (v : V) (d : list (string * V)) :
  NoDup (map fst d) -> NoDup (map fst (dict_set k v d)).
Proof.
  intros Hnd. destruct (in_dec string_dec k (map fst d)) as [Hin | Hin].
  - now rewrite dict_set_keys_present.
  - rewrite dict_set_keys_absent by assumption.
    apply NoDup_app; [exact Hnd | repeat constructor; intros [] |].
    intros x Hx [<- | []]. contradiction.
Qed.

Lemma dict_set_length (k : string) (v : V) (d : list (string * V)) :
  (length (dict_set k v d) <= S (length d))%nat.
Proof.
  induction d as [|[k0 v0] d IH]; simpl; [lia |].
  destruct (String.eqb k0 k); simpl; lia.
Qed.

Lemma dict_get_In (k : string) (d : list (string * V)) :
  In k (map fst d) <-> exists v, dict_get k d = Some v.
Proof.
  induction d as [|[k0 v0] d IH]; simpl.
  - split; [intros [] | intros [v Hv]; discriminate].
  - destruct (String.eqb_spec k0 k) as [-> | H0].
    + split; [intros _; now exists v0 | auto].
    + rewrite <- IH. split; [intros [H | H]; [congruence | exact H] | auto].
Qed.

End DictFacts.

Section ReadExtras.
Context {T : Type} {ST : Scalar T}.
Local Open Scope string_scope.

Lemma read_fermi_arc_snoc (files : list string) (load : string -> arr2 T)
    (f : string) :
  read_fermi_arc (files ++ [f]) load
  = dict_set (label f) (load f) (read_fermi_arc files load).
Proof. unfold read_fermi_arc. now rewrite fold_left_app. Qed.

Lemma read_fermi_arc_keys (files : list string) (load : string -> arr2 T) :
  NoDup (map fst (read_fermi_arc files load)) /\
  (forall k, In k (map fst (read_fermi_arc files load)) <-> In k (map label files)) /\
  (length (read_fermi_arc files load) <= length files)%nat.
Proof.
  induction files as [|f files IH] using rev_ind.
  - split; [constructor |]. split; [reflexivity | simpl; lia].
  - destruct IH as (Hnd & Hin & Hlen). rewrite read_fermi_arc_snoc.
    split; [now apply dict_set_keys_NoDup |]. split.
    + intros k. rewrite dict_set_keys_In, map_app, in_app_iff, Hin. simpl.
      split; [intros [-> | H]; auto | intros [H | [H | []]]; auto].
    + rewrite length_app. simpl.
      pose proof (dict_set_length (label f) (load f) (read_fermi_arc files load)).
      lia.
Qed.

(** X22: [read_fermi_arc] returns one entry per distinct label of the
    files: its keys are pairwise different, they are the labels of the
    files, and there are no more entries than files. *)
Theorem read_fermi_arc_distinct (files : list string) (load : string -> arr2 T) :
  NoDup (map fst (read_fermi_arc files load)) /\
  (forall k, In k (map fst (read_fermi_arc files load)) <-> In k (map label files)) /\
  (length (read_fermi_arc files load) <= length files)%nat.
Proof. apply read_fermi_arc_keys. Qed.

(** X23: when several files have one label, [read_fermi_arc] keeps the
    array of the last of them: the entry under the label of a file is the
    array loaded from it when no later file has that label. *)
Theorem read_fermi_arc_last_wins (pre post : list string) (f : string)
    (load : string -> arr2 T) :
  (forall g, In g post -> label g <> label f) ->
  dict_get (label f) (read_fermi_arc (pre ++ f :: post) load) = Some (load f).
Proof.
  induction post as [|g post IH] using rev_ind; intros Hpost.
  - rewrite read_fermi_arc_snoc. apply dict_get_set_same.
  - replace (pre ++ f :: post ++ [g])%list with ((pre ++ f :: post) ++ [g])%list
      by (now rewrite <- app_assoc).
    rewrite read_fermi_arc_snoc, dict_get_set_other.
    + apply IH. intros h Hh. apply Hpost, in_or_app. now left.
    + apply Hpost, in_or_app. right. now left.
Qed.

(** X24: the names [flatten_fermi_arc] saves under are pairwise
    different, one per entry of [read_fermi_arc] and in its order, and the
    label of a saved name is the key it was saved for; the content saved
    under it is the array of that key, row after row. *)
Theorem flatten_fermi_arc_names (files : list string) (load : string -> arr2 T)
    (save_path : string) :
  let saved := flatten_fermi_arc files load save_path in
  map label (map fst saved) = map fst (read_fermi_arc files load) /\
  NoDup (map fst saved) /\
  map snd saved = map (fun arc => concat (snd arc)) (read_fermi_arc files load).
Proof.
  cbv zeta.
  assert (Hlab : map label (map fst (flatten_fermi_arc files load save_path))
                 = map fst (read_fermi_arc files load)).
  { unfold flatten_fermi_arc. rewrite !map_map.
    assert (Hk : forall k, In k (map fst (read_fermi_arc files load)) ->
                   has_char "_" k = false /\ has_char "." k = false).
    { intros k Hk. apply read_fermi_arc_keys in Hk.
      apply in_map_iff in Hk. destruct Hk as (f & <- & _).
      destruct (label_pieces f) as (H1 & H2 & _). auto. }
    induction (read_fermi_arc files load) as [|[ext array] d IH]; [reflexivity |].
    cbn [map fst]. rewrite IH by (intros k Hin; apply Hk; now right).
    destruct (Hk ext (or_introl eq_refl)) as [H1 H2].
    now rewrite label_saved. }
  pose proof (read_fermi_arc_keys files load) as (Hnd & _ & _).
  assert (Hnd' : NoDup (map label (map fst (flatten_fermi_arc files load save_path))))
    by (now rewrite Hlab).
  split; [exact Hlab |]. split.
  - revert Hnd'. generalize (map fst (flatten_fermi_arc files load save_path)).
    induction l as [|x l IH]; intros H; [constructor |].
    simpl in H. inversion H as [|? ? Hx Hl]; subst. constructor; [| now apply IH].
    intros Hin. apply Hx. now apply in_map.
  - unfold flatten_fermi_arc, ravel. rewrite map_map.
    apply map_ext. now intros [ext array].
Qed.

End ReadExtras.

Section RavelExtras.
Context {T : Type} {ST : Scalar T}.

Lemma ravel_length (a : arr2 T) (r c : nat) :
  has_shape2 r c a = true -> length (ravel a) = (r * c)%nat.
Proof.
  revert r. unfold ravel. induction a as [|row a IH]; intros r H.
  - apply has_shape2_length in H. simpl in H. now subst r.
  - pose proof (has_shape2_In _ _ _ row H (or_introl eq_refl)) as Hrow.
    pose proof (has_shape2_length _ _ _ H) as Hr. simpl in Hr. subst r.
    cbn [concat]. rewrite length_app, Hrow, (IH (length a)); [simpl; lia |].
    apply has_shape2_intro; [reflexivity |].
    intros row' Hin. apply (has_shape2_In _ _ _ row' H). now right.
Qed.

Lemma ravel_nth (a : arr2 T) (r c i j : nat) :
  has_shape2 r c a = true -> (i < r)%nat -> (j < c)%nat ->
  nth (i * c + j) (ravel a) (of_Z 0) = get2 a i j.
Proof.
  revert r i. unfold ravel, get2. induction a as [|row a IH]; intros r i H Hi Hj.
  - apply has_shape2_length in H. simpl in H. lia.
  - pose proof (has_shape2_In _ _ _ row H (or_introl eq_refl)) as Hrow.
    pose proof (has_shape2_length _ _ _ H) as Hr. simpl in Hr. subst r.
    assert (Ha : has_shape2 (length a) c a = true).
    { apply has_shape2_intro; [reflexivity |].
      intros row' Hin. apply (has_shape2_In _ _ _ row' H). now right. }
    cbn [concat]. destruct i as [|i].
    + simpl. apply app_nth1. lia.
    + rewrite app_nth2 by (rewrite Hrow; simpl; lia).
      replace (S i * c + j - length row)%nat with (i * c + j)%nat
        by (rewrite Hrow; simpl; lia).
      cbn [nth]. apply (IH (length a)); [exact Ha | lia | exact Hj].
Qed.

(** X25: [flatten_fermi_arc] saves each array of [read_fermi_arc] under
    the name made of its key, in row-major order: for an array of r rows
    and c columns the saved array has r c entries, and its entry i c + j is
    the entry (i, j) of the array. *)
Theorem flatten_fermi_arc_row_major (files : list string) (load : string -> arr2 T)
    (save_path ext : string) (array : arr2 T) (r c : nat) :
  In (ext, array) (read_fermi_arc files load) ->
  has_shape2 r c array = true ->
  exists flat,
    In ((save_path ++ "Akw_" ++ ext ++ ".npy")%string, flat)
       (flatten_fermi_arc files load save_path) /\
    length flat = (r * c)%nat /\
    forall i j, (i < r)%nat -> (j < c)%nat ->
      nth (i * c + j) flat (of_Z 0) = get2 array i j.
Proof.
  intros Hin Hshape. exists (ravel array). split.
  - unfold flatten_fermi_arc. apply in_map_iff. now exists (ext, array).
  - split; [now apply ravel_length |].
    intros i j Hi Hj. now apply (ravel_nth array r c).
Qed.

End RavelExtras.

Section FileWitnesses.
Local Open Scope string_scope.

Lemma read_fermi_arc_last_wins_witness :
  (forall g, In g ["d/Akw_N36.npy"] -> label g <> label "e/Akw_N24.npy") /\
  dict_get (label "e/Akw_N24.npy")
    (read_fermi_arc (T:=R) (["d/Akw_N24.npy"] ++ "e/Akw_N24.npy" :: ["d/Akw_N36.npy"])
       (fun f => if String.eqb f "e/Akw_N24.npy" then [[1%R]] else [[0%R]]))
  = Some ((fun f => if String.eqb f "e/Akw_N24.npy" then [[1%R]] else [[0%R]])
            "e/Akw_N24.npy").
Proof.
  assert (H : forall g, In g ["d/Akw_N36.npy"] -> label g <> label "e/Akw_N24.npy").
  { intros g [<- | []]. vm_compute. discriminate. }
  split; [exact H |].
  exact (read_fermi_arc_last_wins (T:=R) ["d/Akw_N24.npy"] ["d/Akw_N36.npy"]
           "e/Akw_N24.npy"
           (fun f => if String.eqb f "e/Akw_N24.npy" then [[1%R]] else [[0%R]]) H).
Defined.

Lemma flatten_fermi_arc_row_major_witness :
  exists flat,
    In ("out/Akw_N24.npy", flat)
       (flatten_fermi_arc (T:=R) ["d/Akw_N24.npy"]
          (fun _ => [[1%R; 2%R]; [3%R; 4%R]]) "out/") /\
    length flat = (2 * 2)%nat /\
    forall i j, (i < 2)%nat -> (j < 2)%nat ->
      nth (i * 2 + j) flat 0%R = get2 [[1%R; 2%R]; [3%R; 4%R]] i j.
Proof.
  assert (Hin : In ("N24", [[1%R; 2%R]; [3%R; 4%R]])
                  (read_fermi_arc (T:=R) ["d/Akw_N24.npy"]
                     (fun _ => [[1%R; 2%R]; [3%R; 4%R]])))
    by (left; reflexivity).
  exact (flatten_fermi_arc_row_major (T:=R) ["d/Akw_N24.npy"]
           (fun _ => [[1%R; 2%R]; [3%R; 4%R]]) "out/" "N24"
           [[1%R; 2%R]; [3%R; 4%R]] 2 2 Hin eq_refl).
Defined.

End FileWitnesses.
